(** * Fuel route optimizer: the dynamic-programming refuel planner

    A shallow embedding of [fuel_optimizer/services/optimizer_v2.py]
    (class [OptimizedFuelRouteOptimizer]) and the properties of its plans.

    Numbers.  A finite Python float is the rational it stands for ([Q]):
    a double is a rational with a significand of 53 bits, and an
    arithmetic operation on floats returns its exact result rounded to the
    nearest double, ties to even ([b64]).  The exponent range is not
    bounded: no operation overflows to infinity or underflows, so the
    arithmetic is that of binary64 for magnitudes between [2^-1022] and
    [2^1023], and there is no NaN.  [float('inf')], which the DP table
    starts from, is a constructor of its own ([pyfloat]).  [round(x, k)]
    is the multiple of [10^-k] nearest to the exact value of [x], ties to
    even, read as the decimal it denotes; the costs of the stops, rounded
    so, are added up as these decimals.  Equality of rationals is [Qeq]
    ([==]).

    Indices.  Loop variables produced by [range] are naturals; the
    contents of the [parent] array and everything read back from it are
    integers ([Z]), indexed the way Python indexes a list (negative
    indices count from the end, anything else out of range raises
    [IndexError]). *)

From Stdlib Require Import ZArith QArith Qround Qpower Lia Lqa Ascii String List Sorted.
From stdpp Require Import base option list.

Local Open Scope Z_scope.
Local Open Scope Q_scope.

(** ** Exceptions and the error monad *)

Inductive exn : Type :=
  | ValueError (msg : string)
  | IndexError
  | KeyError (key : string)
  | TypeError
  | AttributeError
  | LoopBound.   (* the [while] loop of the embedding ran out of fuel *)

Inductive res (A : Type) : Type :=
  | Ok (a : A)
  | Raise (e : exn).
Arguments Ok {A} a.
Arguments Raise {A} e.

#[global] Instance res_ret : MRet res := fun A a => Ok a.
#[global] Instance res_bind : MBind res := fun A B f m =>
  match m with
  | Ok a => f a
  | Raise e => Raise e
  end.

(** [l[i]] for a natural index: [IndexError] out of range. *)
Definition getitem {A} (l : list A) (i : nat) : res A :=
  match l !! i with
  | Some a => Ok a
  | None => Raise IndexError
  end.

(** [l[i] = v] for a natural index. *)
Definition setitem {A} (l : list A) (i : nat) (v : A) : res (list A) :=
  if decide (i < length l)%nat then Ok (<[i:=v]> l) else Raise IndexError.

(** [l[z]] for an integer index, with Python's negative indices. *)
Definition getitem_z {A} (l : list A) (z : Z) : res A :=
  if (0 <=? z)%Z then getitem l (Z.to_nat z)
  else if (- Z.of_nat (length l) <=? z)%Z then getitem l (Z.to_nat (Z.of_nat (length l) + z))
  else Raise IndexError.

(** [for x in l: s = body(s, x)] *)
Fixpoint for_each {S A} (body : S -> A -> res S) (s : S) (l : list A) : res S :=
  match l with
  | [] => Ok s
  | x :: l' => s' ← body s x; for_each body s' l'
  end.

(** ** Floats *)

Inductive pyfloat : Type :=
  | Fin (q : Q)
  | Inf.

Definition Qltb (a b : Q) : bool := negb (Qle_bool b a).

(** Nearest integer, ties to even. *)
Definition round_half_even (q : Q) : Z :=
  let n := Qnum q in
  let d := Zpos (Qden q) in
  let f := (n / d)%Z in
  let r := (n mod d)%Z in
  if (2 * r <? d)%Z then f
  else if (d <? 2 * r)%Z then (f + 1)%Z
  else if Z.even f then f else (f + 1)%Z.

(** The binade of a positive number: the [e] with [2^e <= x < 2^(e+1)]. *)
Definition binade (x : Q) : Z :=
  if Qle_bool 1 x then Z.log2 (Qfloor x)
  else (- Z.log2_up (Qceiling (/ x)))%Z.

(** The nearest number with a significand of 53 bits, ties to even, for a
    positive [x]. *)
Definition b64_pos (x : Q) : Q :=
  let e := binade x in
  inject_Z (round_half_even (x * 2 ^ (52 - e))) * 2 ^ (e - 52).

(** Rounding to the nearest double. *)
Definition b64 (x : Q) : Q :=
  if Qltb 0 x then b64_pos x
  else if Qltb x 0 then - b64_pos (- x)
  else 0.

(** [x] is a double. *)
Definition binary64 (x : Q) : Prop := b64 x == x.



(** [a + b], [a - b], [a * b] and [a / b] on floats. *)
Definition float_add (a b : Q) : Q := b64 (a + b).
Definition float_sub (a b : Q) : Q := b64 (a - b).
Definition float_mul (a b : Q) : Q := b64 (a * b).
Definition float_div (a b : Q) : Q := b64 (a / b).

Definition fadd (x y : pyfloat) : pyfloat :=
  match x, y with
  | Fin a, Fin b => Fin (float_add a b)
  | _, _ => Inf
  end.

(** [x < y] *)
Definition fltb (x y : pyfloat) : bool :=
  match x, y with
  | Fin a, Fin b => Qltb a b
  | Fin _, Inf => true
  | Inf, _ => false
  end.

(** [x == float('inf')] *)
Definition is_inf (x : pyfloat) : bool :=
  match x with
  | Inf => true
  | Fin _ => false
  end.

(** [round(x, ndigits)] *)
Definition round (x : Q) (ndigits : nat) : Q :=
  let scale := Z.to_pos (10 ^ Z.of_nat ndigits) in
  Qmake (round_half_even (x * inject_Z (Zpos scale))) scale.

(** ** Data model *)

Module FuelStation.
Record t : Type := mk {
  truckstop_name : string;
  address : string;
  city : string;
  state : string;
  retail_price : Q;
  latitude : option Q;
  longitude : option Q
}.
End FuelStation.

Module OptimizedFuelStop.
Record t : Type := mk {
  name : string;
  address : string;
  city : string;
  state : string;
  latitude : option Q;
  longitude : option Q;
  price_per_gallon : Q;
  gallons_needed : Q;
  cost : Q;
  miles_from_start : Q
}.
End OptimizedFuelStop.

Module RouteResult.
Record t (Geometry : Type) : Type := mk {
  distance_miles : Q;
  duration_hours : Q;
  geometry : Geometry;
  coordinates : list (Q * Q);
  start_coords : Q * Q;
  end_coords : Q * Q
}.
Arguments mk {Geometry}.
Arguments distance_miles {Geometry}.
Arguments duration_hours {Geometry}.
Arguments geometry {Geometry}.
Arguments coordinates {Geometry}.
Arguments start_coords {Geometry}.
Arguments end_coords {Geometry}.
End RouteResult.

Module OptimizedRouteResult.
Record location : Type := mk_location {
  loc_address : string;
  loc_latitude : Q;
  loc_longitude : Q
}.
Record route_summary (Geometry : Type) : Type := mk_route {
  route_distance_miles : Q;
  route_duration_hours : Q;
  route_geometry : Geometry
}.
Arguments mk_route {Geometry}.
Record t (Geometry : Type) : Type := mk {
  route : route_summary Geometry;
  fuel_stops : list OptimizedFuelStop.t;
  total_fuel_cost : Q;
  total_gallons : Q;
  start_location : location;
  end_location : location;
  optimization_method : string;
  stations_considered : nat
}.
Arguments mk {Geometry}.
Arguments route {Geometry}.
Arguments fuel_stops {Geometry}.
Arguments total_fuel_cost {Geometry}.
Arguments total_gallons {Geometry}.
Arguments start_location {Geometry}.
Arguments end_location {Geometry}.
Arguments optimization_method {Geometry}.
Arguments stations_considered {Geometry}.
End OptimizedRouteResult.

(** An on-route station: [(station, chainage)]. *)
Abbreviation on_route := (FuelStation.t * Q)%type.

(** ** Vehicle constants *)

Definition VEHICLE_RANGE_MILES : Q := 500.
Definition FUEL_EFFICIENCY_MPG : Q := 10.
Definition MAX_ROUTE_DISTANCE_MILES : Q := 15.

(** ** The planner *)

Definition START_IDX : nat := 0.
Definition END_IDX (n : nat) : nat := n + 1.

(** The DP arrays [dp] and [parent]. *)
Abbreviation table := (list pyfloat * list Z)%type.

(** Body of the inner loop [for j in range(i)]. *)
Definition relax (on_route_stations : list on_route) (n i : nat)
    (current_chainage : Q) (tbl : table) (j : nat) : res table :=
  let '(dp, parent) := tbl in
  prev_chainage ←
    (if decide (j = START_IDX) then Ok 0
     else st ← getitem on_route_stations (j - 1); Ok (snd st));
  let distance_between := float_sub current_chainage prev_chainage in
  if Qltb VEHICLE_RANGE_MILES distance_between then Ok tbl
  else
    refuel_cost ←
      (if decide (i = END_IDX n) then Ok 0
       else st ← getitem on_route_stations (i - 1);
            let gallons := float_div VEHICLE_RANGE_MILES FUEL_EFFICIENCY_MPG in
            Ok (float_mul gallons (FuelStation.retail_price (fst st))));
    dp_j ← getitem dp j;
    let candidate_cost := fadd dp_j (Fin refuel_cost) in
    dp_i ← getitem dp i;
    if fltb candidate_cost dp_i then
      dp' ← setitem dp i candidate_cost;
      parent' ← setitem parent i (Z.of_nat j);
      Ok (dp', parent')
    else Ok tbl.

(** Body of the outer loop [for i in range(1, n + 2)]. *)
Definition dp_row (route_distance : Q) (on_route_stations : list on_route)
    (n : nat) (tbl : table) (i : nat) : res table :=
  current_chainage ←
    (if decide (i = END_IDX n) then Ok route_distance
     else st ← getitem on_route_stations (i - 1); Ok (snd st));
  for_each (relax on_route_stations n i current_chainage) tbl (seq 0 i).

(** The table after the loop "Build DP table". *)
Definition build_table (route_distance : Q) (on_route_stations : list on_route)
    : res table :=
  let n := length on_route_stations in
  let dp := replicate (n + 2) Inf in
  let parent := replicate (n + 2) (-1)%Z in
  dp ← setitem dp START_IDX (Fin 0);
  for_each (dp_row route_distance on_route_stations n) (dp, parent) (seq 1 (n + 1)).

(** The loop [while parent[current] != -1]; [fuel] bounds its iterations. *)
Fixpoint backtrack (fuel : nat) (parent : list Z) (n : nat) (current : Z)
    (path_indices : list Z) : res (list Z) :=
  match fuel with
  | O => Raise LoopBound
  | S fuel' =>
      prev ← getitem_z parent current;
      if decide (prev = (-1)%Z) then Ok path_indices
      else
        let path_indices :=
          if decide (prev ≠ Z.of_nat START_IDX ∧ prev ≠ Z.of_nat (END_IDX n))
          then path_indices ++ [(prev - 1)%Z] else path_indices in
        backtrack fuel' parent n prev path_indices
  end.

(** The record built for a chosen station, in both planners. *)
Definition make_stop (station : FuelStation.t) (chainage : Q) : OptimizedFuelStop.t :=
  let gallons_refueled := float_div VEHICLE_RANGE_MILES FUEL_EFFICIENCY_MPG in
  let cost := float_mul gallons_refueled (FuelStation.retail_price station) in
  {| OptimizedFuelStop.name := FuelStation.truckstop_name station;
     OptimizedFuelStop.address := FuelStation.address station;
     OptimizedFuelStop.city := FuelStation.city station;
     OptimizedFuelStop.state := FuelStation.state station;
     OptimizedFuelStop.latitude := FuelStation.latitude station;
     OptimizedFuelStop.longitude := FuelStation.longitude station;
     OptimizedFuelStop.price_per_gallon := round (FuelStation.retail_price station) 3;
     OptimizedFuelStop.gallons_needed := round gallons_refueled 2;
     OptimizedFuelStop.cost := round cost 2;
     OptimizedFuelStop.miles_from_start := round chainage 2 |}.

(** [_greedy_fallback]: the state of the loop is
    [(stops, current_range, prev_chainage)].  [current_range - 50] is
    arithmetic on integers.  The difference [chainage - prev_chainage] is
    taken on the values: on floats the comparison with 450 comes out as
    it does for the float difference of [float_greedy_step] below
    ([greedy_fallback_on_floats]). *)
Definition greedy_step (st : list OptimizedFuelStop.t * Q * Q) (sc : on_route)
    : list OptimizedFuelStop.t * Q * Q :=
  let '(stops, current_range, prev_chainage) := st in
  let '(station, chainage) := sc in
  let distance_from_prev := chainage - prev_chainage in
  if Qle_bool (current_range - 50) distance_from_prev then
    (stops ++ [make_stop station chainage], VEHICLE_RANGE_MILES, chainage)
  else st.

Definition _greedy_fallback (route_distance : Q) (on_route_stations : list on_route)
    : list OptimizedFuelStop.t :=
  fst (fst (foldl greedy_step ([], VEHICLE_RANGE_MILES, 0) on_route_stations)).

(** The step of the loop with the float subtraction. *)
Definition float_greedy_step (st : list OptimizedFuelStop.t * Q * Q) (sc : on_route)
    : list OptimizedFuelStop.t * Q * Q :=
  let '(stops, current_range, prev_chainage) := st in
  let '(station, chainage) := sc in
  let distance_from_prev := float_sub chainage prev_chainage in
  if Qle_bool (current_range - 50) distance_from_prev then
    (stops ++ [make_stop station chainage], VEHICLE_RANGE_MILES, chainage)
  else st.

(** The indices [path_indices] after [path_indices.reverse()], when the
    destination is reachable; [None] when [dp[END_IDX] == float('inf')]. *)
Definition dp_path_indices (route_distance : Q) (on_route_stations : list on_route)
    : res (option (list Z)) :=
  let n := length on_route_stations in
  '(dp, parent) ← build_table route_distance on_route_stations;
  dp_end ← getitem dp (END_IDX n);
  if is_inf dp_end then Ok None
  else
    path_indices ← backtrack (n + 2) parent n (Z.of_nat (END_IDX n)) [];
    Ok (Some (rev path_indices)).

(** The loop "Build OptimizedFuelStop objects".  (The source also keeps
    [prev_chainage] and computes [gallons_to_here]; neither is used.) *)
Definition build_stops (on_route_stations : list on_route) (path_indices : list Z)
    : res (list OptimizedFuelStop.t) :=
  for_each (fun optimal_stops idx =>
              st ← getitem_z on_route_stations idx;
              Ok (optimal_stops ++ [make_stop (fst st) (snd st)]))
           [] path_indices.

Definition _find_optimal_stops_dp (route_distance : Q) (on_route_stations : list on_route)
    : res (list OptimizedFuelStop.t) :=
  match on_route_stations with
  | [] => Ok []
  | _ =>
      path ← dp_path_indices route_distance on_route_stations;
      match path with
      | None => Ok (_greedy_fallback route_distance on_route_stations)
      | Some path_indices => build_stops on_route_stations path_indices
      end
  end.

(** [sum(stop.cost for stop in optimal_stops)], on the decimals the costs
    denote. *)
Definition sum_costs (stops : list OptimizedFuelStop.t) : Q :=
  foldl Qplus 0 (map OptimizedFuelStop.cost stops).

(** ** The public entry point

    The collaborators of [optimize_route] are parameters: the routing
    service ([get_route_from_addresses], which returns a route, returns
    [None], or raises), the catalogue query
    [FuelStation.objects.filter(geocoded=True).order_by('retail_price')]
    and the corridor filter [find_stations_along_route] of the geometry
    module. *)

Section OptimizeRoute.

Context {Geometry : Type}.
Variable get_route_from_addresses :
  string -> string -> res (option (RouteResult.t Geometry)).
Variable geocoded_stations : list FuelStation.t.
Variable find_stations_along_route :
  list (Q * Q) -> list FuelStation.t -> Q -> list on_route.

Definition route_dict (route : RouteResult.t Geometry)
    : OptimizedRouteResult.route_summary Geometry :=
  {| OptimizedRouteResult.route_distance_miles := RouteResult.distance_miles route;
     OptimizedRouteResult.route_duration_hours := RouteResult.duration_hours route;
     OptimizedRouteResult.route_geometry := RouteResult.geometry route |}.

Definition location_dict (addr : string) (coords : Q * Q)
    : OptimizedRouteResult.location :=
  {| OptimizedRouteResult.loc_address := addr;
     OptimizedRouteResult.loc_latitude := fst coords;
     OptimizedRouteResult.loc_longitude := snd coords |}.

Definition _create_empty_result (route : RouteResult.t Geometry)
    (start_address end_address method : string) (stations_considered : nat)
    : OptimizedRouteResult.t Geometry :=
  let total_gallons := float_div (RouteResult.distance_miles route) FUEL_EFFICIENCY_MPG in
  {| OptimizedRouteResult.route := route_dict route;
     OptimizedRouteResult.fuel_stops := [];
     OptimizedRouteResult.total_fuel_cost := 0;
     OptimizedRouteResult.total_gallons := round total_gallons 2;
     OptimizedRouteResult.start_location :=
       location_dict start_address (RouteResult.start_coords route);
     OptimizedRouteResult.end_location :=
       location_dict end_address (RouteResult.end_coords route);
     OptimizedRouteResult.optimization_method := method;
     OptimizedRouteResult.stations_considered := stations_considered |}.

Definition optimize_route (start_address end_address : string)
    : res (OptimizedRouteResult.t Geometry) :=
  route ← get_route_from_addresses start_address end_address;
  match route with
  | None => Raise (ValueError "Could not calculate route")
  | Some route =>
      let stations := geocoded_stations in
      let on_route_stations :=
        find_stations_along_route (RouteResult.coordinates route) stations
                                  MAX_ROUTE_DISTANCE_MILES in
      match on_route_stations with
      | [] => Ok (_create_empty_result route start_address end_address
                                       "no_stations" 0)
      | _ =>
          optimal_stops ←
            _find_optimal_stops_dp (RouteResult.distance_miles route) on_route_stations;
          let total_gallons :=
            float_div (RouteResult.distance_miles route) FUEL_EFFICIENCY_MPG in
          let total_cost := sum_costs optimal_stops in
          Ok {| OptimizedRouteResult.route := route_dict route;
                OptimizedRouteResult.fuel_stops := optimal_stops;
                OptimizedRouteResult.total_fuel_cost := round total_cost 2;
                OptimizedRouteResult.total_gallons := round total_gallons 2;
                OptimizedRouteResult.start_location :=
                  location_dict start_address (RouteResult.start_coords route);
                OptimizedRouteResult.end_location :=
                  location_dict end_address (RouteResult.end_coords route);
                OptimizedRouteResult.optimization_method := "dynamic_programming";
                OptimizedRouteResult.stations_considered := length on_route_stations |}
      end
  end.

End OptimizeRoute.


Definition prices_positive (stations : list on_route) : Prop :=
  Forall (fun st => 0 < FuelStation.retail_price (fst st)) stations.

Definition prices_nonneg (stations : list on_route) : Prop :=
  Forall (fun st => 0 <= FuelStation.retail_price (fst st)) stations.

(** [links P prev l last]: [P] relates every two neighbours of the
    sequence [prev, l..., last]. *)
Fixpoint links {A} (P : A -> A -> Prop) (prev : A) (l : list A) (last : A) : Prop :=
  match l with
  | [] => P prev last
  | x :: rest => P prev x /\ links P x rest last
  end.

(** ** The weighted DAG of the planner

    Nodes are [0] (start), [1..n] (the stations, in input order) and
    [n + 1] (the destination). *)

Section Graph.

Variable route_distance : Q.
Variable on_route_stations : list on_route.

Let n : nat := length on_route_stations.

(** Price of a full tank at the station of index [idx]. *)
Definition refuel_cost_at (idx : nat) : Q :=
  match on_route_stations !! idx with
  | Some st =>
      float_mul (float_div VEHICLE_RANGE_MILES FUEL_EFFICIENCY_MPG)
                (FuelStation.retail_price (fst st))
  | None => 0
  end.

Definition chainage_at (idx : nat) : Q :=
  match on_route_stations !! idx with
  | Some st => snd st
  | None => 0
  end.

Definition node_pos (k : nat) : Q :=
  if decide (k = START_IDX) then 0
  else if decide (k = END_IDX n) then route_distance
  else chainage_at (k - 1).

Definition node_cost (k : nat) : Q :=
  if decide (k = END_IDX n) then 0 else refuel_cost_at (k - 1).

(** [j -> i] is an edge when the leg, as the code measures it, fits in
    one tank. *)
Definition edge (j i : nat) : Prop :=
  float_sub (node_pos i) (node_pos j) <= VEHICLE_RANGE_MILES.

(** What the inner loop has established for node [k] once it has tried
    the predecessors [j < m]. *)
Definition node_ok (dp : list pyfloat) (parent : list Z) (m k : nat) : Prop :=
  match dp !! k with
  | Some Inf =>
      parent !! k = Some (-1)%Z /\
      forall j, (j < m)%nat -> edge j k -> dp !! j = Some Inf
  | Some (Fin c) =>
      exists p cp,
        parent !! k = Some (Z.of_nat p) /\ (p < m)%nat /\ edge p k /\
        dp !! p = Some (Fin cp) /\ c == float_add cp (node_cost k) /\
        (forall j cj, (j < m)%nat -> edge j k -> dp !! j = Some (Fin cj) ->
                      c <= float_add cj (node_cost k)) /\
        (forall j cj, (j < p)%nat -> edge j k -> dp !! j = Some (Fin cj) ->
                      c < float_add cj (node_cost k))
  | None => False
  end.

(** The table before row [i] is processed. *)
Record table_inv (i : nat) (dp : list pyfloat) (parent : list Z) : Prop := {
  inv_len_dp : length dp = (n + 2)%nat;
  inv_len_parent : length parent = (n + 2)%nat;
  inv_start_dp : dp !! 0%nat = Some (Fin 0);
  inv_start_parent : parent !! 0%nat = Some (-1)%Z;
  inv_todo : forall k, (i <= k < n + 2)%nat ->
               dp !! k = Some Inf /\ parent !! k = Some (-1)%Z;
  inv_done : forall k, (1 <= k < i)%nat -> node_ok dp parent k k
}.

(** ** Following the parent pointers *)

(** [trail dp parent k c path]: [dp[k] = c] is finite and [path] lists
    the station nodes met when following [parent] from [k] back to the
    start, nearest first. *)
Inductive trail (dp : list pyfloat) (parent : list Z) : nat -> Q -> list nat -> Prop :=
  | trail_first k c :
      (1 <= k <= n + 1)%nat ->
      dp !! k = Some (Fin c) -> parent !! k = Some 0%Z ->
      edge 0 k -> c == float_add 0 (node_cost k) ->
      trail dp parent k c []
  | trail_cons k c p cp path :
      (k <= n + 1)%nat ->
      dp !! k = Some (Fin c) -> parent !! k = Some (Z.of_nat p) ->
      (1 <= p < k)%nat -> edge p k -> c == float_add cp (node_cost k) ->
      (forall j cj, (j < k)%nat -> edge j k -> dp !! j = Some (Fin cj) ->
                    c <= float_add cj (node_cost k)) ->
      (forall j cj, (j < p)%nat -> edge j k -> dp !! j = Some (Fin cj) ->
                    c < float_add cj (node_cost k)) ->
      trail dp parent p cp path ->
      trail dp parent k c (p :: path).

Definition station_index (p : nat) : Z := (Z.of_nat p - 1)%Z.

(** The refuel costs along a list of nodes, added to [acc] one after the
    other the way the DP adds them. *)
Definition path_cost_from (acc : Q) (nodes : list nat) : Q :=
  foldl (fun acc p => float_add acc (node_cost p)) acc nodes.

Definition path_cost (nodes : list nat) : Q := path_cost_from 0 nodes.

(** The relation between neighbours on the path the backtrack finds. *)
Definition dp_link (j i : nat) : Prop :=
  (j < i)%nat /\ edge j i /\
  (prices_nonneg on_route_stations -> (1 <= j)%nat -> node_pos j < node_pos i).

(** No node of the path can be left out: [a -> c] is not an edge. *)
Definition no_shortcut (a c : nat) : Prop := ~ edge a c.

(** A route through the DAG: node numbers increase and every leg is an edge. *)
Definition dag_path (nodes : list nat) (last : nat) : Prop :=
  links (fun j i => (j < i)%nat /\ edge j i) 0%nat nodes last.

End Graph.

Arguments inv_len_dp {route_distance on_route_stations i dp parent}.
Arguments inv_len_parent {route_distance on_route_stations i dp parent}.
Arguments inv_start_dp {route_distance on_route_stations i dp parent}.
Arguments inv_start_parent {route_distance on_route_stations i dp parent}.
Arguments inv_todo {route_distance on_route_stations i dp parent}.
Arguments inv_done {route_distance on_route_stations i dp parent}.

(** ** Plans as lists of chosen stations *)

(** [skips P prev l last]: [P] relates every element of the sequence
    [prev, l..., last] to the one two places further on. *)
Fixpoint skips {A} (P : A -> A -> Prop) (prev : A) (l : list A) (last : A) : Prop :=
  match l with
  | [] => True
  | x :: rest => P prev (hd last rest) /\ skips P x rest last
  end.

(** Every leg of [prev -> chainages... -> last] fits in one tank. *)
Definition gaps_ok (prev : Q) (chainages : list Q) (last : Q) : Prop :=
  links (fun a b => b - a <= VEHICLE_RANGE_MILES) prev chainages last.

(** Half the spacing of the doubles between 256 and 512: a difference
    that rounds to 500.0 may exceed 500 by this much. *)
Definition range_slack : Q := 2 ^ (-45).

(** Every leg fits in one tank as the DP measures it: the difference of
    the two chainages, rounded to a double, is at most the range. *)
Definition float_gaps_ok (prev : Q) (chainages : list Q) (last : Q) : Prop :=
  links (fun a b => float_sub b a <= VEHICLE_RANGE_MILES) prev chainages last.

(** Leaving out any one stop gives a leg the DP measures as too long. *)
Definition no_stop_to_spare (prev : Q) (chainages : list Q) (last : Q) : Prop :=
  skips (fun a c => VEHICLE_RANGE_MILES < float_sub c a) prev chainages last.

(** A stop sequence respects the range on a route of length
    [route_distance]: the legs from position 0, between the chosen
    chainages, and to the destination. *)
Definition feasible (route_distance : Q) (stops : list on_route) : Prop :=
  gaps_ok 0 (map snd stops) route_distance.

(** The same on the legs the DP measures. *)
Definition float_feasible (route_distance : Q) (stops : list on_route) : Prop :=
  float_gaps_ok 0 (map snd stops) route_distance.




(** The total as the DP adds it up: the float cost of each stop, added in
    route order. *)
Definition float_plan_cost (stops : list on_route) : Q :=
  foldl (fun acc st =>
           float_add acc
             (float_mul (float_div VEHICLE_RANGE_MILES FUEL_EFFICIENCY_MPG)
                        (FuelStation.retail_price (fst st)))) 0 stops.

Definition ascending_chainage (stations : list on_route) : Prop :=
  StronglySorted Qle (map snd stations).

Definition strictly_ascending_chainage (stations : list on_route) : Prop :=
  StronglySorted Qlt (map snd stations).


Definition stop_of (st : on_route) : OptimizedFuelStop.t :=
  make_stop (fst st) (snd st).

(** [chosen] are the stations at the nodes [nodes] (node [p] is station [p - 1]). *)
Definition stations_of_nodes (on_route_stations : list on_route)
    (nodes : list nat) (chosen : list on_route) : Prop :=
  Forall2 (fun p st => on_route_stations !! (p - 1)%nat = Some st) nodes chosen.

(** Every chainage is at least [gap] past the one before ([prev] before
    the first). *)
Fixpoint spaced (gap prev : Q) (chainages : list Q) : Prop :=
  match chainages with
  | [] => True
  | c :: rest => gap <= c - prev /\ spaced gap c rest
  end.

Definition res_map {A B} (f : A -> B) (m : res A) : res B :=
  match m with
  | Ok a => Ok (f a)
  | Raise e => Raise e
  end.

(** The stations [_greedy_fallback] stops at. *)
Definition greedy_select_step (st : list on_route * Q * Q) (sc : on_route)
    : list on_route * Q * Q :=
  let '(chosen, current_range, prev_chainage) := st in
  if Qle_bool (current_range - 50) (snd sc - prev_chainage) then
    (chosen ++ [sc], VEHICLE_RANGE_MILES, snd sc)
  else st.

Definition greedy_selected (on_route_stations : list on_route) : list on_route :=
  fst (fst (foldl greedy_select_step ([], VEHICLE_RANGE_MILES, 0) on_route_stations)).

(** The stations behind the stops of [_find_optimal_stops_dp]: those at
    [path_indices] on the DP path, those of the greedy pass otherwise. *)
Definition stations_at (on_route_stations : list on_route) (path_indices : list Z)
    : res (list on_route) :=
  for_each (fun chosen idx =>
              st ← getitem_z on_route_stations idx; Ok (chosen ++ [st]))
           [] path_indices.

Definition selected_stations (route_distance : Q) (on_route_stations : list on_route)
    : res (list on_route) :=
  match on_route_stations with
  | [] => Ok []
  | _ =>
      path ← dp_path_indices route_distance on_route_stations;
      match path with
      | None => Ok (greedy_selected on_route_stations)
      | Some path_indices => stations_at on_route_stations path_indices
      end
  end.

(** ** Concrete scenarios *)

Definition example_station (name : string) (price : Q) : FuelStation.t :=
  {| FuelStation.truckstop_name := name;
     FuelStation.address := "I-80 Exit 1";
     FuelStation.city := "Des Moines";
     FuelStation.state := "IA";
     FuelStation.retail_price := price;
     FuelStation.latitude := Some 41.6;
     FuelStation.longitude := Some (-93.6) |}.

Definition example_route (distance : Q) : RouteResult.t unit :=
  {| RouteResult.distance_miles := distance;
     RouteResult.duration_hours := distance / 60;
     RouteResult.geometry := tt;
     RouteResult.coordinates := [(-93.6, 41.6); (-87.6, 41.9)];
     RouteResult.start_coords := (41.6, -93.6);
     RouteResult.end_coords := (41.9, -87.6) |}.

(** Collaborators that answer with a fixed route and a fixed corridor. *)
Definition fixed_route (distance : Q) (start_address end_address : string)
    : res (option (RouteResult.t unit)) :=
  Ok (Some (example_route distance)).

Definition fixed_corridor (stations : list on_route)
    (coordinates : list (Q * Q)) (catalogue : list FuelStation.t) (max_distance_miles : Q)
    : list on_route :=
  stations.

(** 1200 miles, stations at 100 (3.00), 450 (2.80) and 900 (2.90). *)
Definition three_stations : list on_route :=
  [(example_station "A" 3, 100); (example_station "B" 2.8, 450);
   (example_station "C" 2.9, 900)].

(** Two stations 1/256 mile apart, at 500 - 1/512 and 500 + 1/512 miles,
    both needed on a route of 1000 miles. *)
Definition close_stations : list on_route :=
  [(example_station "A" 1, 499.998046875); (example_station "B" 1, 500.001953125)].


(** Two stations at the floats 0.045 and 500.045 on a route of 1000
    miles. *)
Definition far_stations : list on_route :=
  [(example_station "A" 3, b64 0.045); (example_station "B" 3, b64 500.045)].

(** * The routing service, the entry point and the API view

    [services/routing.py], [optimize_fuel_route_v2], [serializers.py] and
    [views.py].  The libraries behind them are parameters: the rate-limited
    Nominatim geocoder, the HTTP request to OSRM (with the decoded JSON it
    returns), and the [CharField] of the REST framework.  A library call
    returns or throws; the calls made are recorded in order. *)

#[global] Instance string_eq_dec : EqDecision string := String.string_dec.

Module Routing.

(** Outcome of a call into a library. *)
Inductive call (A : Type) : Type :=
  | Returns (a : A)
  | Throws.
Arguments Returns {A} a.
Arguments Throws {A}.

(** A geopy [Location]. *)
Record location : Type := mk_location {
  latitude : Q;
  longitude : Q
}.

(** A decoded JSON value, as [response.json()] returns it.  A number is
    an [int] or a [float] and is held with its value, which is finite
    (the decoder also accepts the literals NaN and Infinity; they are
    outside the model); an object holds the items of the dict, a key
    being looked up from the front. *)
Unset Elimination Schemes.
Inductive json : Type :=
  | JNull
  | JBool (b : bool)
  | JNumber (q : Q)
  | JString (s : string)
  | JArray (items : list json)
  | JObject (fields : list (string * json)).
Set Elimination Schemes.

(** The GeoJSON geometry of an OSRM route, kept as decoded. *)
Definition geojson : Type := json.

(** [requests.get(...)], [raise_for_status()] and [response.json()]. *)
Inductive http_outcome : Type :=
  | RequestException
  | Json (data : json).

(** The calls that leave the process. *)
Inductive api_call : Type :=
  | GeocodeCall (query : string)
  | OsrmCall (start_lat start_lon end_lat end_lon : Q).

Definition field (key : string) (fields : list (string * json)) : option json :=
  match find (fun kv => String.eqb (fst kv) key) fields with
  | Some kv => Some (snd kv)
  | None => None
  end.

(** [d.get(key)]: a dict has the method, no other JSON value has. *)
Definition get (d : json) (key : string) : res (option json) :=
  match d with
  | JObject fields => Ok (field key fields)
  | _ => Raise AttributeError
  end.

(** [d[key]] for a string [key]: a list and a string take integers, the
    other values take no subscript. *)
Definition item (d : json) (key : string) : res json :=
  match d with
  | JObject fields =>
      match field key fields with
      | Some v => Ok v
      | None => Raise (KeyError key)
      end
  | _ => Raise TypeError
  end.

(** [l[0]]: the first element of a list, the first character of a
    string; the keys of a decoded object are strings, so 0 is none of
    them. *)
Definition first (l : json) : res json :=
  match l with
  | JArray (x :: _) => Ok x
  | JArray [] => Raise IndexError
  | JString (String c _) => Ok (JString (String c EmptyString))
  | JString EmptyString => Raise IndexError
  | JObject _ => Raise (KeyError "0")
  | _ => Raise TypeError
  end.

(** The value of the left operand of [/]: [bool] is a subclass of [int]. *)
Definition number (v : json) : res Q :=
  match v with
  | JNumber q => Ok q
  | JBool b => Ok (if b then 1 else 0)
  | _ => Raise TypeError
  end.

(** [code != "Ok"] on the result of [data.get("code")]. *)
Definition is_Ok (code : option json) : bool :=
  match code with
  | Some (JString s) => String.eqb s "Ok"
  | _ => false
  end.

(** The [lon, lat] pairs of the coordinates of a geometry.  They are read
    by [find_stations_along_route] of [geometry.py], which is not part of
    the sources; what it does with a value of another shape is not
    modelled. *)
Definition coordinate_pair (p : json) : option (Q * Q) :=
  match p with
  | JArray [JNumber lon; JNumber lat] => Some (lon, lat)
  | _ => None
  end.

Definition coordinate_pairs (coordinates : json) : list (Q * Q) :=
  match coordinates with
  | JArray items => omap coordinate_pair items
  | _ => []
  end.

Section Service.

Variable _rate_limited_geocode : string -> call (option location).
Variable requests_get : Q -> Q -> Q -> Q -> http_outcome.

Definition geocode_address (address : string) : list api_call * option (Q * Q) :=
  let query := String.append address ", USA" in
  ([GeocodeCall query],
   match _rate_limited_geocode query with
   | Returns (Some location) => Some (latitude location, longitude location)
   | Returns None => None
   | Throws => None
   end).

(** The coordinates [geocode_address] returns. *)
Definition geocoded (address : string) : option (Q * Q) :=
  snd (geocode_address address).

(** The statements of [get_route] after [data = response.json()].
    [route["distance"]] is divided by the float 1609.344, so it is
    converted to a float first; [route["duration"] / 3600] is the
    quotient of the two values rounded to a float, for an [int] and for a
    [float] alike. *)
Definition parse_route (data : json) (start_lat start_lon end_lat end_lon : Q)
    : res (option (RouteResult.t geojson)) :=
  code ← get data "code";
  if negb (is_Ok code) then Ok None
  else
    routes ← item data "routes";
    route ← first routes;
    distance ← item route "distance";
    meters ← number distance;
    let distance_miles := float_div (b64 meters) (b64 1609.344) in
    duration ← item route "duration";
    seconds ← number duration;
    let duration_hours := float_div seconds 3600 in
    geometry ← item route "geometry";
    coordinates ← get geometry "coordinates";
    let coordinates := default (JArray []) coordinates in
    Ok (Some {| RouteResult.distance_miles := round distance_miles 2;
                RouteResult.duration_hours := round duration_hours 2;
                RouteResult.geometry := geometry;
                RouteResult.coordinates := coordinate_pairs coordinates;
                RouteResult.start_coords := (start_lat, start_lon);
                RouteResult.end_coords := (end_lat, end_lon) |}).

(** [get_route] catches [requests.RequestException], [KeyError] and
    [IndexError]; any other exception of the [try] block leaves it. *)
Definition get_route (start_lat start_lon end_lat end_lon : Q)
    : list api_call * res (option (RouteResult.t geojson)) :=
  ([OsrmCall start_lat start_lon end_lat end_lon],
   match requests_get start_lat start_lon end_lat end_lon with
   | RequestException => Ok None
   | Json data =>
       match parse_route data start_lat start_lon end_lat end_lon with
       | Ok result => Ok result
       | Raise (KeyError _) => Ok None
       | Raise IndexError => Ok None
       | Raise e => Raise e
       end
   end).

Definition get_route_from_addresses (start_address end_address : string)
    : list api_call * res (option (RouteResult.t geojson)) :=
  let '(calls1, start_coords) := geocode_address start_address in
  match start_coords with
  | None =>
      (calls1,
       Raise (ValueError (String.append "Could not geocode start location: " start_address)))
  | Some start_coords =>
      let '(calls2, end_coords) := geocode_address end_address in
      match end_coords with
      | None =>
          (calls1 ++ calls2,
           Raise (ValueError (String.append "Could not geocode end location: " end_address)))
      | Some end_coords =>
          let '(calls3, route) :=
            get_route (fst start_coords) (snd start_coords)
                      (fst end_coords) (snd end_coords) in
          (calls1 ++ calls2 ++ calls3, route)
      end
  end.

End Service.

End Routing.

(** [optimize_fuel_route_v2]: the optimizer on the routing service.  The
    dict it returns has the eight fields of the result record, the stops
    as dicts of their own fields. *)
Definition optimize_fuel_route_v2
    (_rate_limited_geocode : string -> Routing.call (option Routing.location))
    (requests_get : Q -> Q -> Q -> Q -> Routing.http_outcome)
    (geocoded_stations : list FuelStation.t)
    (find_stations_along_route : list (Q * Q) -> list FuelStation.t -> Q -> list on_route)
    (start end_ : string) : res (OptimizedRouteResult.t Routing.geojson) :=
  optimize_route
    (fun start_address end_address =>
       snd (Routing.get_route_from_addresses _rate_limited_geocode requests_get
              start_address end_address))
    geocoded_stations find_stations_along_route start end_.

(** The calls [optimize_fuel_route_v2] makes. *)
Definition api_calls
    (_rate_limited_geocode : string -> Routing.call (option Routing.location))
    (requests_get : Q -> Q -> Q -> Q -> Routing.http_outcome)
    (start end_ : string) : list Routing.api_call :=
  fst (Routing.get_route_from_addresses _rate_limited_geocode requests_get start end_).

(** ** Strings *)

(** [str.isspace] on a character with code point below 256. *)
Definition isspace (c : ascii) : bool :=
  let n := nat_of_ascii c in
  ((9 <=? n)%nat && (n <=? 13)%nat) || ((28 <=? n)%nat && (n <=? 32)%nat)
  || (n =? 133)%nat || (n =? 160)%nat.

Fixpoint lstrip_chars (l : list ascii) : list ascii :=
  match l with
  | [] => []
  | c :: rest => if isspace c then lstrip_chars rest else l
  end.

Definition strip_chars (l : list ascii) : list ascii :=
  rev (lstrip_chars (rev (lstrip_chars l))).

(** [s.strip()] *)
Definition strip (s : string) : string :=
  string_of_list_ascii (strip_chars (list_ascii_of_string s)).

(** The first character, if any, is not whitespace. *)
Definition starts_clean (l : list ascii) : Prop :=
  match l with
  | [] => True
  | c :: _ => isspace c = false
  end.

Module Serializers.

(** What a field of the REST framework reports. *)
Inductive field_error : Type :=
  | FieldError (code : string)
  | ValidationError (msg : string).

Definition validate_start (value : string) : field_error + string :=
  let value := strip value in
  if bool_decide (value = EmptyString) then inl (ValidationError "Start location is required")
  else inr value.

Definition validate_end (value : string) : field_error + string :=
  let value := strip value in
  if bool_decide (value = EmptyString) then inl (ValidationError "End location is required")
  else inr value.

(** The request body: the keys "start" and "end" may be missing. *)
Record request_data : Type := mk_request {
  start : option string;
  end_ : option string
}.

Record errors : Type := mk_errors {
  start_error : option field_error;
  end_error : option field_error
}.

Section RouteRequestSerializer.

(** [serializers.CharField(max_length=200)] run on the raw value. *)
Variable CharField : option string -> field_error + string.

Definition run_field (validate : string -> field_error + string) (raw : option string)
    : field_error + string :=
  match CharField raw with
  | inl e => inl e
  | inr value => validate value
  end.

(** [is_valid()] with [errors] or [validated_data]. *)
Definition is_valid (data : request_data) : errors + (string * string) :=
  match run_field validate_start (start data), run_field validate_end (end_ data) with
  | inr s, inr e => inr (s, e)
  | rs, re =>
      inl {| start_error := match rs with inl e => Some e | inr _ => None end;
             end_error := match re with inl e => Some e | inr _ => None end |}
  end.

End RouteRequestSerializer.

End Serializers.

Module Views.

Inductive body : Type :=
  | ValidationFailed (details : Serializers.errors)
  | Plan (result : OptimizedRouteResult.t Routing.geojson)
         (processing_time_seconds : Q) (api_version : string)
  | Error (error : string)
  | Unexpected (details : exn).

Record Response : Type := mk_response {
  data : body;
  status : nat
}.

Definition HTTP_200_OK : nat := 200.
Definition HTTP_400_BAD_REQUEST : nat := 400.
Definition HTTP_500_INTERNAL_SERVER_ERROR : nat := 500.

Section RouteView.

Variable CharField : option string -> Serializers.field_error + string.
Variable _rate_limited_geocode : string -> Routing.call (option Routing.location).
Variable requests_get : Q -> Q -> Q -> Q -> Routing.http_outcome.
Variable geocoded_stations : list FuelStation.t.
Variable find_stations_along_route :
  list (Q * Q) -> list FuelStation.t -> Q -> list on_route.
(** [time.time() - start_time] when the optimizer has returned. *)
Variable elapsed : Q.

Definition post (request : Serializers.request_data) : Response :=
  match Serializers.is_valid CharField request with
  | inl errors =>
      {| data := ValidationFailed errors; status := HTTP_400_BAD_REQUEST |}
  | inr (start, end_) =>
      match optimize_fuel_route_v2 _rate_limited_geocode requests_get geocoded_stations
                                   find_stations_along_route start end_ with
      | Ok result =>
          {| data := Plan result (round elapsed 2) "v2"; status := HTTP_200_OK |}
      | Raise (ValueError msg) =>
          {| data := Error msg; status := HTTP_400_BAD_REQUEST |}
      | Raise e =>
          {| data := Unexpected e; status := HTTP_500_INTERNAL_SERVER_ERROR |}
      end
  end.

End RouteView.

End Views.

(** ** Sampling points along a route

    [OSRMRoutingService.sample_points_along_route]; the great-circle
    distance [_haversine_miles] (trigonometry on floats) is a parameter.
    The two running distances are floats: [+=] rounds each sum. *)

Module RoutePoint.
Record t : Type := mk {
  latitude : Q;
  longitude : Q;
  distance_from_start_miles : Q
}.
End RoutePoint.

Section Sampling.

Variable _haversine_miles : Q -> Q -> Q -> Q -> Q.

(** The loop [while cumulative_distance >= next_sample_distance] on the
    state [(points, next_sample_distance)]; [fuel] bounds its iterations. *)
Fixpoint sample_while (fuel : nat) (cumulative_distance lat2 lon2 interval_miles : Q)
    (st : list RoutePoint.t * Q) : res (list RoutePoint.t * Q) :=
  let '(points, next_sample_distance) := st in
  if Qle_bool next_sample_distance cumulative_distance then
    match fuel with
    | O => Raise LoopBound
    | S fuel' =>
        sample_while fuel' cumulative_distance lat2 lon2 interval_miles
          (points ++ [RoutePoint.mk lat2 lon2 next_sample_distance],
           float_add next_sample_distance interval_miles)
    end
  else Ok st.

(** Body of [for i in range(len(coords) - 1)] on the state
    [(points, cumulative_distance, next_sample_distance)]. *)
Definition sample_segment (fuel : nat) (coords : list (Q * Q)) (interval_miles : Q)
    (st : list RoutePoint.t * Q * Q) (i : nat) : res (list RoutePoint.t * Q * Q) :=
  let '(points, cumulative_distance, next_sample_distance) := st in
  p1 ← getitem coords i;
  let '(lon1, lat1) := p1 in
  p2 ← getitem coords (i + 1);
  let '(lon2, lat2) := p2 in
  let segment_distance := _haversine_miles lat1 lon1 lat2 lon2 in
  let cumulative_distance := float_add cumulative_distance segment_distance in
  st' ← sample_while fuel cumulative_distance lat2 lon2 interval_miles
         (points, next_sample_distance);
  Ok (fst st', cumulative_distance, snd st').

Definition sample_points_along_route {Geometry : Type} (fuel : nat)
    (route : RouteResult.t Geometry) (interval_miles : Q) : res (list RoutePoint.t) :=
  match RouteResult.coordinates route with
  | [] => Ok []
  | coords =>
      st ← for_each (sample_segment fuel coords interval_miles)
                    ([], 0, interval_miles) (seq 0 (length coords - 1));
      Ok (fst (fst st))
  end.

(** [cumulative_distance] once the segments of [coords] have been added
    to [acc], one after the other. *)
Fixpoint cumulative_miles (acc : Q) (coords : list (Q * Q)) : Q :=
  match coords with
  | (lon1, lat1) :: (((lon2, lat2) :: _) as rest) =>
      cumulative_miles (float_add acc (_haversine_miles lat1 lon1 lat2 lon2)) rest
  | _ => acc
  end.

(** The length of the polyline as the loop adds it up. *)
Definition polyline_miles (coords : list (Q * Q)) : Q := cumulative_miles 0 coords.

(** No segment has a negative distance. *)
Definition distances_nonneg : Prop :=
  forall lat1 lon1 lat2 lon2, 0 <= _haversine_miles lat1 lon1 lat2 lon2.

(** [cumulative_distance] when the loop has reached vertex [j]. *)
Definition vertex_miles (coords : list (Q * Q)) (j : nat) : Q :=
  polyline_miles (take (S j) coords).

(** [next_sample_distance] when [k] points have been sampled: the
    interval, with the interval added [k] times. *)
Fixpoint sample_distance (interval_miles : Q) (k : nat) : Q :=
  match k with
  | O => interval_miles
  | S k' => float_add (sample_distance interval_miles k') interval_miles
  end.

(** Point [p] lies on the first vertex at or beyond its distance from the
    start, among the vertices [1 .. i]. *)
Definition snapped_forward (coords : list (Q * Q)) (i : nat) (p : RoutePoint.t) : Prop :=
  exists j, (j < i)%nat /\
    coords !! S j = Some (RoutePoint.longitude p, RoutePoint.latitude p) /\
    vertex_miles coords j < RoutePoint.distance_from_start_miles p /\
    RoutePoint.distance_from_start_miles p <= vertex_miles coords (S j).

(** The [k]-th point reports the [k]-th sample distance, on a vertex as
    above. *)
Definition sampled (coords : list (Q * Q)) (interval_miles : Q) (i : nat)
    (points : list RoutePoint.t) : Prop :=
  forall k p, points !! k = Some p ->
    RoutePoint.distance_from_start_miles p = sample_distance interval_miles k /\
    snapped_forward coords i p.

End Sampling.

(** ** The states along a route

    [OSRMRoutingService.get_states_along_route] and [_state_to_abbrev].
    The reverse geocoder is a parameter, and so are [str.upper] and
    [str.lower], which follow the Unicode case tables.  The reverse
    geocoding calls are recorded in order. *)

Module States.

(** The "address" dict of a reverse-geocoding answer; a key may be
    missing. *)
Record address : Type := mk_address {
  state : option string;
  iso3166_2_lvl4 : option string
}.

(** A geopy [Location]: [raw.get('address')] is [None] for a missing key
    and for an empty dict. *)
Record location : Type := mk_location {
  raw_address : option address
}.

Inductive reverse_call : Type :=
  | ReverseCall (lat lon : Q).

(** The dict [states] of [_state_to_abbrev]. *)
Definition states : list (string * string) :=
  [
   ("alabama", "AL"); ("alaska", "AK"); ("arizona", "AZ"); ("arkansas", "AR");
   ("california", "CA"); ("colorado", "CO"); ("connecticut", "CT"); ("delaware", "DE");
   ("florida", "FL"); ("georgia", "GA"); ("hawaii", "HI"); ("idaho", "ID");
   ("illinois", "IL"); ("indiana", "IN"); ("iowa", "IA"); ("kansas", "KS");
   ("kentucky", "KY"); ("louisiana", "LA"); ("maine", "ME"); ("maryland", "MD");
   ("massachusetts", "MA"); ("michigan", "MI"); ("minnesota", "MN"); ("mississippi", "MS");
   ("missouri", "MO"); ("montana", "MT"); ("nebraska", "NE"); ("nevada", "NV");
   ("new hampshire", "NH"); ("new jersey", "NJ"); ("new mexico", "NM"); ("new york", "NY");
   ("north carolina", "NC"); ("north dakota", "ND"); ("ohio", "OH"); ("oklahoma", "OK");
   ("oregon", "OR"); ("pennsylvania", "PA"); ("rhode island", "RI"); ("south carolina", "SC");
   ("south dakota", "SD"); ("tennessee", "TN"); ("texas", "TX"); ("utah", "UT");
   ("vermont", "VT"); ("virginia", "VA"); ("washington", "WA"); ("west virginia", "WV");
   ("wisconsin", "WI"); ("wyoming", "WY"); ("district of columbia", "DC")
  ]%string.

(** [d.get(key)] *)
Fixpoint dict_get (key : string) (d : list (string * string)) : option string :=
  match d with
  | [] => None
  | (k, v) :: d' => if bool_decide (key = k) then Some v else dict_get key d'
  end.

(** [x or y] on strings, [x] being [None] or a string. *)
Definition or_else (x : option string) (y : string) : string :=
  match x with
  | Some s => if bool_decide (s = EmptyString) then y else s
  | None => y
  end.

(** [range(0, stop, step)] for a positive [step]: the multiples of [step]
    below [stop]. *)
Definition range_step (stop step : nat) : list nat :=
  map (fun k => (k * step)%nat) (seq 0 ((stop + step - 1) / step)).

(** [s.add(x)] on a set kept as a list without repetitions. *)
Definition set_add (x : string) (s : list string) : list string :=
  if decide (x ∈ s) then s else x :: s.

Fixpoint insert_sorted (x : string) (l : list string) : list string :=
  match l with
  | [] => [x]
  | y :: l' => if String.leb x y then x :: l else y :: insert_sorted x l'
  end.

(** [sorted(list(s))] on strings: code-point order. *)
Definition sorted_strings (s : list string) : list string :=
  foldr insert_sorted [] s.

Section Service.

Variable reverse : Q -> Q -> Routing.call (option location).
Variable upper : string -> string.
Variable lower : string -> string.

Definition _state_to_abbrev (state_name : string) : option string :=
  if (String.length state_name =? 2)%nat then Some (upper state_name)
  else if String.prefix "US-" state_name
  then Some (upper (substring 3 (String.length state_name - 3) state_name))
  else dict_get (lower state_name) states.

(** The state name taken from an address dict. *)
Definition state_of (a : address) : string :=
  or_else (state a) (default EmptyString (iso3166_2_lvl4 a)).

(** Body of [for i in range(0, len(coords), step)] on the state
    [(calls, states)]. *)
Definition visit (coords : list (Q * Q)) (st : list reverse_call * list string) (i : nat)
    : res (list reverse_call * list string) :=
  let '(calls, states) := st in
  p ← getitem coords i;
  let '(lon, lat) := p in
  let calls := calls ++ [ReverseCall lat lon] in
  match reverse lat lon with
  | Routing.Returns (Some location) =>
      match raw_address location with
      | Some address =>
          let state := state_of address in
          if bool_decide (state = EmptyString) then Ok (calls, states)
          else
            match _state_to_abbrev state with
            | Some abbrev =>
                if bool_decide (abbrev = EmptyString) then Ok (calls, states)
                else Ok (calls, set_add abbrev states)
            | None => Ok (calls, states)
            end
      | None => Ok (calls, states)
      end
  | Routing.Returns None => Ok (calls, states)
  | Routing.Throws => Ok (calls, states)
  end.

Definition get_states_along_route {Geometry : Type} (route : RouteResult.t Geometry)
    : res (list reverse_call * list string) :=
  let coords := RouteResult.coordinates route in
  let step := Nat.max 1 (length coords / 20) in
  st ← for_each (visit coords) ([], []) (range_step (length coords) step);
  Ok (fst st, sorted_strings (snd st)).

(** Abbreviation [s] was made from the answer of the reverse geocoder at a
    vertex of the polyline. *)
Definition reported (coords : list (Q * Q)) (s : string) : Prop :=
  exists lon lat location address,
    (lon, lat) ∈ coords /\
    reverse lat lon = Routing.Returns (Some location) /\
    raw_address location = Some address /\
    _state_to_abbrev (state_of address) = Some s.

End Service.

End States.

(** ** Pre-geocoding the stations

    [Command.geocode_stations] of [management/commands/load_fuel_stations.py].
    The Nominatim geocoder, [str.upper] and the database are parameters.
    The geocoder may answer differently each time it is asked, so it takes
    the number of calls made before.  The calls to the geocoder and to
    [time.sleep] are recorded in order; what is written to stdout is left
    out. *)

Module LoadFuelStations.

Inductive event : Type :=
  | Sleep (seconds : Q)
  | Geocode (query : string).

(** What [geocoder.geocode(query)] does: a location, [None],
    [GeocoderTimedOut] or [GeocoderUnavailable], any other exception. *)
Inductive answer : Type :=
  | Found (latitude longitude : Q)
  | NoResult
  | Unavailable
  | OtherException.

Record state : Type := mk_state {
  trace : list event;
  coords_cache : list (string * (Q * Q));
  failed_locations : list string
}.

Definition canadian_provinces : list string :=
  ["SK"; "AB"; "BC"; "MB"; "ON"; "QC"; "NB"; "NS"; "PE"; "NL"; "NT"; "YT"; "NU"]%string.

Definition max_attempts : nat := 3.

Definition is_geocode (e : event) : bool :=
  match e with
  | Geocode _ => true
  | Sleep _ => false
  end.

(** The number of geocoder calls in a trace. *)
Definition calls_made (t : list event) : nat := length (List.filter is_geocode t).

(** The seconds slept in a trace. *)
Fixpoint total_sleep (t : list event) : Q :=
  match t with
  | [] => 0
  | Sleep seconds :: t' => seconds + total_sleep t'
  | Geocode _ :: t' => total_sleep t'
  end.

(** [d[key] = v] on a dict kept in insertion order. *)
Fixpoint dict_set {V} (key : string) (v : V) (d : list (string * V)) : list (string * V) :=
  match d with
  | [] => [(key, v)]
  | (k, w) :: d' =>
      if bool_decide (k = key) then (k, v) :: d' else (k, w) :: dict_set key v d'
  end.

Definition log (e : event) (s : state) : state :=
  {| trace := trace s ++ [e];
     coords_cache := coords_cache s;
     failed_locations := failed_locations s |}.

Definition cache (key : string) (coords : Q * Q) (s : state) : state :=
  {| trace := trace s;
     coords_cache := dict_set key coords (coords_cache s);
     failed_locations := failed_locations s |}.

Definition fail (location : string) (s : state) : state :=
  {| trace := trace s;
     coords_cache := coords_cache s;
     failed_locations := failed_locations s ++ [location] |}.

(** [f"{city},{state}"] *)
Definition cache_key (location : string * string) : string :=
  String.append (fst location) (String.append "," (snd location)).

(** [f"{city}, {state}, USA"] *)
Definition query_of (location : string * string) : string :=
  String.append (fst location) (String.append ", " (String.append (snd location) ", USA")).

(** [s.split(sep)] on the characters of [s]. *)
Fixpoint split_chars (sep : ascii) (l : list ascii) : list (list ascii) :=
  match l with
  | [] => [[]]
  | c :: rest =>
      if Ascii.eqb c sep then [] :: split_chars sep rest
      else
        match split_chars sep rest with
        | part :: parts => (c :: part) :: parts
        | [] => [[c]]
        end
  end.

Definition split (sep : ascii) (s : string) : list string :=
  map string_of_list_ascii (split_chars sep (list_ascii_of_string s)).

(** The number of occurrences of [sep] in [s]. *)
Definition occurrences (sep : ascii) (s : string) : nat :=
  length (List.filter (fun c => Ascii.eqb c sep) (list_ascii_of_string s)).

Section Command.

Variable geocode : nat -> string -> answer.
Variable upper : string -> string.

(** [for attempt in range(max_attempts)], from [attempt] on, with
    [remaining] passes left. *)
Fixpoint attempts (idx : nat) (key query : string) (attempt remaining : nat) (s : state)
    : state :=
  match remaining with
  | O => s
  | S remaining' =>
      let s := if (1 <? idx)%nat || (0 <? attempt)%nat then log (Sleep 1) s else s in
      let result := geocode (calls_made (trace s)) query in
      let s := log (Geocode query) s in
      match result with
      | Found latitude longitude => cache key (latitude, longitude) s
      | NoResult =>
          let s := if (attempt =? max_attempts - 1)%nat then fail query s else s in
          attempts idx key query (S attempt) remaining' s
      | Unavailable =>
          let s :=
            if (attempt <? max_attempts - 1)%nat
            then log (Sleep (inject_Z (2 ^ Z.of_nat attempt))) s
            else fail query s in
          attempts idx key query (S attempt) remaining' s
      | OtherException => fail query s
      end
  end.

Definition is_canadian (location : string * string) : bool :=
  bool_decide (upper (snd location) ∈ canadian_provinces).

(** Body of [for idx, location in enumerate(unique_locations, 1)]. *)
Definition geocode_location (idx : nat) (location : string * string) (s : state) : state :=
  if is_canadian location
  then fail (String.append (fst location)
               (String.append ", " (String.append (snd location) " (Canada)"))) s
  else attempts idx (cache_key location) (query_of location) 0 max_attempts s.

Fixpoint geocode_locations (idx : nat) (unique_locations : list (string * string))
    (s : state) : state :=
  match unique_locations with
  | [] => s
  | location :: rest => geocode_locations (S idx) rest (geocode_location idx location s)
  end.

(** The geocoding loop of [geocode_stations]. *)
Definition geocode_all (unique_locations : list (string * string)) : state :=
  geocode_locations 1 unique_locations (mk_state [] [] []).

(** The locations the loop asks the geocoder about. *)
Definition asked (unique_locations : list (string * string)) : list (string * string) :=
  List.filter (fun location => negb (is_canadian location)) unique_locations.

Variable DB : Type.

(** [FuelStation.objects.filter(city=city, state=state, geocoded=False)
    .update(latitude=..., longitude=..., geocoded=True)] and the count it
    returns. *)
Variable update : DB -> string -> string -> Q * Q -> DB * nat.

(** The loop under [transaction.atomic()]: all the updates, or an exception
    and none of them. *)
Definition update_stations (db : DB) (coords_cache : list (string * (Q * Q)))
    : res (DB * nat) :=
  for_each (fun st entry =>
              let '(db, updated_count) := st in
              let '(key, coords) := entry in
              match split "," key with
              | [city; state] =>
                  let '(db, count) := update db city state coords in
                  Ok (db, (updated_count + count)%nat)
              | [_] => Raise (ValueError "not enough values to unpack (expected 2, got 1)")
              | _ => Raise (ValueError "too many values to unpack (expected 2)")
              end)
           (db, 0%nat) coords_cache.

(** [geocode_stations]: the state of the geocoding loop, the database and
    [updated_count]. *)
Definition geocode_stations (db : DB) (unique_locations : list (string * string))
    : res (state * DB * nat) :=
  if (length unique_locations =? 0)%nat then Ok (mk_state [] [] [], db, 0%nat)
  else
    let s := geocode_all unique_locations in
    r ← update_stations db (coords_cache s);
    Ok (s, fst r, snd r).

End Command.

(** The seconds [attempts] may still sleep from pass [attempt] on. *)
Definition sleep_budget (attempt : nat) : Q :=
  match attempt with
  | 0%nat => 6
  | 1%nat => 4
  | 2%nat => 1
  | _ => 0
  end.

(** The keys of the cache. *)
Definition keys (coords_cache : list (string * (Q * Q))) : list string :=
  map fst coords_cache.

(** Every call to the geocoder but one that opens the trace comes right
    after a sleep of one second. *)
Definition spaced (t : list event) : Prop :=
  forall k query, t !! S k = Some (Geocode query) -> t !! k = Some (Sleep 1).

End LoadFuelStations.

(** A geocoder that is unavailable when first asked and finds every place
    afterwards, [str.upper] on ASCII letters, and a database that reports
    one updated row for each update. *)
Definition example_geocoder (calls_before : nat) (query : string) : LoadFuelStations.answer :=
  if (calls_before =? 0)%nat then LoadFuelStations.Unavailable
  else LoadFuelStations.Found 38.9 (-77).

Definition ascii_upper (c : ascii) : ascii :=
  let n := nat_of_ascii c in
  if (97 <=? n)%nat && (n <=? 122)%nat then ascii_of_nat (n - 32) else c.

Definition example_upper (s : string) : string :=
  string_of_list_ascii (map ascii_upper (list_ascii_of_string s)).

Definition example_update (db : unit) (city state : string) (coords : Q * Q) : unit * nat :=
  (db, 1%nat).

Definition example_locations : list (string * string) :=
  [("Des Moines", "IA"); ("Regina", "sk"); ("Chicago", "IL")]%string.

(** A stand-in for the great-circle distance, for running the sampler. *)
Definition example_miles (lat1 lon1 lat2 lon2 : Q) : Q :=
  50 * ((lat2 - lat1) * (lat2 - lat1) + (lon2 - lon1) * (lon2 - lon1)).

(** A route of two points that [example_miles] measures as one mile. *)
Definition one_mile_route : RouteResult.t unit :=
  {| RouteResult.distance_miles := 1;
     RouteResult.duration_hours := 1 / 60;
     RouteResult.geometry := tt;
     RouteResult.coordinates := [(0, 0); (0.1, 0.1)];
     RouteResult.start_coords := (0, 0);
     RouteResult.end_coords := (0.1, 0.1) |}.

(** ** A concrete service *)

(** A geocoder that knows two cities. *)
Definition example_geocode (query : string) : Routing.call (option Routing.location) :=
  if bool_decide (query = "Des Moines, IA, USA"%string)
  then Routing.Returns (Some (Routing.mk_location 41.6 (-93.6)))
  else if bool_decide (query = "Chicago, IL, USA"%string)
  then Routing.Returns (Some (Routing.mk_location 41.9 (-87.6)))
  else Routing.Returns None.

(** The geometry of a route of two points. *)
Definition example_geometry (start_lat start_lon end_lat end_lon : Q) : Routing.json :=
  Routing.JObject
    [("type"%string, Routing.JString "LineString");
     ("coordinates"%string,
      Routing.JArray
        [Routing.JArray [Routing.JNumber start_lon; Routing.JNumber start_lat];
         Routing.JArray [Routing.JNumber end_lon; Routing.JNumber end_lat]])].

(** An OSRM answer with the given distance and duration. *)
Definition example_body (distance duration : Routing.json)
    (start_lat start_lon end_lat end_lon : Q) : Routing.json :=
  Routing.JObject
    [("code"%string, Routing.JString "Ok");
     ("routes"%string,
      Routing.JArray
        [Routing.JObject
           [("distance"%string, distance);
            ("duration"%string, duration);
            ("geometry"%string, example_geometry start_lat start_lon end_lat end_lon)]])].

(** An OSRM answer of 1931212.8 metres (1200 miles) and 72000 seconds. *)
Definition example_requests_get (start_lat start_lon end_lat end_lon : Q)
    : Routing.http_outcome :=
  Routing.Json
    (example_body (Routing.JNumber (b64 1931212.8)) (Routing.JNumber 72000)
                  start_lat start_lon end_lat end_lon).

(** An OSRM answer whose distance is [null]. *)
Definition null_distance_get (start_lat start_lon end_lat end_lon : Q)
    : Routing.http_outcome :=
  Routing.Json
    (example_body Routing.JNull (Routing.JNumber 72000)
                  start_lat start_lon end_lat end_lon).

(** An OSRM answer of 1609.344 metres and 18 seconds. *)
Definition short_hop_get (start_lat start_lon end_lat end_lon : Q)
    : Routing.http_outcome :=
  Routing.Json
    (example_body (Routing.JNumber (b64 1609.344)) (Routing.JNumber 18)
                  start_lat start_lon end_lat end_lon).

(** A field that requires the key and passes the string on. *)
Definition example_CharField (raw : option string) : Serializers.field_error + string :=
  match raw with
  | None => inl (Serializers.FieldError "required")
  | Some value => inr value
  end.

(** * Properties *)

(** ** Basic facts about the error monad, floats and list access *)

Lemma Qltb_true (a b : Q) : Qltb a b = true <-> a < b.
Proof.
  unfold Qltb. rewrite negb_true_iff, <- not_true_iff_false, Qle_bool_iff.
  split; [apply Qnot_le_lt | apply Qlt_not_le].
Qed.

Lemma Qltb_false (a b : Q) : Qltb a b = false <-> b <= a.
Proof.
  unfold Qltb. rewrite negb_false_iff. apply Qle_bool_iff.
Qed.

(** ** Rounding *)

(** [round_half_even q] is within one half of [q], and even on a tie:
    with [e = 2 * num - 2 * z * den], [-den <= e <= den]. *)
Lemma round_half_even_spec (q : Q) :
  let z := round_half_even q in
  let e := (2 * Qnum q - 2 * z * Zpos (Qden q))%Z in
  (- Zpos (Qden q) <= e <= Zpos (Qden q))%Z /\
  (e = Zpos (Qden q) \/ e = (- Zpos (Qden q))%Z -> Z.even z = true).
Proof.
  destruct q as [num den]. unfold round_half_even. cbn [Qnum Qden].
  pose proof (Z.div_mod num (Zpos den) ltac:(lia)) as Hdm.
  pose proof (Z.mod_pos_bound num (Zpos den) ltac:(lia)) as Hr.
  set (f := (num / Zpos den)%Z) in *.
  set (r := (num mod Zpos den)%Z) in *.
  destruct (Z.ltb_spec (2 * r) (Zpos den)) as [H1|H1].
  - cbv zeta. split; [nia | intros [H|H]; nia].
  - destruct (Z.ltb_spec (Zpos den) (2 * r)) as [H2|H2].
    + cbv zeta. split; [nia | intros [H|H]; nia].
    + destruct (Z.even f) eqn:Hev.
      * cbv zeta. split; [nia | intros _; assumption].
      * cbv zeta. split; [nia|]. intros _.
        rewrite Z.even_add, Hev. reflexivity.
Qed.

Lemma round_half_even_le (x y : Q) :
  x <= y -> (round_half_even x <= round_half_even y)%Z.
Proof.
  intros Hxy. unfold Qle in Hxy.
  destruct (round_half_even_spec x) as [[Hx1 Hx2] Hxe].
  destruct (round_half_even_spec y) as [[Hy1 Hy2] Hye].
  cbv zeta in *.
  set (zx := round_half_even x) in *. set (zy := round_half_even y) in *.
  destruct (Z_le_gt_dec zx zy) as [|Hgt]; [assumption|exfalso].
  assert (Hd : (0 < Zpos (Qden x) * Zpos (Qden y))%Z) by lia.
  assert (H1 : ((2 * zy + 1) * (Zpos (Qden x) * Zpos (Qden y))
                <= 2 * Qnum x * Zpos (Qden y))%Z) by nia.
  assert (H2 : (2 * Qnum y * Zpos (Qden x)
                <= (2 * zy + 1) * (Zpos (Qden x) * Zpos (Qden y)))%Z) by nia.
  assert (Hex : (2 * Qnum x - 2 * zx * Zpos (Qden x) = - Zpos (Qden x))%Z) by nia.
  assert (Hey : (2 * Qnum y - 2 * zy * Zpos (Qden y) = Zpos (Qden y))%Z) by nia.
  assert (Hz : zx = (zy + 1)%Z) by nia.
  specialize (Hxe (or_intror Hex)). specialize (Hye (or_introl Hey)).
  rewrite Hz, Z.even_add, Hye in Hxe. discriminate.
Qed.

Lemma round_half_even_comp (x y : Q) :
  x == y -> round_half_even x = round_half_even y.
Proof.
  intros Hxy. apply Z.le_antisymm; apply round_half_even_le; rewrite Hxy; apply Qle_refl.
Qed.

Lemma round_le (x y : Q) (ndigits : nat) : x <= y -> round x ndigits <= round y ndigits.
Proof.
  intros Hxy. unfold round, Qle. cbn [Qnum Qden].
  apply Z.mul_le_mono_nonneg_r; [lia|].
  apply round_half_even_le. apply Qmult_le_compat_r; [assumption|].
  unfold Qle. simpl. lia.
Qed.

Lemma round_comp (x y : Q) (ndigits : nat) : x == y -> round x ndigits = round y ndigits.
Proof.
  intros Hxy. unfold round. f_equal. apply round_half_even_comp. now rewrite Hxy.
Qed.

(** Shifting by an even integer shifts the rounded value: a tie stays a
    tie and the parity of its neighbours is kept. *)
Lemma round_half_even_shift (q : Q) (m : Z) :
  Z.even m = true -> round_half_even (q + inject_Z m) = (round_half_even q + m)%Z.
Proof.
  intros Hm.
  rewrite (round_half_even_comp (q + inject_Z m)
             ((Qnum q + m * Zpos (Qden q)) # Qden q)).
  2:{ unfold Qeq, Qplus, inject_Z. cbn [Qnum Qden]. nia. }
  unfold round_half_even. cbn [Qnum Qden].
  rewrite Z.div_add, Z.mod_add by lia.
  set (f := (Qnum q / Zpos (Qden q))%Z). set (r := (Qnum q mod Zpos (Qden q))%Z).
  destruct (2 * r <? Zpos (Qden q))%Z; [reflexivity|].
  destruct (Zpos (Qden q) <? 2 * r)%Z; [lia|].
  rewrite Z.even_add, Hm. destruct (Z.even f); simpl; lia.
Qed.

(** A whole number of miles is an even number of hundredths. *)
Lemma round_shift (x : Q) (k : Z) : round (x + inject_Z k) 2 == round x 2 + inject_Z k.
Proof.
  unfold round.
  change (Z.to_pos (10 ^ Z.of_nat 2)) with 100%positive.
  rewrite (round_half_even_comp ((x + inject_Z k) * inject_Z 100)
             (x * inject_Z 100 + inject_Z (100 * k))).
  2:{ rewrite inject_Z_mult. ring. }
  rewrite round_half_even_shift.
  2:{ rewrite Z.even_mul. reflexivity. }
  unfold Qeq, Qplus, inject_Z. cbn [Qnum Qden]. lia.
Qed.

Lemma round_gap_le (x y : Q) (k : Z) :
  y - x <= inject_Z k -> round y 2 - round x 2 <= inject_Z k.
Proof.
  intros H.
  assert (Hle : round y 2 <= round (x + inject_Z k) 2) by (apply round_le; lra).
  rewrite round_shift in Hle. lra.
Qed.

Lemma round_gap_ge (x y : Q) (k : Z) :
  inject_Z k <= y - x -> inject_Z k <= round y 2 - round x 2.
Proof.
  intros H.
  assert (Hle : round (x + inject_Z k) 2 <= round y 2) by (apply round_le; lra).
  rewrite round_shift in Hle. lra.
Qed.

Lemma round_zero : round 0 2 == 0.
Proof. reflexivity. Qed.

Lemma round_half_even_Z (z : Z) : round_half_even (inject_Z z) = z.
Proof.
  unfold round_half_even, inject_Z. cbn [Qnum Qden].
  rewrite Z.div_1_r, Z.mod_1_r. reflexivity.
Qed.

(** ** Doubles

    Powers of two, the binade of a number, and the rounding [b64]: it
    respects [==], is monotone and leaves doubles alone. *)

Lemma pow2_pos (e : Z) : 0 < 2 ^ e.
Proof. apply Qpower_0_lt. reflexivity. Qed.

Lemma pow2_add (a b : Z) : 2 ^ (a + b) == 2 ^ a * 2 ^ b.
Proof. apply Qpower_plus. discriminate. Qed.

Lemma pow2_le (a b : Z) : (a <= b)%Z -> 2 ^ a <= 2 ^ b.
Proof. intros H. apply Qpower_le_compat_l; [exact H | discriminate]. Qed.

Lemma pow2_lt (a b : Z) : (a < b)%Z -> 2 ^ a < 2 ^ b.
Proof. intros H. apply Qpower_lt_compat_l; [exact H | reflexivity]. Qed.

Lemma pow2_Z (n : Z) : (0 <= n)%Z -> inject_Z (2 ^ n) == 2 ^ n.
Proof. intros H. now rewrite Zpower_Qpower. Qed.

Lemma binade_spec (x : Q) : 0 < x -> 2 ^ binade x <= x /\ x < 2 ^ (binade x + 1).
Proof.
  intros Hx. unfold binade. destruct (Qle_bool 1 x) eqn:H1.
  - apply Qle_bool_iff in H1.
    assert (Hf : (1 <= Qfloor x)%Z).
    { rewrite <- (Qfloor_Z 1). now apply Qfloor_resp_le. }
    pose proof (Z.log2_spec (Qfloor x) ltac:(lia)) as [Hlo Hhi].
    pose proof (Z.log2_nonneg (Qfloor x)) as Hnn.
    pose proof (Qfloor_le x) as Hfl. pose proof (Qlt_floor x) as Hfu.
    rewrite <- !pow2_Z by lia. split.
    + apply Qle_trans with (inject_Z (Qfloor x)); [|exact Hfl]. now rewrite <- Zle_Qle.
    + apply Qlt_le_trans with (inject_Z (Qfloor x + 1)); [exact Hfu|].
      rewrite <- Zle_Qle. replace (Z.succ (Z.log2 (Qfloor x))) with (Z.log2 (Qfloor x) + 1)%Z in Hhi by lia. lia.
  - assert (Hlt : x < 1).
    { apply Qnot_le_lt. intros H. apply Qle_bool_iff in H. congruence. }
    assert (Hy : 1 < / x).
    { apply Qlt_shift_inv_l; [exact Hx | lra]. }
    pose proof (Qle_ceiling (/ x)) as Hcu. pose proof (Qceiling_lt (/ x)) as Hcl.
    assert (Hc : (1 < Qceiling (/ x))%Z).
    { rewrite Zlt_Qlt. change (inject_Z 1) with 1. lra. }
    pose proof (Z.log2_up_spec (Qceiling (/ x)) Hc) as [Hlo Hhi].
    pose proof (Z.log2_up_nonneg (Qceiling (/ x))) as Hnn.
    set (k := Z.log2_up (Qceiling (/ x))) in *.
    assert (Hk : (0 < k)%Z).
    { destruct (Z.eq_dec k 0%Z) as [E|]; [|lia]. rewrite E in Hhi. simpl in Hhi. lia. }
    assert (Hup : / x <= 2 ^ k).
    { rewrite <- pow2_Z by lia. apply Qle_trans with (inject_Z (Qceiling (/ x))); [exact Hcu|].
      now rewrite <- Zle_Qle. }
    assert (Hdn : 2 ^ (k - 1) < / x).
    { rewrite <- pow2_Z by lia. apply Qle_lt_trans with (inject_Z (Qceiling (/ x) - 1)); [|exact Hcl].
      rewrite <- Zle_Qle. replace (Z.pred k) with (k - 1)%Z in Hlo by lia. lia. }
    pose proof (pow2_pos k) as Hpk. pose proof (pow2_pos (k - 1)) as Hpk1.
    split.
    + rewrite Qpower_opp. apply Qle_shift_inv_r; [exact Hpk|].
      assert (/ x * x == 1) as E by (field; lra). nra.
    + replace (- k + 1)%Z with (- (k - 1))%Z by lia.
      rewrite Qpower_opp. apply Qlt_shift_inv_l; [exact Hpk1|].
      assert (/ x * x == 1) as E by (field; lra). nra.
Qed.

Lemma binade_unique (x : Q) (e : Z) : 2 ^ e <= x -> x < 2 ^ (e + 1) -> binade x = e.
Proof.
  intros Hlo Hhi.
  assert (Hx : 0 < x) by (pose proof (pow2_pos e); lra).
  destruct (binade_spec x Hx) as [Blo Bhi].
  destruct (Z.lt_trichotomy (binade x) e) as [H|[H|H]]; [exfalso|exact H|exfalso].
  - pose proof (pow2_le (binade x + 1) e ltac:(lia)). lra.
  - pose proof (pow2_le (e + 1) (binade x) ltac:(lia)). lra.
Qed.

Lemma binade_comp (x y : Q) : 0 < x -> x == y -> binade x = binade y.
Proof.
  intros Hx Hxy. symmetry. destruct (binade_spec x Hx) as [Blo Bhi].
  apply binade_unique; rewrite <- Hxy; assumption.
Qed.

Lemma binade_le (x y : Q) : 0 < x -> x <= y -> (binade x <= binade y)%Z.
Proof.
  intros Hx Hxy. destruct (binade_spec x Hx) as [Blo Bhi].
  destruct (binade_spec y ltac:(lra)) as [Clo Chi].
  destruct (Z_le_gt_dec (binade x) (binade y)) as [|H]; [assumption|exfalso].
  pose proof (pow2_le (binade y + 1) (binade x) ltac:(lia)). lra.
Qed.

(** The scaled significand lies between [2^52] and [2^53]. *)
Lemma scaled_bounds (x : Q) :
  0 < x -> 2 ^ 52 <= x * 2 ^ (52 - binade x) /\ x * 2 ^ (52 - binade x) < 2 ^ 53.
Proof.
  intros Hx. destruct (binade_spec x Hx) as [Blo Bhi].
  pose proof (pow2_pos (52 - binade x)) as Hp.
  assert (E1 : 2 ^ 52 == 2 ^ binade x * 2 ^ (52 - binade x)).
  { rewrite <- pow2_add. now replace (binade x + (52 - binade x))%Z with 52%Z by lia. }
  assert (E2 : 2 ^ 53 == 2 ^ (binade x + 1) * 2 ^ (52 - binade x)).
  { rewrite <- pow2_add. now replace (binade x + 1 + (52 - binade x))%Z with 53%Z by lia. }
  rewrite E1, E2. split; nra.
Qed.

Lemma mantissa_bounds (x : Q) :
  0 < x ->
  (2 ^ 52 <= round_half_even (x * 2 ^ (52 - binade x)) <= 2 ^ 53)%Z.
Proof.
  intros Hx. destruct (scaled_bounds x Hx) as [Hlo Hhi]. split.
  - rewrite <- (round_half_even_Z (2 ^ 52)). apply round_half_even_le.
    now rewrite pow2_Z by lia.
  - rewrite <- (round_half_even_Z (2 ^ 53)). apply round_half_even_le.
    rewrite pow2_Z by lia. lra.
Qed.

Lemma b64_pos_bounds (x : Q) :
  0 < x -> 2 ^ binade x <= b64_pos x /\ b64_pos x <= 2 ^ (binade x + 1).
Proof.
  intros Hx. unfold b64_pos. cbv zeta.
  destruct (mantissa_bounds x Hx) as [Hlo Hhi].
  pose proof (pow2_pos (binade x - 52)) as Hp.
  assert (E1 : 2 ^ binade x == 2 ^ 52 * 2 ^ (binade x - 52)).
  { rewrite <- pow2_add. now replace (52 + (binade x - 52))%Z with (binade x) by lia. }
  assert (E2 : 2 ^ (binade x + 1) == 2 ^ 53 * 2 ^ (binade x - 52)).
  { rewrite <- pow2_add. now replace (53 + (binade x - 52))%Z with (binade x + 1)%Z by lia. }
  rewrite E1, E2. rewrite Zle_Qle in Hlo, Hhi. rewrite !pow2_Z in Hlo, Hhi by lia.
  split; apply Qmult_le_compat_r; lra.
Qed.

Lemma b64_pos_positive (x : Q) : 0 < x -> 0 < b64_pos x.
Proof.
  intros Hx. destruct (b64_pos_bounds x Hx) as [H _].
  pose proof (pow2_pos (binade x)). lra.
Qed.

Lemma b64_pos_comp (x y : Q) : 0 < x -> x == y -> b64_pos x == b64_pos y.
Proof.
  intros Hx Hxy. unfold b64_pos. cbv zeta.
  rewrite <- (binade_comp x y Hx Hxy).
  assert (E : x * 2 ^ (52 - binade x) == y * 2 ^ (52 - binade x)).
  { apply Qmult_comp; [exact Hxy | reflexivity]. }
  rewrite (round_half_even_comp _ _ E). reflexivity.
Qed.

Lemma b64_pos_le (x y : Q) : 0 < x -> x <= y -> b64_pos x <= b64_pos y.
Proof.
  intros Hx Hxy.
  assert (Hy : 0 < y) by lra.
  pose proof (binade_le x y Hx Hxy) as He.
  destruct (Z.eq_dec (binade x) (binade y)) as [E|NE].
  - unfold b64_pos. cbv zeta. rewrite <- E.
    pose proof (pow2_pos (binade x - 52)) as Hp.
    pose proof (pow2_pos (52 - binade x)) as Hq.
    assert (Hm : (round_half_even (x * 2 ^ (52 - binade x))
                  <= round_half_even (y * 2 ^ (52 - binade x)))%Z).
    { apply round_half_even_le. apply Qmult_le_compat_r; lra. }
    rewrite Zle_Qle in Hm. apply Qmult_le_compat_r; lra.
  - destruct (b64_pos_bounds x Hx) as [_ Hux].
    destruct (b64_pos_bounds y Hy) as [Hly _].
    pose proof (pow2_le (binade x + 1) (binade y) ltac:(lia)). lra.
Qed.

Lemma b64_pos_idem (x : Q) : 0 < x -> b64_pos (b64_pos x) == b64_pos x.
Proof.
  intros Hx.
  destruct (mantissa_bounds x Hx) as [Hlo Hhi].
  set (e := binade x) in *. set (m := round_half_even (x * 2 ^ (52 - e))) in *.
  assert (Hv : b64_pos x == inject_Z m * 2 ^ (e - 52)) by reflexivity.
  pose proof (pow2_pos (e - 52)) as Hp.
  destruct (Z.eq_dec m (2 ^ 53)%Z) as [Em|Nm].
  - (* the significand rounds up to the next binade *)
    assert (Hv' : b64_pos x == 2 ^ (e + 1)).
    { rewrite Hv, Em, pow2_Z, <- pow2_add by lia. now replace (53 + (e - 52))%Z with (e + 1)%Z by lia. }
    assert (He' : binade (b64_pos x) = (e + 1)%Z).
    { apply binade_unique; rewrite Hv'; [apply Qle_refl | apply pow2_lt; lia]. }
    unfold b64_pos at 1. cbv zeta. rewrite He'.
    rewrite (round_half_even_comp (b64_pos x * 2 ^ (52 - (e + 1))) (inject_Z (2 ^ 52))).
    2:{ rewrite Hv', <- pow2_add, pow2_Z by lia. now replace (e + 1 + (52 - (e + 1)))%Z with 52%Z by lia. }
    rewrite round_half_even_Z, Hv', pow2_Z, <- pow2_add by lia.
    now replace (52 + (e + 1 - 52))%Z with (e + 1)%Z by lia.
  - assert (He' : binade (b64_pos x) = e).
    { apply binade_unique; rewrite Hv.
      - assert (E1 : 2 ^ e == 2 ^ 52 * 2 ^ (e - 52)).
        { rewrite <- pow2_add. now replace (52 + (e - 52))%Z with e by lia. }
        rewrite E1. rewrite Zle_Qle, pow2_Z in Hlo by lia.
        apply Qmult_le_compat_r; lra.
      - assert (E2 : 2 ^ (e + 1) == 2 ^ 53 * 2 ^ (e - 52)).
        { rewrite <- pow2_add. now replace (53 + (e - 52))%Z with (e + 1)%Z by lia. }
        rewrite E2.
        assert (Hm : (m < 2 ^ 53)%Z) by lia. rewrite Zlt_Qlt, pow2_Z in Hm by lia.
        apply Qmult_lt_compat_r; lra. }
    unfold b64_pos at 1. cbv zeta. rewrite He'.
    rewrite (round_half_even_comp (b64_pos x * 2 ^ (52 - e)) (inject_Z m)).
    2:{ rewrite Hv, <- Qmult_assoc, <- pow2_add.
        replace (e - 52 + (52 - e))%Z with 0%Z by lia. change (2 ^ 0) with 1. ring. }
    now rewrite round_half_even_Z.
Qed.

Lemma b64_pos_case (x : Q) : 0 < x -> b64 x = b64_pos x.
Proof. intros Hx. unfold b64. now rewrite (proj2 (Qltb_true 0 x) Hx). Qed.

Lemma b64_neg_case (x : Q) : x < 0 -> b64 x = - b64_pos (- x).
Proof.
  intros Hx. unfold b64.
  rewrite (proj2 (Qltb_false 0 x)) by lra. now rewrite (proj2 (Qltb_true x 0) Hx).
Qed.

Lemma b64_zero_case (x : Q) : x == 0 -> b64 x = 0.
Proof.
  intros Hx. unfold b64.
  rewrite (proj2 (Qltb_false 0 x)) by lra. now rewrite (proj2 (Qltb_false x 0)) by lra.
Qed.

Lemma b64_0 : b64 0 == 0.
Proof. reflexivity. Qed.

#[global] Instance b64_comp : Proper (Qeq ==> Qeq) b64.
Proof.
  intros x y Hxy.
  destruct (Q_dec x 0) as [[Hx|Hx]|Hx].
  - rewrite (b64_neg_case x Hx), (b64_neg_case y) by lra.
    rewrite (b64_pos_comp (- x) (- y)); [reflexivity | lra | now rewrite Hxy].
  - rewrite (b64_pos_case x Hx), (b64_pos_case y) by lra. now apply b64_pos_comp.
  - rewrite (b64_zero_case x Hx), (b64_zero_case y); [reflexivity | now rewrite <- Hxy].
Qed.

(** Rounding is monotone. *)
Lemma b64_le (x y : Q) : x <= y -> b64 x <= b64 y.
Proof.
  intros Hxy.
  destruct (Q_dec x 0) as [[Hx|Hx]|Hx]; destruct (Q_dec y 0) as [[Hy|Hy]|Hy];
    try (exfalso; lra).
  - rewrite (b64_neg_case x Hx), (b64_neg_case y Hy).
    pose proof (b64_pos_le (- y) (- x) ltac:(lra) ltac:(lra)). lra.
  - rewrite (b64_neg_case x Hx), (b64_pos_case y Hy).
    pose proof (b64_pos_positive (- x) ltac:(lra)). pose proof (b64_pos_positive y Hy). lra.
  - rewrite (b64_neg_case x Hx), (b64_zero_case y Hy).
    pose proof (b64_pos_positive (- x) ltac:(lra)). lra.
  - rewrite (b64_pos_case x Hx), (b64_pos_case y Hy). now apply b64_pos_le.
  - rewrite (b64_zero_case x Hx), (b64_pos_case y Hy).
    pose proof (b64_pos_positive y Hy). lra.
  - rewrite (b64_zero_case x Hx), (b64_zero_case y Hy). apply Qle_refl.
Qed.

(** A rounded number is a double. *)
Lemma b64_idem (x : Q) : b64 (b64 x) == b64 x.
Proof.
  destruct (Q_dec x 0) as [[Hx|Hx]|Hx].
  - rewrite (b64_neg_case x Hx).
    pose proof (b64_pos_positive (- x) ltac:(lra)) as Hp.
    rewrite b64_neg_case by lra.
    rewrite (b64_pos_comp (- - b64_pos (- x)) (b64_pos (- x))) by (try lra; ring).
    rewrite b64_pos_idem by lra. reflexivity.
  - rewrite (b64_pos_case x Hx).
    rewrite b64_pos_case by now apply b64_pos_positive.
    now apply b64_pos_idem.
  - rewrite (b64_zero_case x Hx). reflexivity.
Qed.

Lemma b64_nonneg (x : Q) : 0 <= x -> 0 <= b64 x.
Proof. intros H. rewrite <- b64_0. now apply b64_le. Qed.

Lemma b64_binary64 (x : Q) : binary64 (b64 x).
Proof. apply b64_idem. Qed.

(** Adding a non-negative number to a double and rounding does not go
    below the double. *)
Lemma b64_add_nonneg (x c : Q) : binary64 x -> 0 <= c -> x <= b64 (x + c).
Proof.
  intros Hx Hc. unfold binary64 in Hx. rewrite <- Hx at 1. apply b64_le. lra.
Qed.

(** Rounding to an integer moves a number by at most one half. *)
Lemma round_half_even_near (q : Q) :
  q - (1 # 2) <= inject_Z (round_half_even q) /\
  inject_Z (round_half_even q) <= q + (1 # 2).
Proof.
  destruct (round_half_even_spec q) as [[H1 H2] _]. cbv zeta in H1, H2.
  destruct q as [num den]. cbn [Qnum Qden] in *.
  set (z := round_half_even (num # den)) in *.
  unfold Qle, Qminus, Qplus, Qopp, inject_Z. cbn [Qnum Qden].
  split; nia.
Qed.

(** Rounding to a double moves a positive number by at most half the
    spacing of the doubles of its binade. *)
Lemma b64_pos_near (x : Q) :
  0 < x ->
  x - 2 ^ (binade x - 53) <= b64_pos x /\ b64_pos x <= x + 2 ^ (binade x - 53).
Proof.
  intros Hx. unfold b64_pos. cbv zeta.
  set (e := binade x).
  destruct (round_half_even_near (x * 2 ^ (52 - e))) as [Hlo Hhi].
  set (m := inject_Z (round_half_even (x * 2 ^ (52 - e)))) in *.
  pose proof (pow2_pos (e - 52)) as Hp.
  assert (E1 : x == x * 2 ^ (52 - e) * 2 ^ (e - 52)).
  { rewrite <- Qmult_assoc, <- pow2_add.
    replace (52 - e + (e - 52))%Z with 0%Z by lia. change (2 ^ 0) with 1. ring. }
  assert (E2 : 2 ^ (e - 53) == (1 # 2) * 2 ^ (e - 52)).
  { change (1 # 2) with (2 ^ (-1)). rewrite <- pow2_add.
    now replace (-1 + (e - 52))%Z with (e - 53)%Z by lia. }
  generalize dependent m. generalize dependent (x * 2 ^ (52 - e)).
  generalize dependent (2 ^ (e - 52)). generalize dependent (2 ^ (e - 53)).
  intros u p Hp E2 s E1 m Hlo Hhi.
  pose proof (Qmult_le_compat_r _ _ p Hlo (Qlt_le_weak _ _ Hp)) as H1.
  pose proof (Qmult_le_compat_r _ _ p Hhi (Qlt_le_weak _ _ Hp)) as H2.
  split; lra.
Qed.

(** A number that rounds to at most 500 is at most 500 and half the
    spacing of the doubles between 256 and 512. *)
Lemma b64_le_500 (x : Q) : b64 x <= 500 -> x <= 500 + 2 ^ (-45).
Proof.
  intros H.
  assert (Hs : 0 < 2 ^ (-45)) by apply pow2_pos.
  destruct (Qlt_le_dec x 256) as [Hsmall|H256]; [lra|].
  destruct (Qlt_le_dec x 512) as [H512|Hbig].
  - assert (He : binade x = 8%Z).
    { apply binade_unique; [exact H256 | exact H512]. }
    rewrite b64_pos_case in H by lra.
    destruct (b64_pos_near x ltac:(lra)) as [Hlo _].
    rewrite He in Hlo. change (8 - 53)%Z with (-45)%Z in Hlo. lra.
  - exfalso. pose proof (b64_le 512 x Hbig) as Hm.
    assert (E : b64 512 == 512) by reflexivity.
    rewrite E in Hm. lra.
Qed.

Lemma b64_500 : b64 500 == 500.
Proof. reflexivity. Qed.

(** A leg within 500 is measured within 500. *)
Lemma b64_within_500 (x : Q) : x <= 500 -> b64 x <= 500.
Proof. intros H. rewrite <- b64_500. now apply b64_le. Qed.

(** From 256 on, a double is a multiple of [2^-44]. *)
Lemma binary64_grid (x : Q) :
  binary64 x -> 256 <= x -> exists k : Z, x == inject_Z k * 2 ^ (-44).
Proof.
  intros Hb Hx. unfold binary64 in Hb.
  assert (Hpos : 0 < x) by lra.
  rewrite b64_pos_case in Hb by exact Hpos. unfold b64_pos in Hb. cbv zeta in Hb.
  assert (He : (8 <= binade x)%Z).
  { replace 8%Z with (binade 256) by reflexivity. apply binade_le; [reflexivity | exact Hx]. }
  set (e := binade x) in *.
  exists (round_half_even (x * 2 ^ (52 - e)) * 2 ^ (e - 8))%Z.
  rewrite inject_Z_mult, pow2_Z by lia.
  rewrite <- Qmult_assoc, <- pow2_add.
  replace (e - 8 + -44)%Z with (e - 52)%Z by lia.
  symmetry. exact Hb.
Qed.

(** A double that exceeds an integer from 256 on by at most [2^-45] does
    not exceed it. *)
Lemma binary64_le_int (x : Q) (N : Z) :
  binary64 x -> (256 <= N)%Z -> x <= inject_Z N + 2 ^ (-45) -> x <= inject_Z N.
Proof.
  intros Hb HN Hx.
  assert (HN' : 256 <= inject_Z N).
  { change 256 with (inject_Z 256). now rewrite <- Zle_Qle. }
  destruct (Qlt_le_dec x 256) as [Hsmall|H256]; [lra|].
  destruct (binary64_grid x Hb H256) as [k Hk].
  assert (E44 : 2 ^ 44 * 2 ^ (-44) == 1) by reflexivity.
  assert (E45 : 2 ^ (-45) == (1 # 2) * 2 ^ (-44)) by reflexivity.
  pose proof (pow2_pos (-44)) as Hp.
  assert (EN : inject_Z N == inject_Z (N * 2 ^ 44) * 2 ^ (-44)).
  { rewrite inject_Z_mult, pow2_Z by lia. rewrite <- Qmult_assoc, E44. ring. }
  rewrite Hk, EN in Hx |- *. rewrite E45 in Hx.
  set (M := (N * 2 ^ 44)%Z) in *.
  assert (Hkm : inject_Z k <= inject_Z M + (1 # 2)).
  { apply (Qmult_le_r _ _ (2 ^ (-44))); [exact Hp|].
    revert Hx. generalize (2 ^ (-44)). intros p Hx. lra. }
  assert (Hz : (k <= M)%Z).
  { unfold Qle, Qplus, inject_Z in Hkm. cbn [Qnum Qden] in Hkm. lia. }
  apply Qmult_le_compat_r; [|lra]. now rewrite <- Zle_Qle.
Qed.



(** A number that rounds to 450 or more is at least 450 less half the
    spacing of the doubles between 256 and 512. *)
Lemma b64_ge_450 (x : Q) : 450 <= b64 x -> 450 - 2 ^ (-45) <= x.
Proof.
  intros H.
  assert (Hs : 0 < 2 ^ (-45)) by apply pow2_pos.
  destruct (Qlt_le_dec x 512) as [H512|Hbig]; [|lra].
  destruct (Qlt_le_dec x 256) as [Hsmall|H256].
  - exfalso. pose proof (b64_le x 256 (Qlt_le_weak _ _ Hsmall)) as Hm.
    assert (E : b64 256 == 256) by reflexivity.
    rewrite E in Hm. lra.
  - assert (He : binade x = 8%Z).
    { apply binade_unique; [exact H256 | exact H512]. }
    rewrite b64_pos_case in H by lra.
    destruct (b64_pos_near x ltac:(lra)) as [_ Hhi].
    rewrite He in Hhi. change (8 - 53)%Z with (-45)%Z in Hhi. lra.
Qed.

(** Two doubles, the smaller one at least 256, whose difference rounds
    to 450 or more are 450 or more apart. *)
Lemma binary64_gap_450 (a b : Q) :
  binary64 a -> binary64 b -> 256 <= a -> 450 <= b64 (b - a) -> 450 <= b - a.
Proof.
  intros Ha Hb H256 H.
  apply b64_ge_450 in H.
  assert (Hs : 0 < 2 ^ (-45)) by apply pow2_pos.
  assert (Hs1 : 2 ^ (-45) <= 1) by (apply Qle_bool_iff; reflexivity).
  destruct (binary64_grid a Ha H256) as [j Hj].
  destruct (binary64_grid b Hb ltac:(lra)) as [k Hk].
  assert (E450 : 450 == inject_Z (450 * 2 ^ 44) * 2 ^ (-44)) by reflexivity.
  assert (E45 : 2 ^ (-45) == (1 # 2) * 2 ^ (-44)) by reflexivity.
  pose proof (pow2_pos (-44)) as Hp.
  rewrite Hj, Hk, E450, E45 in H. rewrite Hj, Hk, E450.
  set (M := (450 * 2 ^ 44)%Z) in *.
  assert (Hkm : inject_Z M - (1 # 2) <= inject_Z k - inject_Z j).
  { apply (Qmult_le_r _ _ (2 ^ (-44))); [exact Hp|].
    revert H. generalize (2 ^ (-44)). intros p H. lra. }
  assert (Hz : (M <= k - j)%Z).
  { unfold Qle, Qminus, Qplus, Qopp, inject_Z in Hkm. cbn [Qnum Qden] in Hkm. lia. }
  rewrite Zle_Qle in Hz. unfold Zminus in Hz. rewrite inject_Z_plus, inject_Z_opp in Hz.
  pose proof (Qmult_le_compat_r _ _ (2 ^ (-44)) Hz (Qlt_le_weak _ _ Hp)) as Hfin.
  lra.
Qed.

(** The four operations round to a double, respect [==] and are monotone
    where the exact operation is. *)
#[global] Instance float_add_comp : Proper (Qeq ==> Qeq ==> Qeq) float_add.
Proof. intros a a' Ha b b' Hb. unfold float_add. now rewrite Ha, Hb. Qed.

#[global] Instance float_sub_comp : Proper (Qeq ==> Qeq ==> Qeq) float_sub.
Proof. intros a a' Ha b b' Hb. unfold float_sub. now rewrite Ha, Hb. Qed.

#[global] Instance float_mul_comp : Proper (Qeq ==> Qeq ==> Qeq) float_mul.
Proof. intros a a' Ha b b' Hb. unfold float_mul. now rewrite Ha, Hb. Qed.

Lemma float_div_comp (a a' b : Q) : a == a' -> float_div a b == float_div a' b.
Proof. intros Ha. unfold float_div. now rewrite Ha. Qed.

Lemma float_add_le (a a' c : Q) : a <= a' -> float_add a c <= float_add a' c.
Proof. intros H. apply b64_le. lra. Qed.

Lemma float_add_0_r (a : Q) : binary64 a -> float_add a 0 == a.
Proof. intros H. unfold float_add. rewrite Qplus_0_r. exact H. Qed.

Lemma float_add_binary64 (a b : Q) : binary64 (float_add a b).
Proof. apply b64_binary64. Qed.

Lemma binary64_0 : binary64 0.
Proof. reflexivity. Qed.

#[global] Instance binary64_comp : Proper (Qeq ==> iff) binary64.
Proof. intros a b H. unfold binary64. now rewrite H. Qed.


(** [Ok a ≫= f] runs [f a]. *)
Ltac ok_step := change (mbind ?f (Ok ?a)) with (f a); cbv beta.

Lemma getitem_Some {A} (l : list A) (i : nat) (a : A) :
  l !! i = Some a -> getitem l i = Ok a.
Proof. unfold getitem. now intros ->. Qed.

Lemma setitem_lt {A} (l : list A) (i : nat) (v : A) :
  (i < length l)%nat -> setitem l i v = Ok (<[i:=v]> l).
Proof. unfold setitem. intros H. now rewrite decide_True. Qed.

Lemma getitem_z_nat {A} (l : list A) (i : nat) :
  getitem_z l (Z.of_nat i) = getitem l i.
Proof.
  unfold getitem_z.
  destruct (Z.leb_spec 0 (Z.of_nat i)); [|lia].
  now rewrite Nat2Z.id.
Qed.

Lemma for_each_app {S A} (body : S -> A -> res S) (s : S) (l1 l2 : list A) :
  for_each body s (l1 ++ l2) = (s' ← for_each body s l1; for_each body s' l2).
Proof.
  revert s. induction l1 as [|x l1 IH]; intros s; simpl; [reflexivity|].
  destruct (body s x); simpl; [apply IH | reflexivity].
Qed.

Lemma prices_positive_nonneg (stations : list on_route) :
  prices_positive stations -> prices_nonneg stations.
Proof.
  unfold prices_positive, prices_nonneg. intros H.
  eapply Forall_impl; [exact H|]. intros st Hst. now apply Qlt_le_weak.
Qed.

Lemma float_gallons_range : float_div VEHICLE_RANGE_MILES FUEL_EFFICIENCY_MPG == 50.
Proof. reflexivity. Qed.

(** ** Sequences of neighbours *)

Section Links.

Context {A : Type}.
Implicit Types (P R : A -> A -> Prop) (l : list A).

Lemma links_snoc P prev l x last :
  links P prev (l ++ [x]) last <-> links P prev l x /\ P x last.
Proof.
  revert prev. induction l as [|y l IH]; intros prev; simpl; [tauto|].
  rewrite IH. tauto.
Qed.

Lemma links_impl P R prev l last :
  (forall a b, P a b -> R a b) -> links P prev l last -> links R prev l last.
Proof.
  intros HPR. revert prev. induction l as [|y l IH]; intros prev; simpl; [auto|].
  intros [H1 H2]. split; auto.
Qed.

Lemma links_head P prev prev' l last :
  (forall x, P prev x -> P prev' x) -> links P prev l last -> links P prev' l last.
Proof. intros H. destruct l; simpl; [auto|]. intros [H1 H2]. auto. Qed.

Lemma links_and P R prev l last :
  links P prev l last -> links R prev l last ->
  links (fun a b => P a b /\ R a b) prev l last.
Proof.
  revert prev. induction l as [|y l IH]; intros prev; simpl; [tauto|].
  intros [H1 H2] [H3 H4]. auto.
Qed.

Lemma links_map {B} (f : B -> A) P (prev : B) (l : list B) (last : B) :
  links P (f prev) (map f l) (f last) <-> links (fun a b => P (f a) (f b)) prev l last.
Proof.
  revert prev. induction l as [|y l IH]; intros prev; simpl; [tauto|].
  rewrite IH. tauto.
Qed.

End Links.

Lemma links_lt (P : nat -> nat -> Prop) prev l last :
  (forall j i, P j i -> (j < i)%nat) ->
  links P prev l last ->
  (prev < last)%nat /\ Forall (fun p => (prev < p < last)%nat) l.
Proof.
  intros HP. revert prev. induction l as [|y l IH]; intros prev; simpl.
  - intros H. split; [auto | constructor].
  - intros [H1 H2]. apply HP in H1. destruct (IH _ H2) as [H3 H4]. split; [lia|].
    constructor; [lia|]. eapply Forall_impl; [exact H4|].
    simpl. intros p Hp. lia.
Qed.

(** ** Sublists and increasing positions

    Position [p >= 1] of a list stands for its element of index [p - 1],
    the way node [p] of the planner stands for station [p - 1]. *)

Lemma nodes_sublist {A} (l : list A) (nodes : list nat) (chosen : list A) prev last :
  links lt prev nodes last ->
  Forall2 (fun p a => l !! (p - 1)%nat = Some a) nodes chosen ->
  chosen `sublist_of` drop prev l.
Proof.
  intros Hl HF. revert prev Hl.
  induction HF as [|p a nodes chosen Hpa HF IH]; intros prev Hl.
  - apply sublist_nil_l.
  - simpl in Hl. destruct Hl as [Hlt Hl].
    specialize (IH p Hl).
    assert (Hdrop : drop (p - 1) l = a :: drop p l).
    { rewrite (drop_S l a (p - 1) Hpa). f_equal. f_equal. lia. }
    assert (Hsub : (a :: chosen) `sublist_of` drop (p - 1) l).
    { rewrite Hdrop. now apply sublist_skip. }
    etransitivity; [exact Hsub|].
    replace (p - 1)%nat with (prev + (p - 1 - prev))%nat by lia.
    rewrite <- drop_drop. apply sublist_drop.
Qed.

Lemma lookup_shift {A} (x : A) (l : list A) (nodes : list nat) (alt : list A) :
  Forall2 (fun p a => l !! (p - 1)%nat = Some a) nodes alt ->
  Forall (fun p => (0 < p < S (length l))%nat) nodes ->
  Forall2 (fun p a => (x :: l) !! (p - 1)%nat = Some a) (map S nodes) alt.
Proof.
  induction 1 as [|p a nodes alt Hpa HF IHF]; intros Hpos; [constructor|].
  apply Forall_cons in Hpos as [Hp Hpos].
  simpl. constructor; [|auto].
  replace (S p - 1)%nat with (S (p - 1)) by lia. exact Hpa.
Qed.

Lemma sublist_nodes {A} (alt l : list A) :
  alt `sublist_of` l ->
  exists nodes,
    Forall2 (fun p a => l !! (p - 1)%nat = Some a) nodes alt /\
    links lt 0%nat nodes (S (length l)).
Proof.
  induction 1 as [|x alt l Hsub IH|x alt l Hsub IH].
  - exists []. split; [constructor | simpl; lia].
  - destruct IH as (nodes & HF & Hl).
    assert (Hpos : Forall (fun p => (0 < p < S (length l))%nat) nodes).
    { eapply links_lt; [|exact Hl]. auto. }
    exists (1%nat :: map S nodes). split.
    + constructor; [reflexivity|]. now apply lookup_shift.
    + simpl.
      assert (Hl' : links lt 1%nat (map S nodes) (S (S (length l)))).
      { apply (links_map S lt 0%nat nodes (S (length l))).
        eapply links_impl; [|exact Hl]. simpl. intros; lia. }
      destruct nodes as [|p nodes]; simpl in *; [lia|].
      split; [lia|]. tauto.
  - destruct IH as (nodes & HF & Hl).
    assert (Hpos : Forall (fun p => (0 < p < S (length l))%nat) nodes).
    { eapply links_lt; [|exact Hl]. auto. }
    exists (map S nodes). split.
    + now apply lookup_shift.
    + simpl.
      assert (Hl' : links lt 1%nat (map S nodes) (S (S (length l)))).
      { apply (links_map S lt 0%nat nodes (S (length l))).
        eapply links_impl; [|exact Hl]. simpl. intros; lia. }
      eapply links_head; [|exact Hl']. simpl. intros; lia.
Qed.

Section GraphFacts.

Variable route_distance : Q.
Variable on_route_stations : list on_route.

Local Abbreviation n := (length on_route_stations).
Local Abbreviation pos := (node_pos route_distance on_route_stations).
Local Abbreviation fee := (node_cost on_route_stations).
Local Abbreviation reach := (edge route_distance on_route_stations).
Local Abbreviation settled := (node_ok route_distance on_route_stations).
Local Abbreviation table_inv := (table_inv route_distance on_route_stations).
Local Abbreviation trail := (trail route_distance on_route_stations).
Local Abbreviation dp_link := (dp_link route_distance on_route_stations).

Lemma node_ok_agree dp parent dp' parent' m k :
  (m <= k)%nat ->
  (forall j, (j <= k)%nat -> dp' !! j = dp !! j /\ parent' !! j = parent !! j) ->
  settled dp parent m k -> settled dp' parent' m k.
Proof.
  intros Hm Hag. unfold settled.
  destruct (Hag k (Nat.le_refl k)) as [-> ->].
  destruct (dp !! k) as [[c|]|]; [| |tauto].
  - intros (p & cp & Hp & Hpm & He & Hdp & Hc & Hmin & Hfst).
    exists p, cp. repeat split; try assumption.
    + rewrite (proj1 (Hag p ltac:(lia))). assumption.
    + intros j cj Hj Hej Hdj. apply (Hmin j cj Hj Hej).
      rewrite <- (proj1 (Hag j ltac:(lia))). assumption.
    + intros j cj Hj Hej Hdj. apply (Hfst j cj Hj Hej).
      rewrite <- (proj1 (Hag j ltac:(lia))). assumption.
  - intros [Hp Hall]. split; [assumption|].
    intros j Hj Hej. rewrite (proj1 (Hag j ltac:(lia))). now apply Hall.
Qed.

(** One iteration of the inner loop, in closed form. *)
Lemma relax_closed i j dp parent dj di :
  (j < i)%nat -> (i <= n + 1)%nat ->
  length dp = (n + 2)%nat -> length parent = (n + 2)%nat ->
  dp !! j = Some dj -> dp !! i = Some di ->
  relax on_route_stations n i (pos i) (dp, parent) j =
  Ok (if Qltb VEHICLE_RANGE_MILES (float_sub (pos i) (pos j)) then (dp, parent)
      else if fltb (fadd dj (Fin (fee i))) di
           then (<[i:=fadd dj (Fin (fee i))]> dp, <[i:=Z.of_nat j]> parent)
           else (dp, parent)).
Proof.
  intros Hji Hin Hldp Hlpar Hdj Hdi. unfold relax.
  assert (Hprev : (if decide (j = START_IDX) then Ok 0
                   else st ← getitem on_route_stations (j - 1); Ok (snd st))
                  = Ok (pos j)).
  { unfold pos, chainage_at, START_IDX, END_IDX.
    destruct (decide (j = 0%nat)) as [->|Hj0]; [reflexivity|].
    rewrite (decide_False (P := j = (n + 1)%nat)) by lia.
    destruct (lookup_lt_is_Some_2 on_route_stations (j - 1)) as [st Hst];
      [lia|].
    rewrite (getitem_Some _ _ _ Hst), Hst. reflexivity. }
  rewrite Hprev. simpl.
  destruct (Qltb VEHICLE_RANGE_MILES (float_sub (pos i) (pos j))); [reflexivity|].
  assert (Hcost : (if decide (i = END_IDX n) then Ok 0
                   else st ← getitem on_route_stations (i - 1);
                        Ok (float_mul (float_div VEHICLE_RANGE_MILES FUEL_EFFICIENCY_MPG)
                                      (FuelStation.retail_price (fst st))))
                  = Ok (fee i)).
  { unfold fee, refuel_cost_at, END_IDX.
    destruct (decide (i = (n + 1)%nat)) as [->|Hie]; [reflexivity|].
    destruct (lookup_lt_is_Some_2 on_route_stations (i - 1)) as [st Hst];
      [lia|].
    rewrite (getitem_Some _ _ _ Hst), Hst. reflexivity. }
  rewrite Hcost. simpl.
  rewrite (getitem_Some _ _ _ Hdj). simpl.
  rewrite (getitem_Some _ _ _ Hdi). simpl.
  destruct (fltb (fadd dj (Fin (fee i))) di); [|reflexivity].
  rewrite setitem_lt by lia. simpl.
  rewrite setitem_lt by lia. reflexivity.
Qed.

Lemma fltb_Fin_l x y : fltb x y = true -> exists a, x = Fin a.
Proof. destruct x as [a|]; [eauto | discriminate]. Qed.

(** The inner loop [for j in range(m)] on row [i], for [m <= i]. *)
Lemma inner_loop i m dp parent :
  (1 <= i <= n + 1)%nat -> (m <= i)%nat ->
  table_inv i dp parent ->
  exists dp' parent',
    for_each (relax on_route_stations n i (pos i)) (dp, parent) (seq 0 m)
      = Ok (dp', parent') /\
    length dp' = (n + 2)%nat /\ length parent' = (n + 2)%nat /\
    (forall k, k <> i -> dp' !! k = dp !! k /\ parent' !! k = parent !! k) /\
    settled dp' parent' m i.
Proof.
  intros Hi Hm Hinv. induction m as [|m IH].
  - exists dp, parent. simpl. repeat split; try apply Hinv.
    unfold settled.
    destruct (inv_todo Hinv i ltac:(lia)) as [-> ->].
    split; [reflexivity | intros; lia].
  - destruct IH as (dp' & parent' & Hrun & Hl1 & Hl2 & Hsame & Hok); [lia|].
    rewrite seq_S, for_each_app, Hrun, Nat.add_0_l.
    change (exists dp'0 parent'0,
      (s' ← relax on_route_stations n i (pos i) (dp', parent') m; Ok s')
        = Ok (dp'0, parent'0) /\
      length dp'0 = (n + 2)%nat /\ length parent'0 = (n + 2)%nat /\
      (forall k, k <> i -> dp'0 !! k = dp !! k /\ parent'0 !! k = parent !! k) /\
      settled dp'0 parent'0 (S m) i).
    destruct (lookup_lt_is_Some_2 dp' m) as [dj Hdj]; [lia|].
    destruct (lookup_lt_is_Some_2 dp' i) as [di Hdi]; [lia|].
    rewrite (relax_closed i m dp' parent' dj di) by (assumption || lia).
    ok_step.
    destruct (Qltb VEHICLE_RANGE_MILES (float_sub (pos i) (pos m))) eqn:Hfar.
    { (* out of range: [continue] *)
      exists dp', parent'. repeat split; try assumption; try apply Hsame; trivial.
      apply Qltb_true in Hfar.
      assert (Hne : forall j, (j < S m)%nat -> reach j i -> (j < m)%nat).
      { intros j Hj He. destruct (decide (j = m)) as [->|]; [|lia].
        unfold reach in He. exfalso. eapply Qlt_not_le; eassumption. }
      revert Hok. unfold settled. rewrite Hdi. destruct di as [c|].
      - intros (p & cp & H1 & H2 & H3 & H4 & H5 & H6 & H7).
        exists p, cp. repeat split; try assumption; [lia|].
        intros j cj Hj He. apply H6; auto.
      - intros [H1 H2]. split; [assumption|]. intros j Hj He. apply H2; auto. }
    apply Qltb_false in Hfar.
    destruct (fltb (fadd dj (Fin (fee i))) di) eqn:Hlt.
    { (* improvement: [dp[i]] and [parent[i]] are overwritten *)
      destruct (fltb_Fin_l _ _ Hlt) as [c Hc].
      destruct dj as [cj|]; [|discriminate]. simpl in Hc. inversion Hc; subst c.
      simpl in Hlt.
      eexists _, _. split; [reflexivity|].
      rewrite !length_insert. repeat split; try assumption.
      { rewrite list_lookup_insert_ne by congruence. now apply Hsame. }
      { rewrite list_lookup_insert_ne by congruence. now apply Hsame. }
      unfold settled. simpl. rewrite list_lookup_insert_eq by lia.
      exists m, cj. rewrite list_lookup_insert_eq by lia.
      rewrite list_lookup_insert_ne by lia.
      assert (Hbefore : forall j cj', (j < m)%nat -> reach j i ->
                          dp' !! j = Some (Fin cj') ->
                          float_add cj (fee i) < float_add cj' (fee i)).
      { intros j cj' Hj He Hdj'.
        revert Hok. unfold settled. rewrite Hdi. destruct di as [c0|].
        + intros (p & cp & H1 & H2 & H3 & H4 & H5 & H6 & H7).
          apply Qltb_true in Hlt.
          specialize (H6 j cj' ltac:(lia) He Hdj'). lra.
        + intros [_ H2]. rewrite (H2 j ltac:(lia) He) in Hdj'. discriminate. }
      repeat split; try assumption; try lia; try reflexivity.
      - intros j cj' Hj He. rewrite list_lookup_insert_ne by lia. intros Hdj'.
        destruct (decide (j = m)) as [->|Hjm].
        + rewrite Hdj in Hdj'. inversion Hdj'; subst. apply Qle_refl.
        + apply Qlt_le_weak. apply (Hbefore j cj'); [lia|assumption..].
      - intros j cj' Hj He. rewrite list_lookup_insert_ne by lia. intros Hdj'.
        now apply (Hbefore j cj'). }
    (* no improvement *)
    exists dp', parent'. repeat split; try assumption; try apply Hsame; trivial.
    revert Hok. unfold settled. rewrite Hdi. destruct di as [c0|].
    + intros (p & cp & H1 & H2 & H3 & H4 & H5 & H6 & H7).
      exists p, cp. repeat split; try assumption; [lia|].
      intros j cj' Hj He Hdj'.
      destruct (decide (j = m)) as [->|Hjm]; [|apply (H6 j cj'); auto; lia].
      rewrite Hdj in Hdj'. inversion Hdj'; subst dj.
      simpl in Hlt. now apply Qltb_false in Hlt.
    + intros [H1 H2]. split; [assumption|]. intros j Hj He.
      destruct (decide (j = m)) as [->|Hjm]; [|apply H2; auto; lia].
      rewrite Hdj. destruct dj as [cj|]; [discriminate|reflexivity].
Qed.

(** One iteration of the outer loop. *)
Lemma dp_row_inv i dp parent :
  (1 <= i <= n + 1)%nat ->
  table_inv i dp parent ->
  exists dp' parent',
    dp_row route_distance on_route_stations n (dp, parent) i = Ok (dp', parent') /\
    table_inv (S i) dp' parent'.
Proof.
  intros Hi Hinv. unfold dp_row.
  assert (Hcur : (if decide (i = END_IDX n) then Ok route_distance
                  else st ← getitem on_route_stations (i - 1); Ok (snd st))
                 = Ok (pos i)).
  { unfold pos, chainage_at, START_IDX, END_IDX.
    rewrite (decide_False (P := i = 0%nat)) by lia.
    destruct (decide (i = (n + 1)%nat)) as [->|Hie]; [reflexivity|].
    destruct (lookup_lt_is_Some_2 on_route_stations (i - 1)) as [st Hst];
      [lia|].
    rewrite (getitem_Some _ _ _ Hst), Hst. reflexivity. }
  rewrite Hcur. simpl.
  destruct (inner_loop i i dp parent Hi (Nat.le_refl i) Hinv)
    as (dp' & parent' & Hrun & Hl1 & Hl2 & Hsame & Hok).
  exists dp', parent'. split; [assumption|].
  split; try assumption.
  - rewrite (proj1 (Hsame 0%nat ltac:(lia))). apply Hinv.
  - rewrite (proj2 (Hsame 0%nat ltac:(lia))). apply Hinv.
  - intros k Hk. destruct (Hsame k ltac:(lia)) as [-> ->].
    apply (inv_todo Hinv). lia.
  - intros k Hk. destruct (decide (k = i)) as [->|Hki]; [assumption|].
    apply (node_ok_agree dp parent); [lia| |apply Hinv; lia].
    intros j Hj. apply Hsame. lia.
Qed.

(** The outer loop, and the finished table. *)
Lemma outer_loop i len dp parent :
  (1 <= i)%nat -> (i + len = n + 2)%nat ->
  table_inv i dp parent ->
  exists dp' parent',
    for_each (dp_row route_distance on_route_stations n) (dp, parent) (seq i len)
      = Ok (dp', parent') /\
    table_inv (n + 2) dp' parent'.
Proof.
  revert i dp parent. induction len as [|len IH]; intros i dp parent Hi Hlen Hinv.
  - exists dp, parent. split; [reflexivity|].
    replace (n + 2)%nat with i by lia. assumption.
  - simpl.
    destruct (dp_row_inv i dp parent ltac:(lia) Hinv) as (dp1 & parent1 & -> & Hinv1).
    simpl. apply IH; [lia | lia | assumption].
Qed.

Lemma build_table_inv :
  exists dp parent,
    build_table route_distance on_route_stations = Ok (dp, parent) /\
    table_inv (n + 2) dp parent.
Proof.
  unfold build_table.
  rewrite setitem_lt by (rewrite length_replicate; unfold START_IDX; lia).
  ok_step.
  apply outer_loop; [lia | lia |].
  split.
  - rewrite length_insert, length_replicate. reflexivity.
  - apply length_replicate.
  - replace (n + 2)%nat with (S (n + 1)) by lia. reflexivity.
  - replace (n + 2)%nat with (S (n + 1)) by lia. reflexivity.
  - intros k Hk. unfold START_IDX.
    rewrite list_lookup_insert_ne by lia.
    rewrite !lookup_replicate_2 by lia. split; reflexivity.
  - intros k Hk. lia.
Qed.

Lemma backtrack_trail dp parent :
  table_inv (n + 2) dp parent ->
  forall k c fuel acc,
    (1 <= k <= n + 1)%nat -> dp !! k = Some (Fin c) -> (k < fuel)%nat ->
    exists path,
      backtrack fuel parent n (Z.of_nat k) acc = Ok (acc ++ map station_index path) /\
      trail dp parent k c path.
Proof.
  intros Hinv k. induction k as [k IH] using lt_wf_ind.
  intros c fuel acc Hk Hdk Hfuel.
  destruct fuel as [|fuel]; [lia|].
  pose proof (inv_done Hinv k ltac:(lia)) as Hok.
  unfold settled in Hok. rewrite Hdk in Hok.
  destruct Hok as (p & cp & Hpar & Hpk & He & Hdp & Hc & Hmin & Hfst).
  cbn [backtrack]. rewrite getitem_z_nat, (getitem_Some _ _ _ Hpar).
  ok_step.
  rewrite (decide_False (P := Z.of_nat p = (-1)%Z)) by lia.
  destruct (decide (p = 0%nat)) as [->|Hp0].
  - (* the parent is the start *)
    rewrite decide_False by (unfold START_IDX; intros [? ?]; lia).
    exists []. split.
    + destruct fuel as [|fuel]; [lia|].
      cbn [backtrack]. rewrite getitem_z_nat.
      rewrite (getitem_Some _ _ _ (inv_start_parent Hinv)).
      ok_step.
      rewrite decide_True by reflexivity. now rewrite app_nil_r.
    + apply trail_first; try assumption.
      rewrite (inv_start_dp Hinv) in Hdp. inversion Hdp; subst cp. exact Hc.
  - rewrite decide_True by (unfold START_IDX, END_IDX; split; lia).
    destruct (IH p Hpk cp fuel (acc ++ [(Z.of_nat p - 1)%Z]))
      as (path & Hrun & Htr); [lia | assumption | lia |].
    exists (p :: path). split.
    + rewrite Hrun. cbn [map]. now rewrite <- app_assoc.
    + apply (trail_cons _ _ dp parent k c p cp path); try assumption; lia.
Qed.

Lemma node_pos_start : pos 0 = 0.
Proof. reflexivity. Qed.

Lemma node_pos_end : pos (n + 1) = route_distance.
Proof.
  unfold node_pos, START_IDX, END_IDX.
  rewrite decide_False by lia. now rewrite decide_True.
Qed.

Lemma node_cost_end : fee (n + 1) = 0.
Proof. unfold node_cost, END_IDX. now rewrite decide_True. Qed.

Lemma path_cost_from_snoc acc l k :
  path_cost_from on_route_stations acc (l ++ [k])
  = float_add (path_cost_from on_route_stations acc l) (fee k).
Proof. unfold path_cost_from. now rewrite foldl_snoc. Qed.

Lemma path_cost_from_le acc acc' l :
  acc <= acc' ->
  path_cost_from on_route_stations acc l <= path_cost_from on_route_stations acc' l.
Proof.
  revert acc acc'. induction l as [|p l IH]; intros acc acc' H; [exact H|].
  cbn [path_cost_from foldl]. apply IH. now apply float_add_le.
Qed.

Lemma path_cost_from_binary64 acc l :
  binary64 acc -> binary64 (path_cost_from on_route_stations acc l).
Proof.
  revert acc. induction l as [|p l IH]; intros acc H; [exact H|].
  cbn [path_cost_from foldl]. apply IH, float_add_binary64.
Qed.

Lemma node_cost_nonneg p :
  prices_nonneg on_route_stations -> 0 <= fee p.
Proof.
  intros Hpos. unfold node_cost, refuel_cost_at.
  destruct (decide (p = END_IDX n)); [apply Qle_refl|].
  destruct (on_route_stations !! (p - 1)%nat) as [st|] eqn:Hst; [|apply Qle_refl].
  assert (Hst' : 0 <= FuelStation.retail_price (fst st)).
  { unfold prices_nonneg in Hpos. rewrite Forall_forall in Hpos.
    apply Hpos. eapply list_elem_of_lookup_2. exact Hst. }
  unfold float_mul. rewrite float_gallons_range. apply b64_nonneg. lra.
Qed.

Lemma path_cost_from_nonneg acc nodes :
  prices_nonneg on_route_stations -> 0 <= acc ->
  0 <= path_cost_from on_route_stations acc nodes.
Proof.
  intros Hpos. revert acc. induction nodes as [|p nodes IH]; intros acc Hacc; [exact Hacc|].
  cbn [path_cost_from foldl]. apply IH. apply b64_nonneg.
  pose proof (node_cost_nonneg p Hpos). lra.
Qed.

(** Every finite entry of the finished table is a double. *)
Lemma dp_binary64 dp parent k c :
  table_inv (n + 2) dp parent -> dp !! k = Some (Fin c) -> binary64 c.
Proof.
  intros Hinv Hk.
  destruct (decide (k = 0%nat)) as [->|Hk0].
  { rewrite (inv_start_dp Hinv) in Hk. inversion Hk; subst c. apply binary64_0. }
  assert (Hlt : (k < n + 2)%nat).
  { rewrite <- (inv_len_dp Hinv). eapply lookup_lt_Some. exact Hk. }
  pose proof (inv_done Hinv k ltac:(lia)) as Hok.
  unfold node_ok in Hok. rewrite Hk in Hok.
  destruct Hok as (p & cp & _ & _ & _ & _ & Hc & _).
  rewrite Hc. apply float_add_binary64.
Qed.

(** One relaxation step read off the finished table. *)
Lemma dp_step dp parent j i cj :
  table_inv (n + 2) dp parent ->
  (j < i <= n + 1)%nat -> reach j i -> dp !! j = Some (Fin cj) ->
  exists c, dp !! i = Some (Fin c) /\ c <= float_add cj (fee i).
Proof.
  intros Hinv Hji He Hdj.
  pose proof (inv_done Hinv i ltac:(lia)) as Hok.
  unfold node_ok in Hok.
  destruct (dp !! i) as [[c|]|]; [| |contradiction].
  - destruct Hok as (p & cp & _ & _ & _ & _ & _ & Hmin & _).
    exists c. split; [reflexivity|]. apply (Hmin j cj); [lia|assumption..].
  - destruct Hok as [_ Hall]. rewrite (Hall j ltac:(lia) He) in Hdj. discriminate.
Qed.

(** [dp[k]] is a lower bound for the cost, added up from [dp[prev]] on,
    of every route from [prev] to [k]. *)
Lemma dag_lower_bound dp parent :
  table_inv (n + 2) dp parent ->
  forall nodes prev cprev k,
    (k <= n + 1)%nat -> dp !! prev = Some (Fin cprev) ->
    links (fun j i => (j < i)%nat /\ reach j i) prev nodes k ->
    exists c, dp !! k = Some (Fin c) /\
              c <= path_cost_from on_route_stations cprev (nodes ++ [k]).
Proof.
  intros Hinv nodes. induction nodes as [|p rest IH]; intros prev cprev k Hk Hprev.
  - simpl. intros [Hlt He].
    destruct (dp_step dp parent prev k cprev Hinv ltac:(lia) He Hprev) as (c & Hc & Hle).
    exists c. split; assumption.
  - simpl. intros [[Hlt He] Hrest].
    destruct (links_lt _ _ _ _ (fun j i H => proj1 H) Hrest) as [Hpk _].
    destruct (dp_step dp parent prev p cprev Hinv ltac:(lia) He Hprev) as (c1 & Hc1 & Hle1).
    destruct (IH p c1 k Hk Hc1 Hrest) as (c & Hc & Hle).
    exists c. split; [assumption|].
    eapply Qle_trans; [exact Hle|]. now apply path_cost_from_le.
Qed.

(** The node before [p] on its trail, and what [dp[p]] was computed from. *)
Lemma trail_parent dp parent p cp path :
  table_inv (n + 2) dp parent -> trail dp parent p cp path ->
  exists cq, (hd 0%nat path < p)%nat /\ reach (hd 0%nat path) p /\
             dp !! hd 0%nat path = Some (Fin cq) /\
             cp == float_add cq (fee p).
Proof.
  intros Hinv Htr. inversion Htr; subst.
  - exists 0. repeat split; try assumption; [simpl; lia | apply Hinv].
  - match goal with
    | H : trail _ _ ?q ?cq _ |- _ => exists cq; inversion H; subst
    end; repeat split; try assumption; simpl; lia.
Qed.

Lemma last_cons_default {A} (x d : A) (l : list A) :
  List.last (x :: l) d = List.last l x.
Proof.
  revert x d. induction l as [|y l IH]; intros x d; [reflexivity|].
  change (List.last (x :: y :: l) d) with (List.last (y :: l) d).
  rewrite IH. symmetry. apply IH.
Qed.

Lemma skips_snoc {A} (P : A -> A -> Prop) prev l x last :
  skips P prev l x -> P (List.last l prev) last -> skips P prev (l ++ [x]) last.
Proof.
  revert prev. induction l as [|y l IH]; intros prev.
  - simpl. tauto.
  - rewrite last_cons_default. cbn [skips app]. intros [H1 H2] H3. split.
    + destruct l; assumption.
    + now apply IH.
Qed.

Lemma last_rev_hd {A} (l : list A) (d : A) : List.last (rev l) d = hd d l.
Proof.
  destruct l as [|x l]; [reflexivity|]. simpl. apply last_last.
Qed.

(** The trail of [k] is a route through the DAG and [dp[k]] is its cost.
    When no price is negative, no node of the trail can be skipped: a
    node that the one before its parent reaches would have been entered
    from there, the earlier candidate being at least as cheap. *)
Lemma trail_links dp parent k c path :
  table_inv (n + 2) dp parent -> trail dp parent k c path ->
  links dp_link 0%nat (rev path) k /\
  c == path_cost_from on_route_stations 0 (rev path ++ [k]) /\
  (prices_nonneg on_route_stations ->
   skips (no_shortcut route_distance on_route_stations) 0%nat (rev path) k).
Proof.
  intros Hinv Htr. induction Htr as [k c Hk Hdk Hpar He Hc
    | k c p cp path Hk Hdk Hpar Hp He Hc Hmin Hfst Htr IH].
  - simpl. split; [|split; [exact Hc|trivial]].
    repeat split; [lia | assumption | intros; lia].
  - destruct IH as (IH1 & IH2 & IH3).
    destruct (trail_parent _ _ _ _ _ Hinv Htr) as (cq & Hq & Heq & Hdq & Hcp).
    assert (Hskip : prices_nonneg on_route_stations -> ~ reach (hd 0%nat path) k).
    { intros Hpos Heqk.
      specialize (Hfst _ cq Hq Heqk Hdq).
      apply (Qlt_not_le _ _ Hfst). rewrite Hc. apply float_add_le.
      rewrite Hcp. apply b64_add_nonneg; [|now apply node_cost_nonneg].
      eapply dp_binary64; eassumption. }
    simpl. split; [|split].
    + apply links_snoc. split; [assumption|].
      repeat split; [lia | assumption |].
      intros Hpos Hp1.
      apply Qnot_le_lt. intros Hback. apply (Hskip Hpos).
      unfold edge in *. eapply Qle_trans; [|exact Heq].
      apply b64_le. lra.
    + rewrite path_cost_from_snoc, <- IH2. exact Hc.
    + intros Hpos. apply skips_snoc; [now apply IH3|].
      rewrite last_rev_hd. now apply Hskip.
Qed.

(** When the destination is within range of the start and no price is
    negative, the first candidate [j = START_IDX] is never improved on. *)
Lemma trail_direct dp parent c path :
  table_inv (n + 2) dp parent -> prices_nonneg on_route_stations ->
  reach 0 (n + 1) -> trail dp parent (n + 1) c path -> path = [].
Proof.
  intros Hinv Hpos He Htr.
  inversion Htr as [|k c' p cp path' Hk Hdk Hpar Hp Hep Hc Hmin Hfst Htr']; subst;
    [reflexivity|exfalso].
  specialize (Hfst 0%nat 0 ltac:(lia) He (inv_start_dp Hinv)).
  destruct (trail_links dp parent _ _ _ Hinv Htr') as (_ & Hcp & _).
  pose proof (path_cost_from_nonneg 0 (rev path' ++ [p]) Hpos (Qle_refl 0)) as Hnn.
  rewrite <- Hcp in Hnn.
  rewrite node_cost_end in Hc, Hfst.
  assert (E0 : float_add 0 0 == 0) by reflexivity.
  rewrite E0 in Hfst. rewrite Hc in Hfst.
  pose proof (b64_nonneg (cp + 0) ltac:(lra)) as H0. unfold float_add in Hfst. lra.
Qed.

(** ** From nodes to stations *)

Lemma station_index_nat p : (1 <= p)%nat -> station_index p = Z.of_nat (p - 1).
Proof. unfold station_index. lia. Qed.

Lemma stations_at_nodes nodes :
  Forall (fun p => (1 <= p <= n)%nat) nodes ->
  exists chosen,
    stations_at on_route_stations (map station_index nodes) = Ok chosen /\
    stations_of_nodes on_route_stations nodes chosen.
Proof.
  intros Hb. unfold stations_at.
  enough (forall acc, exists chosen,
    for_each (fun chosen idx =>
                st ← getitem_z on_route_stations idx; Ok (chosen ++ [st]))
             acc (map station_index nodes) = Ok (acc ++ chosen) /\
    stations_of_nodes on_route_stations nodes chosen) as H by apply (H []).
  induction Hb as [|p nodes Hp Hb IH]; intros acc.
  - exists []. simpl. rewrite app_nil_r. split; [reflexivity | constructor].
  - destruct (lookup_lt_is_Some_2 on_route_stations (p - 1)) as [st Hst]; [lia|].
    destruct (IH (acc ++ [st])) as (chosen & Hrun & HF).
    exists (st :: chosen). split; [|constructor; assumption].
    cbn [map for_each].
    rewrite station_index_nat, getitem_z_nat, (getitem_Some _ _ _ Hst) by lia.
    ok_step. ok_step.
    rewrite Hrun. now rewrite <- app_assoc.
Qed.

Lemma nodes_chainage nodes chosen :
  Forall (fun p => (1 <= p <= n)%nat) nodes ->
  stations_of_nodes on_route_stations nodes chosen ->
  map snd chosen = map pos nodes.
Proof.
  intros Hb HF. induction HF as [|p st nodes chosen Hst HF IH]; [reflexivity|].
  apply Forall_cons in Hb as [Hp Hb]. simpl. f_equal; [|auto].
  unfold node_pos, chainage_at, START_IDX, END_IDX.
  rewrite !decide_False by lia. now rewrite Hst.
Qed.

Lemma nodes_cost nodes chosen :
  Forall (fun p => (1 <= p <= n)%nat) nodes ->
  stations_of_nodes on_route_stations nodes chosen ->
  float_plan_cost chosen = path_cost on_route_stations nodes.
Proof.
  intros Hb HF. unfold float_plan_cost, path_cost, path_cost_from. generalize 0.
  induction HF as [|p st nodes chosen Hst HF IH]; intros acc; [reflexivity|].
  apply Forall_cons in Hb as [Hp Hb]. cbn [foldl]. rewrite (IH Hb). do 2 f_equal.
  unfold node_cost, refuel_cost_at, END_IDX.
  rewrite decide_False by lia. now rewrite Hst.
Qed.

(** ** The result of the DP, case by case *)

Lemma dp_path_indices_cases :
  (dp_path_indices route_distance on_route_stations = Ok None /\
   forall nodes, ~ dag_path route_distance on_route_stations nodes (n + 1)) \/
  (exists nodes,
     dp_path_indices route_distance on_route_stations
       = Ok (Some (map station_index nodes)) /\
     links dp_link 0%nat nodes (n + 1)%nat /\
     (forall alt, dag_path route_distance on_route_stations alt (n + 1) ->
                  path_cost on_route_stations nodes
                  <= path_cost on_route_stations alt) /\
     (prices_nonneg on_route_stations ->
      skips (no_shortcut route_distance on_route_stations) 0%nat nodes (n + 1)%nat) /\
     (prices_nonneg on_route_stations -> reach 0 (n + 1) -> nodes = [])).
Proof.
  destruct build_table_inv as (dp & parent & Hbuild & Hinv).
  unfold dp_path_indices. rewrite Hbuild.
  ok_step. cbv iota.
  destruct (lookup_lt_is_Some_2 dp (n + 1)) as [de Hde];
    [rewrite (inv_len_dp Hinv); lia|].
  unfold END_IDX. rewrite (getitem_Some _ _ _ Hde).
  ok_step.
  destruct de as [c|]; simpl is_inf; cbv iota.
  - right.
    destruct (backtrack_trail dp parent Hinv (n + 1) c (n + 2) [])
      as (path & Hrun & Htr); [lia | assumption | lia |].
    destruct (trail_links dp parent _ _ _ Hinv Htr) as (Hlinks & Hcost & Hskips).
    assert (Hend : forall l, path_cost_from on_route_stations 0 (l ++ [(n + 1)%nat])
                             == path_cost on_route_stations l).
    { intros l. rewrite path_cost_from_snoc, node_cost_end.
      apply float_add_0_r, path_cost_from_binary64, binary64_0. }
    exists (rev path). split; [|split; [assumption|split; [|split; [assumption|]]]].
    + unfold END_IDX in Hrun. rewrite Hrun.
      ok_step.
      now rewrite app_nil_l, map_rev.
    + intros alt Halt.
      destruct (dag_lower_bound dp parent Hinv alt 0%nat 0 (n + 1)
                  ltac:(lia) (inv_start_dp Hinv) Halt) as (c' & Hc' & Hle).
      rewrite Hde in Hc'. inversion Hc'; subst c'.
      rewrite Hend in Hcost, Hle. now rewrite <- Hcost.
    + intros Hpos He.
      now rewrite (trail_direct dp parent c path Hinv Hpos He Htr).
  - left. split; [reflexivity|].
    intros nodes Hnodes.
    destruct (dag_lower_bound dp parent Hinv nodes 0%nat 0 (n + 1)
                ltac:(lia) (inv_start_dp Hinv) Hnodes) as (c' & Hc' & _).
    rewrite Hde in Hc'. discriminate.
Qed.

End GraphFacts.

(** ** Stops and the stations behind them *)

Lemma build_stops_stations_at (on_route_stations : list on_route) (path_indices : list Z) :
  build_stops on_route_stations path_indices
  = res_map (map stop_of) (stations_at on_route_stations path_indices).
Proof.
  unfold build_stops, stations_at.
  enough (forall acc,
    for_each (fun optimal_stops idx =>
                st ← getitem_z on_route_stations idx;
                Ok (optimal_stops ++ [make_stop (fst st) (snd st)]))
             (map stop_of acc) path_indices
    = res_map (map stop_of)
        (for_each (fun chosen idx =>
                     st ← getitem_z on_route_stations idx; Ok (chosen ++ [st]))
                  acc path_indices)) as H by apply (H []).
  induction path_indices as [|idx idxs IH]; intros acc; [reflexivity|].
  cbn [for_each].
  destruct (getitem_z on_route_stations idx) as [st|e]; [|reflexivity].
  ok_step. ok_step.
  rewrite <- IH. now rewrite map_app.
Qed.

(** On floats the greedy pass decides as the difference of the values
    does: the previous stop is at 0.0 or at 450 miles or more, where the
    doubles are multiples of [2^-44], and so is 450. *)
Lemma greedy_fallback_on_floats (on_route_stations : list on_route) :
  Forall (fun st => binary64 (snd st)) on_route_stations ->
  foldl float_greedy_step ([], VEHICLE_RANGE_MILES, 0) on_route_stations
  = foldl greedy_step ([], VEHICLE_RANGE_MILES, 0) on_route_stations.
Proof.
  intros Hall.
  enough (forall stops prev,
    prev = 0 \/ (450 <= prev /\ binary64 prev) ->
    foldl float_greedy_step (stops, VEHICLE_RANGE_MILES, prev) on_route_stations
    = foldl greedy_step (stops, VEHICLE_RANGE_MILES, prev) on_route_stations) as H.
  { apply H. now left. }
  induction Hall as [|[station chainage] l Hc Hall IH]; intros stops prev Hprev;
    [reflexivity|].
  cbn [snd] in Hc. cbn [foldl float_greedy_step greedy_step].
  assert (Hgap : VEHICLE_RANGE_MILES - 50 == 450) by reflexivity.
  assert (Hiff : VEHICLE_RANGE_MILES - 50 <= float_sub chainage prev <->
                 VEHICLE_RANGE_MILES - 50 <= chainage - prev).
  { rewrite Hgap. unfold float_sub. split.
    - intros H. destruct Hprev as [-> | [H450 Hb]].
      + assert (E : b64 (chainage - 0) == chainage).
        { transitivity (b64 chainage); [apply b64_comp; ring | exact Hc]. }
        rewrite E in H. lra.
      + apply binary64_gap_450; [assumption | assumption | lra | exact H].
    - intros H. assert (E : b64 450 == 450) by reflexivity.
      rewrite <- E. now apply b64_le. }
  destruct (Qle_bool (VEHICLE_RANGE_MILES - 50) (float_sub chainage prev)) eqn:Hf;
    destruct (Qle_bool (VEHICLE_RANGE_MILES - 50) (chainage - prev)) eqn:He.
  - apply IH. apply Qle_bool_iff in He. rewrite Hgap in He.
    destruct Hprev as [-> | [H450 Hb]]; right; (split; [lra | exact Hc]).
  - apply Qle_bool_iff, Hiff, Qle_bool_iff in Hf. congruence.
  - apply Qle_bool_iff, Hiff, Qle_bool_iff in He. congruence.
  - now apply IH.
Qed.

Lemma greedy_fold (l : list on_route) (chosen : list on_route) (cr prev : Q) :
  foldl greedy_step (map stop_of chosen, cr, prev) l
  = (let '(ch, cr', prev') := foldl greedy_select_step (chosen, cr, prev) l in
     (map stop_of ch, cr', prev')).
Proof.
  revert chosen cr prev. induction l as [|[station chainage] l IH]; intros chosen cr prev.
  - reflexivity.
  - cbn [foldl]. unfold greedy_step at 2, greedy_select_step at 2. cbn [snd].
    destruct (Qle_bool (cr - 50) (chainage - prev)); [|apply IH].
    rewrite <- IH. now rewrite map_app.
Qed.

Lemma greedy_fallback_selected (route_distance : Q) (on_route_stations : list on_route) :
  _greedy_fallback route_distance on_route_stations
  = map stop_of (greedy_selected on_route_stations).
Proof.
  unfold _greedy_fallback, greedy_selected.
  change (@nil OptimizedFuelStop.t) with (map stop_of []).
  rewrite (greedy_fold on_route_stations [] VEHICLE_RANGE_MILES 0).
  now destruct (foldl greedy_select_step ([], VEHICLE_RANGE_MILES, 0) on_route_stations)
    as [[ch cr] prev].
Qed.

Lemma find_optimal_stops_selected (route_distance : Q) (on_route_stations : list on_route) :
  _find_optimal_stops_dp route_distance on_route_stations
  = res_map (map stop_of) (selected_stations route_distance on_route_stations).
Proof.
  unfold _find_optimal_stops_dp, selected_stations.
  destruct on_route_stations as [|st sts]; [reflexivity|].
  destruct (dp_path_indices route_distance (st :: sts)) as [[idxs|]|e]; try reflexivity.
  - apply build_stops_stations_at.
  - cbn. now rewrite greedy_fallback_selected.
Qed.

(** ** The greedy pass *)

Lemma spaced_snoc (gap prev c : Q) (l : list Q) :
  spaced gap prev (l ++ [c]) <-> spaced gap prev l /\ gap <= c - List.last l prev.
Proof.
  revert prev. induction l as [|x l IH]; intros prev.
  - simpl. tauto.
  - cbn [app spaced]. rewrite IH, last_cons_default. tauto.
Qed.

Lemma greedy_loop_inv (l : list on_route) :
  exists chosen,
    foldl greedy_select_step ([], VEHICLE_RANGE_MILES, 0) l
      = (chosen, VEHICLE_RANGE_MILES, List.last (map snd chosen) 0) /\
    spaced (VEHICLE_RANGE_MILES - 50) 0 (map snd chosen) /\
    chosen `sublist_of` l.
Proof.
  induction l as [|sc l IH] using rev_ind.
  - exists []. repeat split. reflexivity.
  - destruct IH as (chosen & Hrun & Hsp & Hsub).
    rewrite foldl_app, Hrun. cbn [foldl]. unfold greedy_select_step.
    destruct (Qle_bool (VEHICLE_RANGE_MILES - 50) (snd sc - List.last (map snd chosen) 0)) eqn:Hc.
    + exists (chosen ++ [sc]). rewrite map_app. cbn [map]. split; [|split].
      * now rewrite List.last_last.
      * apply spaced_snoc. split; [assumption|]. now apply Qle_bool_iff.
      * now apply sublist_app.
    + exists chosen. repeat split; try assumption.
      apply sublist_inserts_r. assumption.
Qed.

Lemma greedy_selected_none (l : list on_route) :
  Forall (fun st => snd st < VEHICLE_RANGE_MILES - 50) l -> greedy_selected l = [].
Proof.
  intros Hall. unfold greedy_selected.
  enough (foldl greedy_select_step ([], VEHICLE_RANGE_MILES, 0) l
          = ([], VEHICLE_RANGE_MILES, 0)) as -> by reflexivity.
  induction Hall as [|sc l Hsc Hall IH]; [reflexivity|].
  cbn [foldl]. unfold greedy_select_step at 2.
  replace (Qle_bool (VEHICLE_RANGE_MILES - 50) (snd sc - 0)) with false; [exact IH|].
  symmetry. apply not_true_iff_false. rewrite Qle_bool_iff. lra.
Qed.

(** ** Plans of the DP and their alternatives *)

Lemma skips_impl {A} (P R : A -> A -> Prop) prev l last :
  (forall a b, P a b -> R a b) -> skips P prev l last -> skips R prev l last.
Proof.
  intros HPR. revert prev. induction l as [|x l IH]; intros prev; simpl; [trivial|].
  intros [H1 H2]. split; [now apply HPR | now apply IH].
Qed.

Lemma skips_map {A B} (f : B -> A) (P : A -> A -> Prop) prev l last :
  skips P (f prev) (map f l) (f last) <-> skips (fun a b => P (f a) (f b)) prev l last.
Proof.
  revert prev. induction l as [|x l IH]; intros prev; simpl; [tauto|].
  rewrite IH. destruct l; simpl; tauto.
Qed.

Lemma map_delete {A B} (f : A -> B) (l : list A) (i : nat) :
  map f (delete i l) = delete i (map f l).
Proof.
  revert i. induction l as [|x l IH]; intros [|i]; simpl; try reflexivity.
  now rewrite IH.
Qed.

(** Where no element can be skipped, the sequence without one of its
    elements is not linked. *)
Lemma skips_delete {A} (P R : A -> A -> Prop) prev l last i :
  (forall a b, P a b -> ~ R a b) ->
  skips P prev l last -> (i < length l)%nat -> ~ links R prev (delete i l) last.
Proof.
  intros HPR. revert prev i. induction l as [|x l IH]; intros prev i; simpl; [lia|].
  intros [H1 H2] Hi. destruct i as [|i]; simpl.
  - destruct l as [|y l]; simpl in *.
    + now apply HPR.
    + intros [H _]. revert H. now apply HPR.
  - intros [_ H]. revert H. apply IH; [assumption | lia].
Qed.

(** A leg within the range is measured within the range; a leg measured
    within the range exceeds it by at most half the spacing of the
    doubles around 500. *)
Lemma gaps_ok_float (prev : Q) (chainages : list Q) (last : Q) :
  gaps_ok prev chainages last -> float_gaps_ok prev chainages last.
Proof.
  apply links_impl. intros a b H. unfold float_sub. now apply b64_within_500.
Qed.

Lemma feasible_float (route_distance : Q) (stops : list on_route) :
  feasible route_distance stops -> float_feasible route_distance stops.
Proof. apply gaps_ok_float. Qed.

Lemma float_gaps_ok_slack (prev : Q) (chainages : list Q) (last : Q) :
  float_gaps_ok prev chainages last ->
  links (fun a b => b - a <= VEHICLE_RANGE_MILES + range_slack) prev chainages last.
Proof.
  apply links_impl. intros a b H. unfold float_sub in H. now apply b64_le_500.
Qed.

Section PlanFacts.

Variable route_distance : Q.
Variable on_route_stations : list on_route.

Local Abbreviation n := (length on_route_stations).
Local Abbreviation pos := (node_pos route_distance on_route_stations).
Local Abbreviation reach := (edge route_distance on_route_stations).
Local Abbreviation dp_link := (dp_link route_distance on_route_stations).

Lemma gaps_ok_nodes nodes chosen :
  Forall (fun p => (1 <= p <= n)%nat) nodes ->
  stations_of_nodes on_route_stations nodes chosen ->
  float_feasible route_distance chosen <-> links reach 0%nat nodes (n + 1)%nat.
Proof.
  intros Hb HF. unfold float_feasible, float_gaps_ok.
  rewrite (nodes_chainage route_distance on_route_stations nodes chosen Hb HF).
  pose proof (links_map pos (fun a b => float_sub b a <= VEHICLE_RANGE_MILES)
                0%nat nodes (n + 1)%nat) as H.
  rewrite node_pos_end in H. exact H.
Qed.

(** Every sublist of the stations whose legs the DP measures within the
    range is a route through the DAG. *)
Lemma sublist_dag_path alt :
  alt `sublist_of` on_route_stations -> float_feasible route_distance alt ->
  exists nodes,
    dag_path route_distance on_route_stations nodes (n + 1) /\
    float_plan_cost alt = path_cost on_route_stations nodes.
Proof.
  intros Hsub Hfeas.
  destruct (sublist_nodes alt on_route_stations Hsub) as (nodes & HF & Hlt).
  rewrite <- Nat.add_1_r in Hlt.
  assert (Hb : Forall (fun p => (1 <= p <= n)%nat) nodes).
  { destruct (links_lt lt 0%nat nodes (n + 1)%nat ltac:(auto) Hlt) as [_ Hb].
    eapply Forall_impl; [exact Hb|]. simpl. intros; lia. }
  exists nodes. split.
  - unfold dag_path. apply links_and; [assumption|].
    now apply (gaps_ok_nodes nodes alt Hb HF).
  - now apply nodes_cost.
Qed.

Lemma dp_link_sorted nodes prev :
  prices_nonneg on_route_stations ->
  links dp_link prev nodes (n + 1)%nat ->
  Sorted Qlt (map pos (prev :: nodes)) \/ prev = 0%nat /\ Sorted Qlt (map pos nodes).
Proof.
  intros Hpos. revert prev. induction nodes as [|p rest IH]; intros prev Hl.
  - left. simpl. repeat constructor.
  - simpl in Hl. destruct Hl as [(Hlt & _ & Hstrict) Hl].
    assert (Hs : Sorted Qlt (map pos (p :: rest))).
    { destruct (IH p Hl) as [H|[H _]]; [assumption | lia]. }
    destruct (decide (prev = 0%nat)) as [->|Hprev]; [right; auto|].
    left. cbn [map]. constructor; [assumption|].
    constructor. apply Hstrict; [assumption | lia].
Qed.

(** The stations on the path the DP found. *)
Lemma dp_links_chosen nodes :
  links dp_link 0%nat nodes (n + 1)%nat ->
  exists chosen,
    stations_at on_route_stations (map station_index nodes) = Ok chosen /\
    stations_of_nodes on_route_stations nodes chosen /\
    chosen `sublist_of` on_route_stations /\
    float_feasible route_distance chosen /\
    float_plan_cost chosen = path_cost on_route_stations nodes /\
    (prices_nonneg on_route_stations -> strictly_ascending_chainage chosen) /\
    (skips (no_shortcut route_distance on_route_stations) 0%nat nodes (n + 1)%nat ->
     no_stop_to_spare 0 (map snd chosen) route_distance).
Proof.
  intros Hl.
  assert (Hb : Forall (fun p => (1 <= p <= n)%nat) nodes).
  { destruct (links_lt dp_link 0%nat nodes (n + 1)%nat (fun j i H => proj1 H) Hl) as [_ Hb].
    eapply Forall_impl; [exact Hb|]. simpl. intros; lia. }
  destruct (stations_at_nodes on_route_stations nodes Hb) as (chosen & Hrun & HF).
  exists chosen.
  split; [assumption|]. split; [assumption|]. split; [|split; [|split; [|split]]].
  - rewrite <- (drop_0 on_route_stations).
    apply (nodes_sublist on_route_stations nodes chosen 0%nat (n + 1)%nat); [|assumption].
    eapply links_impl; [|exact Hl]. intros j i H. apply H.
  - apply (gaps_ok_nodes nodes chosen Hb HF).
    eapply links_impl; [|exact Hl]. intros j i H. apply H.
  - now apply nodes_cost.
  - intros Hpos. unfold strictly_ascending_chainage.
    rewrite (nodes_chainage route_distance on_route_stations nodes chosen Hb HF).
    apply Sorted_StronglySorted; [exact Qlt_trans|].
    destruct (dp_link_sorted nodes 0%nat Hpos Hl) as [H|[_ H]]; [|assumption].
    now inversion H.
  - intros Hsk. unfold no_stop_to_spare.
    rewrite (nodes_chainage route_distance on_route_stations nodes chosen Hb HF).
    pose proof (skips_map pos (fun a c => VEHICLE_RANGE_MILES < float_sub c a)
                  0%nat nodes (n + 1)%nat) as H.
    rewrite node_pos_end in H. apply H.
    eapply skips_impl; [|exact Hsk].
    intros a b Hab. apply Qnot_le_lt. exact Hab.
Qed.

(** What [selected_stations] returns, by the outcome of the DP.  The legs
    are those the DP measures and the cost is the one it adds up. *)
Lemma selected_stations_cases :
  (dp_path_indices route_distance on_route_stations = Ok None /\
   selected_stations route_distance on_route_stations
     = Ok (greedy_selected on_route_stations) /\
   forall alt, alt `sublist_of` on_route_stations ->
               ~ float_feasible route_distance alt) \/
  (exists path_indices chosen,
     dp_path_indices route_distance on_route_stations = Ok (Some path_indices) /\
     stations_at on_route_stations path_indices = Ok chosen /\
     selected_stations route_distance on_route_stations = Ok chosen /\
     chosen `sublist_of` on_route_stations /\
     float_feasible route_distance chosen /\
     (forall alt, alt `sublist_of` on_route_stations ->
                  float_feasible route_distance alt ->
                  float_plan_cost chosen <= float_plan_cost alt) /\
     (prices_nonneg on_route_stations -> strictly_ascending_chainage chosen) /\
     (prices_nonneg on_route_stations -> route_distance <= VEHICLE_RANGE_MILES ->
      chosen = []) /\
     (prices_nonneg on_route_stations ->
      no_stop_to_spare 0 (map snd chosen) route_distance)).
Proof.
  destruct (dp_path_indices_cases route_distance on_route_stations)
    as [[Hnone Hno]|(nodes & Hsome & Hl & Hopt & Hskips & Hdirect)].
  - left. split; [assumption|]. split.
    + unfold selected_stations. rewrite Hnone.
      now destruct on_route_stations.
    + intros alt Hsub Hfeas.
      destruct (sublist_dag_path alt Hsub Hfeas) as (anodes & Hpath & _).
      exact (Hno anodes Hpath).
  - right.
    destruct (dp_links_chosen nodes Hl)
      as (chosen & Hrun & HF & Hsub & Hfeas & Hcost & Hstrict & Hspare).
    exists (map station_index nodes), chosen.
    split; [assumption|]. split; [assumption|].
    split; [|split; [assumption|split; [assumption|split; [|split; [assumption|split]]]]].
    + unfold selected_stations. rewrite Hsome.
      destruct on_route_stations as [|st sts] eqn:Hsts; [|exact Hrun].
      apply sublist_nil_r in Hsub. now subst chosen.
    + intros alt Halt Hafeas.
      destruct (sublist_dag_path alt Halt Hafeas) as (anodes & Hpath & Hacost).
      rewrite Hcost, Hacost. now apply Hopt.
    + intros Hpos Hshort.
      rewrite Hdirect in HF; [now inversion HF | assumption |].
      unfold edge. rewrite node_pos_end, node_pos_start.
      unfold float_sub. apply b64_within_500.
      unfold VEHICLE_RANGE_MILES in Hshort. lra.
    + intros Hpos. apply Hspare, Hskips, Hpos.
Qed.

End PlanFacts.

(** ** Stop sequences in any order

    A sequence that visits some of the stations, each at most once, in
    any order, and whose legs all fit in the range, can be driven in route
    order at the same cost. *)




Section Legs.

(** [fits a b]: the leg from [a] to [b] can be driven; a leg inside one
    that can be driven can be driven. *)
Variable fits : Q -> Q -> Prop.
Hypothesis fits_inside :
  forall a b a' b', fits a b -> a <= a' -> b' <= b -> fits a' b'.



End Legs.




(** ** The cost the DP adds up and the cost of the plan *)






(** ** Totality of the planner *)

Lemma selected_stations_total (route_distance : Q) (on_route_stations : list on_route) :
  exists chosen,
    selected_stations route_distance on_route_stations = Ok chosen /\
    _find_optimal_stops_dp route_distance on_route_stations = Ok (map stop_of chosen) /\
    chosen `sublist_of` on_route_stations.
Proof.
  rewrite find_optimal_stops_selected.
  destruct (selected_stations_cases route_distance on_route_stations)
    as [(_ & Hsel & _)|(idxs & chosen & _ & _ & Hsel & Hsub & _)].
  - exists (greedy_selected on_route_stations). rewrite Hsel.
    repeat split.
    destruct (greedy_loop_inv on_route_stations) as (chosen & Hrun & _ & Hsub).
    unfold greedy_selected. now rewrite Hrun.
  - exists chosen. rewrite Hsel. repeat split. assumption.
Qed.

(** ** Legs measured on the rounded [miles_from_start] *)

Lemma miles_from_start_rounded (chosen : list on_route) :
  map OptimizedFuelStop.miles_from_start (map stop_of chosen)
  = map (fun c => round c 2) (map snd chosen).
Proof. now rewrite !map_map. Qed.

(** Two numbers at most 500 and the slack apart are at most 500.01 apart
    once rounded to 2 decimals. *)
Lemma round_gap_slack (x y : Q) :
  y - x <= VEHICLE_RANGE_MILES + range_slack ->
  round y 2 - round x 2 <= VEHICLE_RANGE_MILES + (1 # 100).
Proof.
  intros H. unfold round.
  change (Z.to_pos (10 ^ Z.of_nat 2)) with 100%positive.
  destruct (round_half_even_near (y * inject_Z 100)) as [_ Hy].
  destruct (round_half_even_near (x * inject_Z 100)) as [Hx _].
  set (zy := round_half_even (y * inject_Z 100)) in *.
  set (zx := round_half_even (x * inject_Z 100)) in *.
  assert (Hs : range_slack <= 1 # 200).
  { unfold range_slack. apply Qle_bool_iff. reflexivity. }
  assert (Hz : inject_Z (zy - zx) < inject_Z 50002).
  { unfold Zminus. rewrite inject_Z_plus, inject_Z_opp.
    change (inject_Z 100) with 100 in Hx, Hy. change (inject_Z 50002) with 50002.
    unfold VEHICLE_RANGE_MILES in H. lra. }
  rewrite <- Zlt_Qlt in Hz.
  unfold VEHICLE_RANGE_MILES, Qle, Qminus, Qplus, Qopp. cbn [Qnum Qden]. lia.
Qed.

Lemma gaps_slack_rounded (chainages : list Q) (route_distance : Q) :
  round route_distance 2 == route_distance ->
  links (fun a b => b - a <= VEHICLE_RANGE_MILES + range_slack) 0 chainages route_distance ->
  links (fun a b => b - a <= VEHICLE_RANGE_MILES + (1 # 100)) 0
        (map (fun c => round c 2) chainages) route_distance.
Proof.
  intros Hrd.
  enough (forall prev,
    links (fun a b => b - a <= VEHICLE_RANGE_MILES + range_slack) prev chainages
          route_distance ->
    links (fun a b => b - a <= VEHICLE_RANGE_MILES + (1 # 100)) (round prev 2)
          (map (fun c => round c 2) chainages) route_distance) as H.
  { intros H0. apply H in H0. eapply links_head; [|exact H0].
    intros x. cbv beta. rewrite round_zero. trivial. }
  induction chainages as [|c rest IH]; intros prev; simpl.
  - intros H. apply round_gap_slack in H. lra.
  - intros [H1 H2]. split; [now apply round_gap_slack | now apply IH].
Qed.

Lemma spaced_rounded (chainages : list Q) :
  spaced (VEHICLE_RANGE_MILES - 50) 0 chainages ->
  spaced (VEHICLE_RANGE_MILES - 50) 0 (map (fun c => round c 2) chainages).
Proof.
  assert (Hgap : VEHICLE_RANGE_MILES - 50 == inject_Z 450) by reflexivity.
  enough (forall prev,
    spaced (VEHICLE_RANGE_MILES - 50) prev chainages ->
    spaced (VEHICLE_RANGE_MILES - 50) (round prev 2)
           (map (fun c => round c 2) chainages)) as H.
  { intros H0. apply H in H0. destruct chainages as [|c rest]; [exact I|].
    simpl in H0 |- *. destruct H0 as [H1 H2]. split; [|assumption].
    rewrite round_zero in H1. exact H1. }
  induction chainages as [|c rest IH]; intros prev; simpl; [trivial|].
  intros [H1 H2]. split; [|now apply IH].
  rewrite Hgap in H1 |- *. now apply round_gap_ge.
Qed.

(** * The claims *)



(** With stations at the floats 0.045 and 500.045 on a route of 1000
    miles the DP measures the leg between them as 500.0 and stops at
    both; the leg is longer than the range, and the stops report 0.04
    and 500.05 miles from the start. *)
Lemma dp_leg_beyond_range :
  ascending_chainage far_stations /\
  dp_path_indices 1000 far_stations = Ok (Some [0%Z; 1%Z]) /\
  stations_at far_stations [0%Z; 1%Z] = Ok far_stations /\
  _find_optimal_stops_dp 1000 far_stations = Ok (map stop_of far_stations) /\
  float_sub (b64 500.045) (b64 0.045) == 500 /\
  VEHICLE_RANGE_MILES < b64 500.045 - b64 0.045 /\
  ~ gaps_ok 0 (map snd far_stations) 1000 /\
  map OptimizedFuelStop.miles_from_start (map stop_of far_stations) = [0.04; 500.05] /\
  ~ gaps_ok 0 (map OptimizedFuelStop.miles_from_start (map stop_of far_stations)) 1000.
Proof.
  split.
  { unfold ascending_chainage. simpl. repeat constructor. unfold Qle. vm_compute.
    discriminate. }
  split; [vm_compute; reflexivity|].
  split; [vm_compute; reflexivity|].
  split; [vm_compute; reflexivity|].
  split; [vm_compute; reflexivity|].
  split; [vm_compute; reflexivity|].
  split.
  { unfold gaps_ok. simpl. intros (_ & H & _). vm_compute in H. now apply H. }
  split; [vm_compute; reflexivity|].
  unfold gaps_ok. simpl. intros (_ & H & _). vm_compute in H. now apply H.
Qed.

(** C2 (amended). When the DP itself produces the stop list
    ([dp[END_IDX]] is reachable, so [path_indices] exists), every leg of
    0, the chainages of the stations stopped at, [route_distance] is at
    most the vehicle range as the DP measures it, by a float subtraction;
    the leg itself is at most the range and [2^-45] mile.  On the
    [miles_from_start] the stops report (the chainages rounded to 2
    decimals) every leg is at most 500.01 miles when [route_distance] is
    itself a number of hundredths, as the routing service delivers it. *)
Theorem dp_plan_respects_range (route_distance : Q) (on_route_stations : list on_route)
    (path_indices : list Z) :
  ascending_chainage on_route_stations ->
  dp_path_indices route_distance on_route_stations = Ok (Some path_indices) ->
  exists chosen,
    stations_at on_route_stations path_indices = Ok chosen /\
    _find_optimal_stops_dp route_distance on_route_stations = Ok (map stop_of chosen) /\
    float_gaps_ok 0 (map snd chosen) route_distance /\
    links (fun a b => b - a <= VEHICLE_RANGE_MILES + range_slack)
          0 (map snd chosen) route_distance /\
    (round route_distance 2 == route_distance ->
     links (fun a b => b - a <= VEHICLE_RANGE_MILES + (1 # 100))
           0 (map OptimizedFuelStop.miles_from_start (map stop_of chosen))
           route_distance).
Proof.
  intros _ Hdp.
  destruct (selected_stations_cases route_distance on_route_stations)
    as [(Hnone & _)|(idxs & chosen & Hsome & Hat & Hsel & _ & Hfeas & _)].
  - rewrite Hdp in Hnone. discriminate.
  - rewrite Hdp in Hsome. inversion Hsome; subst idxs.
    exists chosen. split; [assumption|].
    split; [now rewrite find_optimal_stops_selected, Hsel|].
    split; [exact Hfeas|].
    split; [now apply float_gaps_ok_slack|].
    intros Hrd. rewrite miles_from_start_rounded.
    now apply gaps_slack_rounded, float_gaps_ok_slack.
Qed.


Lemma dp_plan_respects_range_witness :
  ascending_chainage three_stations /\
  dp_path_indices 1200 three_stations = Ok (Some [1%Z; 2%Z]) /\
  exists chosen,
    stations_at three_stations [1%Z; 2%Z] = Ok chosen /\
    _find_optimal_stops_dp 1200 three_stations = Ok (map stop_of chosen) /\
    float_gaps_ok 0 (map snd chosen) 1200 /\
    links (fun a b => b - a <= VEHICLE_RANGE_MILES + range_slack)
          0 (map snd chosen) 1200 /\
    (round 1200 2 == 1200 ->
     links (fun a b => b - a <= VEHICLE_RANGE_MILES + (1 # 100))
           0 (map OptimizedFuelStop.miles_from_start (map stop_of chosen)) 1200).
Proof.
  assert (H1 : ascending_chainage three_stations).
  { unfold ascending_chainage. simpl. repeat constructor; unfold Qle; simpl; lia. }
  assert (H2 : dp_path_indices 1200 three_stations = Ok (Some [1%Z; 2%Z])).
  { vm_compute. reflexivity. }
  split; [exact H1|]. split; [exact H2|].
  exact (dp_plan_respects_range 1200 three_stations [1%Z; 2%Z] H1 H2).
Defined.



(** ** The result record of [optimize_route] *)

Section Results.

Context {Geometry : Type}.
Variable get_route_from_addresses :
  string -> string -> res (option (RouteResult.t Geometry)).
Variable geocoded_stations : list FuelStation.t.
Variable find_stations_along_route :
  list (Q * Q) -> list FuelStation.t -> Q -> list on_route.

Local Abbreviation optimize :=
  (optimize_route get_route_from_addresses geocoded_stations find_stations_along_route).
Local Abbreviation corridor route :=
  (find_stations_along_route (RouteResult.coordinates route) geocoded_stations
                             MAX_ROUTE_DISTANCE_MILES).

(** With a route and a non-empty corridor, [optimize_route] returns the
    record built around the stops of [_find_optimal_stops_dp]. *)
Lemma optimize_route_planned start_address end_address route :
  get_route_from_addresses start_address end_address = Ok (Some route) ->
  corridor route <> [] ->
  exists chosen r,
    selected_stations (RouteResult.distance_miles route) (corridor route) = Ok chosen /\
    optimize start_address end_address = Ok r /\
    OptimizedRouteResult.fuel_stops r = map stop_of chosen /\
    OptimizedRouteResult.total_fuel_cost r = round (sum_costs (map stop_of chosen)) 2 /\
    OptimizedRouteResult.total_gallons r
      = round (float_div (RouteResult.distance_miles route) FUEL_EFFICIENCY_MPG) 2 /\
    OptimizedRouteResult.optimization_method r = "dynamic_programming"%string /\
    OptimizedRouteResult.stations_considered r = length (corridor route).
Proof.
  intros Hroute Hne.
  destruct (selected_stations_total (RouteResult.distance_miles route) (corridor route))
    as (chosen & Hsel & Hfind & _).
  exists chosen. unfold optimize_route. rewrite Hroute.
  ok_step. cbv iota.
  destruct (corridor route) as [|st sts] eqn:Hc; [congruence|].
  rewrite Hfind.
  ok_step.
  eexists. split; [assumption|]. split; [reflexivity|].
  repeat split.
Qed.

(** With a route and an empty corridor, [optimize_route] returns the
    record of [_create_empty_result]. *)
Lemma optimize_route_empty start_address end_address route :
  get_route_from_addresses start_address end_address = Ok (Some route) ->
  corridor route = [] ->
  optimize start_address end_address
  = Ok (_create_empty_result route start_address end_address "no_stations" 0).
Proof.
  intros Hroute Hempty. unfold optimize_route. rewrite Hroute.
  ok_step. cbv iota.
  now rewrite Hempty.
Qed.

(** C4. Whenever the corridor filter yields at least one on-route
    station, the result reports
    [optimization_method = "dynamic_programming"%string], also when
    [dp[END_IDX]] is unreachable and the stops are those of the greedy
    fallback. *)
Theorem method_is_dynamic_programming start_address end_address route :
  get_route_from_addresses start_address end_address = Ok (Some route) ->
  corridor route <> [] ->
  exists r,
    optimize start_address end_address = Ok r /\
    OptimizedRouteResult.optimization_method r = "dynamic_programming"%string /\
    (dp_path_indices (RouteResult.distance_miles route) (corridor route) = Ok None ->
     OptimizedRouteResult.fuel_stops r
       = _greedy_fallback (RouteResult.distance_miles route) (corridor route)).
Proof.
  intros Hroute Hne.
  destruct (optimize_route_planned start_address end_address route Hroute Hne)
    as (chosen & r & Hsel & Hrun & Hstops & _ & _ & Hmethod & _).
  exists r. repeat split; try assumption.
  intros Hnone. rewrite Hstops, greedy_fallback_selected. f_equal.
  unfold selected_stations in Hsel. rewrite Hnone in Hsel.
  destruct (corridor route); [congruence|].
  cbn in Hsel. congruence.
Qed.

(** C6. With a route and an empty corridor, [optimize_route] raises
    nothing: it returns a plan with no fuel stops, [total_fuel_cost] 0.0,
    [total_gallons] the route distance over the efficiency, a float
    division, rounded to 2 decimals, and [optimization_method]
    "no_stations". *)
Theorem empty_corridor_plan start_address end_address route :
  get_route_from_addresses start_address end_address = Ok (Some route) ->
  corridor route = [] ->
  exists r,
    optimize start_address end_address = Ok r /\
    OptimizedRouteResult.fuel_stops r = [] /\
    OptimizedRouteResult.total_fuel_cost r = 0 /\
    OptimizedRouteResult.total_gallons r
      = round (float_div (RouteResult.distance_miles route) FUEL_EFFICIENCY_MPG) 2 /\
    OptimizedRouteResult.optimization_method r = "no_stations"%string.
Proof.
  intros Hroute Hempty.
  rewrite (optimize_route_empty start_address end_address route Hroute Hempty).
  eexists. split; [reflexivity|]. repeat split.
Qed.

(** C8. Every plan that [optimize_route] returns has [total_gallons]
    equal to the route distance over the efficiency, a float division,
    rounded to 2 decimals, whatever stops were chosen. *)
Theorem total_gallons_is_trip_consumption start_address end_address r :
  optimize start_address end_address = Ok r ->
  exists route,
    get_route_from_addresses start_address end_address = Ok (Some route) /\
    OptimizedRouteResult.total_gallons r
      = round (float_div (RouteResult.distance_miles route) FUEL_EFFICIENCY_MPG) 2.
Proof.
  unfold optimize_route.
  destruct (get_route_from_addresses start_address end_address) as [[route|]|e];
    try discriminate.
  ok_step. cbv iota.
  intros Hrun. exists route. split; [reflexivity|].
  destruct (corridor route) as [|st sts].
  - inversion Hrun; subst r. reflexivity.
  - destruct (_find_optimal_stops_dp (RouteResult.distance_miles route) (st :: sts));
      [|discriminate].
    inversion Hrun; subst r. reflexivity.
Qed.

End Results.

Lemma method_is_dynamic_programming_witness :
  dp_path_indices 1200 [(example_station "A" 3, 100)] = Ok None /\
  exists r,
    optimize_route (fixed_route 1200) [] (fixed_corridor [(example_station "A" 3, 100)])
                   "Des Moines, IA" "Chicago, IL" = Ok r /\
    OptimizedRouteResult.optimization_method r = "dynamic_programming"%string /\
    OptimizedRouteResult.fuel_stops r
      = _greedy_fallback 1200 [(example_station "A" 3, 100)].
Proof.
  assert (H1 : fixed_route 1200 "Des Moines, IA" "Chicago, IL"
               = Ok (Some (example_route 1200))) by reflexivity.
  assert (H2 : fixed_corridor [(example_station "A" 3, 100)]
                 (RouteResult.coordinates (example_route 1200)) []
                 MAX_ROUTE_DISTANCE_MILES <> []) by discriminate.
  assert (H3 : dp_path_indices 1200 [(example_station "A" 3, 100)] = Ok None).
  { vm_compute. reflexivity. }
  split; [exact H3|].
  destruct (method_is_dynamic_programming (fixed_route 1200) []
              (fixed_corridor [(example_station "A" 3, 100)])
              "Des Moines, IA" "Chicago, IL" (example_route 1200) H1 H2)
    as (r & Hrun & Hmethod & Hfallback).
  exists r. split; [exact Hrun|]. split; [exact Hmethod|]. exact (Hfallback H3).
Defined.

Lemma empty_corridor_plan_witness :
  fixed_route 1200 "Des Moines, IA" "Chicago, IL" = Ok (Some (example_route 1200)) /\
  fixed_corridor [] (RouteResult.coordinates (example_route 1200)) []
                 MAX_ROUTE_DISTANCE_MILES = [] /\
  exists r,
    optimize_route (fixed_route 1200) [] (fixed_corridor [])
                   "Des Moines, IA" "Chicago, IL" = Ok r /\
    OptimizedRouteResult.fuel_stops r = [] /\
    OptimizedRouteResult.total_fuel_cost r = 0 /\
    OptimizedRouteResult.total_gallons r = round (float_div 1200 FUEL_EFFICIENCY_MPG) 2 /\
    OptimizedRouteResult.optimization_method r = "no_stations"%string.
Proof.
  split; [reflexivity|]. split; [reflexivity|].
  exact (empty_corridor_plan (fixed_route 1200) [] (fixed_corridor [])
           "Des Moines, IA" "Chicago, IL" (example_route 1200) eq_refl eq_refl).
Defined.

(** In the three-station scenario the two stops buy 50 gallons each, 100
    in all, and [total_gallons] is 120. *)
Lemma purchased_gallons_differ_from_total :
  exists r,
    optimize_route (fixed_route 1200) [] (fixed_corridor three_stations)
                   "Des Moines, IA" "Chicago, IL" = Ok r /\
    foldl Qplus 0 (map OptimizedFuelStop.gallons_needed (OptimizedRouteResult.fuel_stops r))
      == 100 /\
    OptimizedRouteResult.total_gallons r == 120.
Proof.
  eexists. split; [vm_compute; reflexivity|]. split; reflexivity.
Qed.

Lemma total_gallons_is_trip_consumption_witness :
  exists r,
    optimize_route (fixed_route 1200) [] (fixed_corridor three_stations)
                   "Des Moines, IA" "Chicago, IL" = Ok r /\
    exists route,
      fixed_route 1200 "Des Moines, IA" "Chicago, IL" = Ok (Some route) /\
      OptimizedRouteResult.total_gallons r
        = round (float_div (RouteResult.distance_miles route) FUEL_EFFICIENCY_MPG) 2.
Proof.
  eexists. split; [vm_compute; reflexivity|].
  eapply (total_gallons_is_trip_consumption (fixed_route 1200) []
            (fixed_corridor three_stations) "Des Moines, IA" "Chicago, IL").
  vm_compute. reflexivity.
Defined.

(** ** Stops *)

Lemma make_stop_full_tank (station : FuelStation.t) (chainage : Q) :
  let stop := make_stop station chainage in
  OptimizedFuelStop.gallons_needed stop
    == float_div VEHICLE_RANGE_MILES FUEL_EFFICIENCY_MPG /\
  OptimizedFuelStop.gallons_needed stop == 50 /\
  OptimizedFuelStop.cost stop
    = round (float_mul (OptimizedFuelStop.gallons_needed stop)
                       (FuelStation.retail_price station)) 2.
Proof.
  cbv zeta. cbn [make_stop OptimizedFuelStop.gallons_needed OptimizedFuelStop.cost].
  assert (H : round (float_div VEHICLE_RANGE_MILES FUEL_EFFICIENCY_MPG) 2
              == float_div VEHICLE_RANGE_MILES FUEL_EFFICIENCY_MPG) by reflexivity.
  split; [exact H|]. split; [reflexivity|].
  apply round_comp. now rewrite H.
Qed.

(** The cost of a stop is the rounded float product: at the float price
    1.0001 a full tank is 50.00500000000001 as a float and the stop
    costs 50.01, where the product itself is below 50.005. *)
Lemma stop_cost_of_float_product :
  OptimizedFuelStop.cost (make_stop (example_station "A" (b64 1.0001)) 100) == 50.01 /\
  round (50 * b64 1.0001) 2 == 50.
Proof. split; vm_compute; reflexivity. Qed.

(** C7. Every stop emitted, by the DP backtrack and by the greedy fallback
    alike, is [make_stop] of one of the on-route stations: its
    [gallons_needed] is range / efficiency = 50 gallons, and its [cost] is
    [gallons_needed] times that station's price, a float product,
    rounded to 2 decimals; the leg driven to reach the station does not
    enter. *)
Theorem every_stop_buys_a_full_tank (route_distance : Q)
    (on_route_stations : list on_route) (stops : list OptimizedFuelStop.t) :
  _find_optimal_stops_dp route_distance on_route_stations = Ok stops \/
  stops = _greedy_fallback route_distance on_route_stations ->
  Forall (fun stop =>
            exists station chainage,
              In (station, chainage) on_route_stations /\
              stop = make_stop station chainage /\
              OptimizedFuelStop.gallons_needed stop
                == float_div VEHICLE_RANGE_MILES FUEL_EFFICIENCY_MPG /\
              OptimizedFuelStop.gallons_needed stop == 50 /\
              OptimizedFuelStop.cost stop
                = round (float_mul (OptimizedFuelStop.gallons_needed stop)
                                   (FuelStation.retail_price station)) 2)
         stops.
Proof.
  intros Hstops.
  assert (Hchosen : exists chosen,
             stops = map stop_of chosen /\ chosen `sublist_of` on_route_stations).
  { destruct Hstops as [Hdp|Hgreedy].
    - destruct (selected_stations_total route_distance on_route_stations)
        as (chosen & _ & Hfind & Hsub).
      exists chosen. split; [congruence | assumption].
    - exists (greedy_selected on_route_stations). split.
      + now rewrite Hgreedy, greedy_fallback_selected.
      + destruct (greedy_loop_inv on_route_stations) as (chosen & Hrun & _ & Hsub).
        unfold greedy_selected. now rewrite Hrun. }
  destruct Hchosen as (chosen & -> & Hsub).
  apply Forall_forall. intros stop Hin.
  apply list_elem_of_In, in_map_iff in Hin. destruct Hin as ([station chainage] & <- & Hin).
  exists station, chainage. split.
  - apply list_elem_of_In. eapply elem_of_sublist; [|exact Hsub]. now apply list_elem_of_In.
  - split; [reflexivity|]. apply make_stop_full_tank.
Qed.

Lemma every_stop_buys_a_full_tank_witness :
  Forall (fun stop =>
            exists station chainage,
              In (station, chainage) three_stations /\
              stop = make_stop station chainage /\
              OptimizedFuelStop.gallons_needed stop
                == float_div VEHICLE_RANGE_MILES FUEL_EFFICIENCY_MPG /\
              OptimizedFuelStop.gallons_needed stop == 50 /\
              OptimizedFuelStop.cost stop
                = round (float_mul (OptimizedFuelStop.gallons_needed stop)
                                   (FuelStation.retail_price station)) 2)
         [make_stop (example_station "B" 2.8) 450; make_stop (example_station "C" 2.9) 900].
Proof.
  apply (every_stop_buys_a_full_tank 1200 three_stations). left. vm_compute. reflexivity.
Defined.

(** ** Short routes *)

(** A station with a negative price undercuts the direct leg: on a route
    of 300 miles the plan stops there, and the total is negative. *)
Lemma short_route_negative_price_stop :
  300 <= VEHICLE_RANGE_MILES /\
  _find_optimal_stops_dp 300 [(example_station "A" (-1), 100)]
    = Ok [make_stop (example_station "A" (-1)) 100] /\
  exists r,
    optimize_route (fixed_route 300) [] (fixed_corridor [(example_station "A" (-1), 100)])
                   "Des Moines, IA" "Ames, IA" = Ok r /\
    length (OptimizedRouteResult.fuel_stops r) = 1%nat /\
    OptimizedRouteResult.total_fuel_cost r == -50 /\
    ~ OptimizedRouteResult.total_fuel_cost r == 0.
Proof.
  split; [unfold VEHICLE_RANGE_MILES, Qle; simpl; lia|].
  split; [vm_compute; reflexivity|].
  eexists. split; [vm_compute; reflexivity|].
  cbn [OptimizedRouteResult.fuel_stops OptimizedRouteResult.total_fuel_cost].
  split; [reflexivity|]. split; [reflexivity|]. discriminate.
Qed.

(** C5 (amended). For every set of on-route stations whose prices are not
    negative, a route no longer than the range gets a plan with zero stops
    and [total_fuel_cost] 0; for a route of 300 miles, total gallons are
    30.00. *)
Theorem short_route_needs_no_stop {Geometry : Type}
    (get_route_from_addresses : string -> string -> res (option (RouteResult.t Geometry)))
    (geocoded_stations : list FuelStation.t)
    (find_stations_along_route : list (Q * Q) -> list FuelStation.t -> Q -> list on_route)
    (start_address end_address : string) (route : RouteResult.t Geometry) :
  get_route_from_addresses start_address end_address = Ok (Some route) ->
  prices_nonneg (find_stations_along_route (RouteResult.coordinates route)
                   geocoded_stations MAX_ROUTE_DISTANCE_MILES) ->
  RouteResult.distance_miles route <= VEHICLE_RANGE_MILES ->
  _find_optimal_stops_dp (RouteResult.distance_miles route)
    (find_stations_along_route (RouteResult.coordinates route)
       geocoded_stations MAX_ROUTE_DISTANCE_MILES) = Ok [] /\
  exists r,
    optimize_route get_route_from_addresses geocoded_stations find_stations_along_route
                   start_address end_address = Ok r /\
    OptimizedRouteResult.fuel_stops r = [] /\
    OptimizedRouteResult.total_fuel_cost r == 0 /\
    (RouteResult.distance_miles route == 300 ->
     OptimizedRouteResult.total_gallons r == 30).
Proof.
  intros Hroute Hpos Hshort.
  set (sts := find_stations_along_route (RouteResult.coordinates route)
                geocoded_stations MAX_ROUTE_DISTANCE_MILES) in *.
  assert (Hgal : forall g,
             g = round (float_div (RouteResult.distance_miles route) FUEL_EFFICIENCY_MPG) 2 ->
             RouteResult.distance_miles route == 300 -> g == 30).
  { intros g -> H300.
    rewrite (round_comp _ (float_div 300 FUEL_EFFICIENCY_MPG))
      by now apply float_div_comp.
    reflexivity. }
  assert (Hsel : selected_stations (RouteResult.distance_miles route) sts = Ok []).
  { destruct (selected_stations_cases (RouteResult.distance_miles route) sts)
      as [(_ & _ & Hno)|(idxs & chosen & _ & _ & Hsel & _ & _ & _ & _ & Hnil & _)].
    - exfalso. apply (Hno []); [apply sublist_nil_l|].
      apply feasible_float. unfold feasible, gaps_ok. simpl. lra.
    - now rewrite (Hnil Hpos Hshort) in Hsel. }
  split; [now rewrite find_optimal_stops_selected, Hsel|].
  destruct sts as [|st sts'] eqn:Hsts.
  - rewrite (optimize_route_empty get_route_from_addresses geocoded_stations
               find_stations_along_route start_address end_address route Hroute Hsts).
    eexists. split; [reflexivity|]. repeat split.
    now apply Hgal.
  - destruct (optimize_route_planned get_route_from_addresses geocoded_stations
                find_stations_along_route start_address end_address route Hroute)
      as (chosen & r & Hsel' & Hrun & Hstops & Hcost & Hgallons & _).
    { fold sts. rewrite Hsts. discriminate. }
    fold sts in Hsel'. rewrite Hsts, Hsel in Hsel'. inversion Hsel'; subst chosen.
    exists r. repeat split; try assumption.
    + rewrite Hcost. reflexivity.
    + now apply Hgal.
Qed.

Lemma short_route_needs_no_stop_witness :
  fixed_route 300 "Des Moines, IA" "Ames, IA" = Ok (Some (example_route 300)) /\
  prices_nonneg three_stations /\
  300 <= VEHICLE_RANGE_MILES /\
  _find_optimal_stops_dp 300 three_stations = Ok [] /\
  exists r,
    optimize_route (fixed_route 300) [] (fixed_corridor three_stations)
                   "Des Moines, IA" "Ames, IA" = Ok r /\
    OptimizedRouteResult.fuel_stops r = [] /\
    OptimizedRouteResult.total_fuel_cost r == 0 /\
    (300 == 300 -> OptimizedRouteResult.total_gallons r == 30).
Proof.
  assert (H2 : prices_nonneg three_stations).
  { repeat constructor; unfold Qle; simpl; lia. }
  assert (H3 : 300 <= VEHICLE_RANGE_MILES).
  { unfold VEHICLE_RANGE_MILES, Qle; simpl; lia. }
  split; [reflexivity|]. split; [exact H2|]. split; [exact H3|].
  exact (short_route_needs_no_stop (fixed_route 300) [] (fixed_corridor three_stations)
           "Des Moines, IA" "Ames, IA" (example_route 300) eq_refl H2 H3).
Defined.

(** ** Order of the stops *)

Lemma rounded_chainages_sorted (chainages : list Q) :
  StronglySorted Qlt chainages ->
  StronglySorted Qle (map (fun c => round c 2) chainages).
Proof.
  induction 1 as [|c l Hs IH Hall]; simpl; constructor; [assumption|].
  rewrite List.Forall_forall in Hall |- *.
  intros x Hx. apply in_map_iff in Hx. destruct Hx as (y & <- & Hy).
  apply round_le, Qlt_le_weak, Hall, Hy.
Qed.

(** The two stations 1/256 mile apart are both on the DP path (the first
    cannot reach the destination, the second cannot be reached from the
    start), and both stops report 500.0 miles from the start. *)
Lemma close_stations_share_miles_from_start :
  ascending_chainage close_stations /\ prices_positive close_stations /\
  dp_path_indices 1000 close_stations = Ok (Some [0%Z; 1%Z]) /\
  _find_optimal_stops_dp 1000 close_stations
    = Ok [make_stop (example_station "A" 1) 499.998046875;
          make_stop (example_station "B" 1) 500.001953125] /\
  (exists r,
     optimize_route (fixed_route 1000) [] (fixed_corridor close_stations)
                    "Des Moines, IA" "Cleveland, OH" = Ok r /\
     OptimizedRouteResult.fuel_stops r
       = [make_stop (example_station "A" 1) 499.998046875;
          make_stop (example_station "B" 1) 500.001953125]) /\
  OptimizedFuelStop.miles_from_start (make_stop (example_station "A" 1) 499.998046875)
    == 500 /\
  OptimizedFuelStop.miles_from_start (make_stop (example_station "B" 1) 500.001953125)
    == 500 /\
  ~ OptimizedFuelStop.miles_from_start (make_stop (example_station "A" 1) 499.998046875)
    < OptimizedFuelStop.miles_from_start (make_stop (example_station "B" 1) 500.001953125).
Proof.
  split.
  { unfold ascending_chainage. simpl. repeat constructor; unfold Qle; simpl; lia. }
  split.
  { repeat constructor; unfold Qlt; simpl; lia. }
  split; [vm_compute; reflexivity|].
  split; [vm_compute; reflexivity|].
  split; [eexists; split; [vm_compute; reflexivity | reflexivity]|].
  split; [reflexivity|]. split; [reflexivity|].
  intros H. vm_compute in H. discriminate.
Qed.

(** C9 (amended). For stations sorted by ascending chainage with strictly
    positive prices, the stops of a DP-produced plan are those of a
    sublist of the stations (route order) whose chainages strictly
    increase: no two stops are at the same chainage.  Their
    [miles_from_start], the chainage rounded to 2 decimals, never
    decreases. *)
Theorem dp_stops_in_route_order (route_distance : Q) (on_route_stations : list on_route)
    (path_indices : list Z) :
  ascending_chainage on_route_stations ->
  prices_positive on_route_stations ->
  dp_path_indices route_distance on_route_stations = Ok (Some path_indices) ->
  exists chosen,
    stations_at on_route_stations path_indices = Ok chosen /\
    _find_optimal_stops_dp route_distance on_route_stations = Ok (map stop_of chosen) /\
    chosen `sublist_of` on_route_stations /\
    StronglySorted Qlt (map snd chosen) /\
    StronglySorted Qle
      (map OptimizedFuelStop.miles_from_start (map stop_of chosen)).
Proof.
  intros _ Hpos Hdp.
  destruct (selected_stations_cases route_distance on_route_stations)
    as [(Hnone & _)|(idxs & chosen & Hsome & Hat & Hsel & Hsub & _ & _ & Hstrict & _)].
  - rewrite Hdp in Hnone. discriminate.
  - rewrite Hdp in Hsome. inversion Hsome; subst idxs.
    exists chosen. split; [assumption|].
    split; [now rewrite find_optimal_stops_selected, Hsel|].
    split; [assumption|].
    specialize (Hstrict (prices_positive_nonneg _ Hpos)).
    unfold strictly_ascending_chainage in Hstrict.
    split; [assumption|].
    rewrite map_map.
    apply rounded_chainages_sorted in Hstrict. rewrite map_map in Hstrict.
    exact Hstrict.
Qed.

Lemma dp_stops_in_route_order_witness :
  ascending_chainage three_stations /\
  prices_positive three_stations /\
  dp_path_indices 1200 three_stations = Ok (Some [1%Z; 2%Z]) /\
  exists chosen,
    stations_at three_stations [1%Z; 2%Z] = Ok chosen /\
    _find_optimal_stops_dp 1200 three_stations = Ok (map stop_of chosen) /\
    chosen `sublist_of` three_stations /\
    StronglySorted Qlt (map snd chosen) /\
    StronglySorted Qle
      (map OptimizedFuelStop.miles_from_start (map stop_of chosen)).
Proof.
  assert (H1 : ascending_chainage three_stations).
  { unfold ascending_chainage. simpl. repeat constructor; unfold Qle; simpl; lia. }
  assert (H2 : prices_positive three_stations).
  { repeat constructor; unfold Qlt; simpl; lia. }
  assert (H3 : dp_path_indices 1200 three_stations = Ok (Some [1%Z; 2%Z])).
  { vm_compute. reflexivity. }
  split; [exact H1|]. split; [exact H2|]. split; [exact H3|].
  exact (dp_stops_in_route_order 1200 three_stations [1%Z; 2%Z] H1 H2 H3).
Defined.

(** ** The greedy fallback *)

(** C10. The stations the greedy fallback stops at are each at least
    range - buffer = 450 miles past the previous one (past 0 for the
    first), on the chainages and on the reported [miles_from_start] alike;
    so with no station at 450 miles or more the fallback returns the empty
    list, and a route the range cannot cover (no sublist of the stations
    is feasible) comes out of [optimize_route] as a plan with zero stops
    and [total_fuel_cost] 0, no error raised. *)
Theorem greedy_stops_450_apart (route_distance : Q) (on_route_stations : list on_route) :
  VEHICLE_RANGE_MILES - 50 == 450 /\
  (exists chosen,
     _greedy_fallback route_distance on_route_stations = map stop_of chosen /\
     chosen `sublist_of` on_route_stations /\
     spaced (VEHICLE_RANGE_MILES - 50) 0 (map snd chosen) /\
     spaced (VEHICLE_RANGE_MILES - 50) 0
            (map OptimizedFuelStop.miles_from_start (map stop_of chosen))) /\
  (Forall (fun st => snd st < VEHICLE_RANGE_MILES - 50) on_route_stations ->
   _greedy_fallback route_distance on_route_stations = [] /\
   forall (Geometry : Type)
     (get_route_from_addresses : string -> string -> res (option (RouteResult.t Geometry)))
     (geocoded_stations : list FuelStation.t)
     (find_stations_along_route : list (Q * Q) -> list FuelStation.t -> Q -> list on_route)
     (start_address end_address : string) (route : RouteResult.t Geometry),
     get_route_from_addresses start_address end_address = Ok (Some route) ->
     RouteResult.distance_miles route = route_distance ->
     find_stations_along_route (RouteResult.coordinates route) geocoded_stations
                               MAX_ROUTE_DISTANCE_MILES = on_route_stations ->
     on_route_stations <> [] ->
     dp_path_indices route_distance on_route_stations = Ok None ->
     (forall alt, alt `sublist_of` on_route_stations -> ~ feasible route_distance alt) /\
     exists r,
       optimize_route get_route_from_addresses geocoded_stations find_stations_along_route
                      start_address end_address = Ok r /\
       OptimizedRouteResult.fuel_stops r = [] /\
       OptimizedRouteResult.total_fuel_cost r == 0).
Proof.
  split; [reflexivity|]. split.
  - destruct (greedy_loop_inv on_route_stations) as (chosen & Hrun & Hsp & Hsub).
    exists chosen. rewrite greedy_fallback_selected. unfold greedy_selected. rewrite Hrun.
    repeat split; try assumption.
    rewrite miles_from_start_rounded. now apply spaced_rounded.
  - intros Hnear. split.
    { rewrite greedy_fallback_selected, (greedy_selected_none _ Hnear). reflexivity. }
    intros Geometry get_route_from_addresses geocoded_stations find_stations_along_route
           start_address end_address route Hroute Hdist Hfind Hne Hnone.
    split.
    + destruct (selected_stations_cases route_distance on_route_stations)
        as [(_ & _ & Hno)|(idxs & chosen & Hsome & _)].
      * intros alt Hs Hf. exact (Hno alt Hs (feasible_float _ _ Hf)).
      * rewrite Hnone in Hsome. discriminate.
    + destruct (optimize_route_planned get_route_from_addresses geocoded_stations
                  find_stations_along_route start_address end_address route Hroute)
        as (chosen & r & Hsel & Hrun & Hstops & Hcost & _).
      { now rewrite Hfind. }
      rewrite Hfind, Hdist in Hsel.
      assert (chosen = []) as ->.
      { unfold selected_stations in Hsel. rewrite Hnone in Hsel.
        destruct on_route_stations; [congruence|].
        cbn in Hsel. rewrite (greedy_selected_none _ Hnear) in Hsel. congruence. }
      exists r. repeat split; try assumption.
      rewrite Hcost. reflexivity.
Qed.

Lemma greedy_stops_450_apart_witness :
  Forall (fun st : on_route => snd st < VEHICLE_RANGE_MILES - 50)
         [(example_station "A" 3, 100)] /\
  dp_path_indices 1200 [(example_station "A" 3, 100)] = Ok None /\
  (forall alt, alt `sublist_of` [(example_station "A" 3, 100)] -> ~ feasible 1200 alt) /\
  exists r,
    optimize_route (fixed_route 1200) [] (fixed_corridor [(example_station "A" 3, 100)])
                   "Des Moines, IA" "Chicago, IL" = Ok r /\
    OptimizedRouteResult.fuel_stops r = [] /\
    OptimizedRouteResult.total_fuel_cost r == 0.
Proof.
  assert (Hnear : Forall (fun st : on_route => snd st < VEHICLE_RANGE_MILES - 50)
                         [(example_station "A" 3, 100)]).
  { repeat constructor. }
  assert (Hnone : dp_path_indices 1200 [(example_station "A" 3, 100)] = Ok None).
  { vm_compute. reflexivity. }
  assert (Hne : [(example_station "A" 3, 100)] <> []) by discriminate.
  split; [exact Hnear|]. split; [exact Hnone|].
  exact (proj2 (proj2 (proj2
           (greedy_stops_450_apart 1200 [(example_station "A" 3, 100)])) Hnear)
         unit (fixed_route 1200) [] (fixed_corridor [(example_station "A" 3, 100)])
         "Des Moines, IA"%string "Chicago, IL"%string (example_route 1200)
         eq_refl eq_refl eq_refl Hne Hnone).
Defined.

(** * Further properties of the planner *)

(** ** When the greedy fallback runs *)






(** ** How many stops *)

(** With strictly positive prices no stop of a DP plan can be dropped:
    the plan without any one of its stops has a leg longer than the
    range. *)
Theorem dp_plan_has_no_redundant_stop (route_distance : Q)
    (on_route_stations : list on_route) (path_indices : list Z) :
  prices_positive on_route_stations ->
  dp_path_indices route_distance on_route_stations = Ok (Some path_indices) ->
  exists chosen,
    stations_at on_route_stations path_indices = Ok chosen /\
    _find_optimal_stops_dp route_distance on_route_stations = Ok (map stop_of chosen) /\
    forall i, (i < length chosen)%nat -> ~ feasible route_distance (delete i chosen).
Proof.
  intros Hpos Hdp.
  destruct (selected_stations_cases route_distance on_route_stations)
    as [(Hnone & _)|(idxs & chosen & Hsome & Hat & Hsel & _ & _ & _ & _ & _ & Hspare)].
  - rewrite Hdp in Hnone. discriminate.
  - rewrite Hdp in Hsome. inversion Hsome; subst idxs.
    exists chosen. split; [assumption|].
    split; [now rewrite find_optimal_stops_selected, Hsel|].
    intros i Hi. unfold feasible, gaps_ok. rewrite map_delete.
    apply (skips_delete (fun a c => VEHICLE_RANGE_MILES < float_sub c a)).
    + intros a b Hfar Hfit. apply (Qlt_not_le _ _ Hfar).
      unfold float_sub. now apply b64_within_500.
    + apply Hspare. now apply prices_positive_nonneg.
    + now rewrite length_map.
Qed.

Lemma dp_plan_has_no_redundant_stop_witness :
  prices_positive three_stations /\
  dp_path_indices 1200 three_stations = Ok (Some [1%Z; 2%Z]) /\
  exists chosen,
    stations_at three_stations [1%Z; 2%Z] = Ok chosen /\
    _find_optimal_stops_dp 1200 three_stations = Ok (map stop_of chosen) /\
    forall i, (i < length chosen)%nat -> ~ feasible 1200 (delete i chosen).
Proof.
  assert (H1 : prices_positive three_stations).
  { repeat constructor; unfold Qlt; simpl; lia. }
  assert (H2 : dp_path_indices 1200 three_stations = Ok (Some [1%Z; 2%Z])).
  { vm_compute. reflexivity. }
  split; [exact H1|]. split; [exact H2|].
  exact (dp_plan_has_no_redundant_stop 1200 three_stations [1%Z; 2%Z] H1 H2).
Defined.

Lemma stations_at_length (on_route_stations : list on_route) (path_indices : list Z)
    (chosen : list on_route) :
  stations_at on_route_stations path_indices = Ok chosen ->
  length chosen = length path_indices.
Proof.
  unfold stations_at.
  enough (forall acc out,
    for_each (fun chosen idx =>
                st ← getitem_z on_route_stations idx; Ok (chosen ++ [st]))
             acc path_indices = Ok out ->
    length out = (length acc + length path_indices)%nat) as H by exact (H [] chosen).
  induction path_indices as [|idx idxs IH]; intros acc out; cbn [for_each].
  - intros H. inversion H. simpl. lia.
  - destruct (getitem_z on_route_stations idx) as [st|e]; [|discriminate].
    ok_step. ok_step. intros H. rewrite (IH _ _ H), length_app. simpl. lia.
Qed.

(** Legs the DP measures within the range, between floats, are within
    the range: from 256 on the floats are multiples of [2^-44], and so is
    every multiple of 500. *)
Lemma float_gaps_ok_length (chainages : list Q) (prev last : Q) (k : Z) :
  Forall binary64 chainages -> binary64 last ->
  (0 <= k)%Z -> prev <= VEHICLE_RANGE_MILES * inject_Z k ->
  float_gaps_ok prev chainages last ->
  last <= VEHICLE_RANGE_MILES * inject_Z (k + Z.of_nat (length chainages + 1)).
Proof.
  unfold float_gaps_ok.
  assert (Hstep : forall a b j,
             binary64 b -> (0 <= j)%Z -> a <= VEHICLE_RANGE_MILES * inject_Z j ->
             float_sub b a <= VEHICLE_RANGE_MILES ->
             b <= VEHICLE_RANGE_MILES * inject_Z (j + 1)).
  { intros a b j Hb Hj Ha Hleg. unfold float_sub in Hleg. apply b64_le_500 in Hleg.
    assert (E : VEHICLE_RANGE_MILES * inject_Z (j + 1) == inject_Z (500 * (j + 1))).
    { rewrite inject_Z_mult. reflexivity. }
    rewrite E. apply binary64_le_int; [assumption | lia |].
    rewrite <- E, inject_Z_plus. change (inject_Z 1) with 1.
    unfold VEHICLE_RANGE_MILES in *. lra. }
  intros Hall Hlast. revert prev k.
  induction Hall as [|c rest Hc Hall IH]; intros prev k Hk Hprev; simpl.
  - intros H. now apply (Hstep prev).
  - intros [H1 H2].
    replace (k + Z.of_nat (S (length rest + 1)))%Z
      with ((k + 1) + Z.of_nat (length rest + 1))%Z by lia.
    apply (IH c); [lia | | assumption].
    now apply (Hstep prev).
Qed.

(** A DP plan with [k] stops covers at most [500 * (k + 1)] miles; on a
    route longer than the range it has at least one stop.  The route
    distance and the chainages are floats. *)
Theorem dp_plan_stop_count (route_distance : Q) (on_route_stations : list on_route)
    (path_indices : list Z) (stops : list OptimizedFuelStop.t) :
  binary64 route_distance ->
  Forall (fun st => binary64 (snd st)) on_route_stations ->
  dp_path_indices route_distance on_route_stations = Ok (Some path_indices) ->
  _find_optimal_stops_dp route_distance on_route_stations = Ok stops ->
  length stops = length path_indices /\
  route_distance <= VEHICLE_RANGE_MILES * inject_Z (Z.of_nat (length stops + 1)) /\
  (VEHICLE_RANGE_MILES < route_distance -> stops <> []).
Proof.
  intros Hrd Hfloats Hdp Hfind.
  destruct (selected_stations_cases route_distance on_route_stations)
    as [(Hnone & _)|(idxs & chosen & Hsome & Hat & Hsel & Hsub & Hfeas & _)].
  { rewrite Hdp in Hnone. discriminate. }
  rewrite Hdp in Hsome. inversion Hsome; subst idxs.
  rewrite find_optimal_stops_selected, Hsel in Hfind. inversion Hfind; subst stops.
  assert (Hlen : length chosen = length path_indices)
    by exact (stations_at_length _ _ _ Hat).
  assert (Hch : Forall binary64 (map snd chosen)).
  { apply Forall_forall. intros c Hc. apply list_elem_of_In, in_map_iff in Hc.
    destruct Hc as (st & <- & Hst). rewrite Forall_forall in Hfloats.
    apply Hfloats. eapply elem_of_sublist; [|exact Hsub]. now apply list_elem_of_In. }
  assert (Hbound : route_distance
                   <= VEHICLE_RANGE_MILES * inject_Z (Z.of_nat (length (map stop_of chosen) + 1))).
  { assert (H0 : 0 <= VEHICLE_RANGE_MILES * inject_Z 0) by (apply Qle_bool_iff; reflexivity).
    pose proof (float_gaps_ok_length (map snd chosen) 0 route_distance 0 Hch Hrd
                  ltac:(lia) H0 Hfeas) as H.
    rewrite !length_map in *. exact H. }
  split; [now rewrite length_map|]. split; [exact Hbound|].
  intros Hlong Hnil. rewrite Hnil in Hbound. simpl in Hbound.
  change (inject_Z (Z.of_nat 1)) with 1 in Hbound. lra.
Qed.

Lemma dp_plan_stop_count_witness :
  binary64 1200 /\
  Forall (fun st : on_route => binary64 (snd st)) three_stations /\
  dp_path_indices 1200 three_stations = Ok (Some [1%Z; 2%Z]) /\
  length (map stop_of [(example_station "B" 2.8, 450); (example_station "C" 2.9, 900)])
    = length [1%Z; 2%Z] /\
  1200 <= VEHICLE_RANGE_MILES
          * inject_Z (Z.of_nat (length (map stop_of [(example_station "B" 2.8, 450);
                                                      (example_station "C" 2.9, 900)]) + 1)) /\
  (VEHICLE_RANGE_MILES < 1200 ->
   map stop_of [(example_station "B" 2.8, 450); (example_station "C" 2.9, 900)] <> []).
Proof.
  assert (H0 : binary64 1200) by reflexivity.
  assert (Hf : Forall (fun st : on_route => binary64 (snd st)) three_stations).
  { repeat constructor. }
  assert (H1 : dp_path_indices 1200 three_stations = Ok (Some [1%Z; 2%Z])).
  { vm_compute. reflexivity. }
  assert (H2 : _find_optimal_stops_dp 1200 three_stations
               = Ok (map stop_of [(example_station "B" 2.8, 450);
                                  (example_station "C" 2.9, 900)])).
  { vm_compute. reflexivity. }
  split; [exact H0|]. split; [exact Hf|]. split; [exact H1|].
  exact (dp_plan_stop_count 1200 three_stations [1%Z; 2%Z] _ H0 Hf H1 H2).
Defined.

Lemma spaced_last (gap prev : Q) (chainages : list Q) :
  spaced gap prev chainages ->
  prev + gap * inject_Z (Z.of_nat (length chainages)) <= List.last chainages prev.
Proof.
  revert prev. induction chainages as [|c rest IH]; intros prev.
  - simpl. intros _. change (inject_Z (Z.of_nat 0)) with 0. lra.
  - intros [H1 H2]. specialize (IH c H2). rewrite last_cons_default.
    replace (Z.of_nat (length (c :: rest))) with (Z.of_nat (length rest) + 1)%Z
      by (simpl; lia).
    rewrite inject_Z_plus. change (inject_Z 1) with 1. lra.
Qed.

Lemma last_in {A} (l : list A) (d : A) : l <> [] -> In (List.last l d) l.
Proof.
  induction l as [|x l IH]; [congruence|]. intros _.
  destruct l as [|y l]; [now left|]. right. apply IH. discriminate.
Qed.

(** The greedy fallback makes at most [route_distance / 450] stops when no
    station lies beyond the destination. *)
Theorem greedy_stop_count (route_distance : Q) (on_route_stations : list on_route) :
  0 <= route_distance ->
  Forall (fun st => snd st <= route_distance) on_route_stations ->
  450 * inject_Z (Z.of_nat (length (_greedy_fallback route_distance on_route_stations)))
  <= route_distance.
Proof.
  intros Hrd Hrange.
  rewrite greedy_fallback_selected, length_map.
  destruct (greedy_loop_inv on_route_stations) as (chosen & Hrun & Hsp & Hsub).
  unfold greedy_selected. rewrite Hrun. cbn [fst].
  pose proof (spaced_last _ _ _ Hsp) as Hlast. rewrite length_map in Hlast.
  assert (Hle : List.last (map snd chosen) 0 <= route_distance).
  { destruct chosen as [|st chosen'] eqn:Hc; [exact Hrd|].
    rewrite <- Hc in *.
    assert (Hin : In (List.last (map snd chosen) 0) (map snd chosen)).
    { apply last_in. rewrite Hc. discriminate. }
    apply in_map_iff in Hin. destruct Hin as (st' & <- & Hst').
    rewrite Forall_forall in Hrange. apply Hrange.
    eapply elem_of_sublist; [|exact Hsub]. now apply list_elem_of_In. }
  assert (Hg : VEHICLE_RANGE_MILES - 50 == 450) by reflexivity.
  rewrite Hg in Hlast. lra.
Qed.

Lemma greedy_stop_count_witness :
  0 <= 1200 /\
  Forall (fun st : on_route => snd st <= 1200) three_stations /\
  450 * inject_Z (Z.of_nat (length (_greedy_fallback 1200 three_stations))) <= 1200.
Proof.
  assert (H1 : 0 <= 1200) by (unfold Qle; simpl; lia).
  assert (H2 : Forall (fun st : on_route => snd st <= 1200) three_stations).
  { repeat constructor; unfold Qle; simpl; lia. }
  split; [exact H1|]. split; [exact H2|].
  exact (greedy_stop_count 1200 three_stations H1 H2).
Defined.

(** ** The totals of the result *)




Section ResultInvariants.

Context {Geometry : Type}.
Variable get_route_from_addresses :
  string -> string -> res (option (RouteResult.t Geometry)).
Variable geocoded_stations : list FuelStation.t.
Variable find_stations_along_route :
  list (Q * Q) -> list FuelStation.t -> Q -> list on_route.

Local Abbreviation optimize :=
  (optimize_route get_route_from_addresses geocoded_stations find_stations_along_route).
Local Abbreviation corridor route :=
  (find_stations_along_route (RouteResult.coordinates route) geocoded_stations
                             MAX_ROUTE_DISTANCE_MILES).

(** Every returned plan, case by case. *)
Lemma optimize_route_Ok start_address end_address r :
  optimize start_address end_address = Ok r ->
  exists route,
    get_route_from_addresses start_address end_address = Ok (Some route) /\
    ((corridor route = [] /\
      r = _create_empty_result route start_address end_address "no_stations" 0) \/
     (corridor route <> [] /\
      exists chosen,
        chosen `sublist_of` corridor route /\
        OptimizedRouteResult.fuel_stops r = map stop_of chosen /\
        OptimizedRouteResult.total_fuel_cost r = round (sum_costs (map stop_of chosen)) 2 /\
        OptimizedRouteResult.optimization_method r = "dynamic_programming"%string /\
        OptimizedRouteResult.stations_considered r = length (corridor route))).
Proof.
  intros Hrun.
  destruct (get_route_from_addresses start_address end_address) as [[route|]|e] eqn:Hroute;
    try (unfold optimize_route in Hrun; rewrite Hroute in Hrun; discriminate).
  exists route. split; [reflexivity|].
  destruct (corridor route) as [|st sts] eqn:Hc.
  - left. split; [reflexivity|].
    rewrite (optimize_route_empty _ _ _ _ _ route Hroute Hc) in Hrun. congruence.
  - right. split; [discriminate|].
    destruct (optimize_route_planned get_route_from_addresses geocoded_stations
                find_stations_along_route start_address end_address route Hroute)
      as (chosen & r' & Hsel & Hrun' & Hstops & Hcost & _ & Hmethod & Hcount).
    { rewrite Hc. discriminate. }
    rewrite Hrun in Hrun'. inversion Hrun'; subst r'.
    exists chosen. rewrite <- Hc. repeat split; try assumption.
    destruct (selected_stations_total (RouteResult.distance_miles route) (corridor route))
      as (chosen' & Hsel' & _ & Hsub).
    rewrite Hsel in Hsel'. inversion Hsel'; subst chosen'. exact Hsub.
Qed.

(** In every returned plan there are no more stops than stations
    considered, the method is "no_stations" exactly when no station was
    considered, and it is "dynamic_programming" otherwise. *)
Theorem plan_counts_and_method start_address end_address r :
  optimize_route get_route_from_addresses geocoded_stations find_stations_along_route
                 start_address end_address = Ok r ->
  (length (OptimizedRouteResult.fuel_stops r)
   <= OptimizedRouteResult.stations_considered r)%nat /\
  (OptimizedRouteResult.optimization_method r = "no_stations"%string <->
   OptimizedRouteResult.stations_considered r = 0%nat) /\
  (OptimizedRouteResult.optimization_method r <> "no_stations"%string ->
   OptimizedRouteResult.optimization_method r = "dynamic_programming"%string).
Proof.
  intros Hrun.
  destruct (optimize_route_Ok start_address end_address r Hrun)
    as (route & _ & [[Hc ->]|(Hc & chosen & Hsub & Hstops & _ & Hmethod & Hcount)]).
  - cbn. split; [lia|]. split; [tauto | congruence].
  - rewrite Hstops, Hmethod, Hcount, length_map.
    split; [now apply sublist_length|]. split; [|reflexivity].
    split; [discriminate|].
    intros H0. destruct (corridor route); [congruence | discriminate].
Qed.


End ResultInvariants.

Lemma plan_counts_and_method_witness :
  exists r,
    optimize_route (fixed_route 1200) [] (fixed_corridor three_stations)
                   "Des Moines, IA" "Chicago, IL" = Ok r /\
    (length (OptimizedRouteResult.fuel_stops r)
     <= OptimizedRouteResult.stations_considered r)%nat /\
    (OptimizedRouteResult.optimization_method r = "no_stations"%string <->
     OptimizedRouteResult.stations_considered r = 0%nat) /\
    (OptimizedRouteResult.optimization_method r <> "no_stations"%string ->
     OptimizedRouteResult.optimization_method r = "dynamic_programming"%string).
Proof.
  eexists. split; [vm_compute; reflexivity|].
  apply (plan_counts_and_method (fixed_route 1200) [] (fixed_corridor three_stations)
           "Des Moines, IA" "Chicago, IL").
  vm_compute. reflexivity.
Defined.


(** * The routing service *)

(** ** [get_route] *)

Section RoutingFacts.

Variable _rate_limited_geocode : string -> Routing.call (option Routing.location).
Variable requests_get : Q -> Q -> Q -> Q -> Routing.http_outcome.

Local Abbreviation get_route := (Routing.get_route requests_get).
Local Abbreviation geocode_address := (Routing.geocode_address _rate_limited_geocode).
Local Abbreviation get_route_from_addresses :=
  (Routing.get_route_from_addresses _rate_limited_geocode requests_get).
Local Abbreviation geocoded := (Routing.geocoded _rate_limited_geocode).







(** A body whose distance is [null] makes [get_route] raise [TypeError];
    18 seconds are reported as 0.01 hours, the float quotient lying above
    0.005. *)
Lemma get_route_examples :
  snd (Routing.get_route null_distance_get 41.6 (-93.6) 41.9 (-87.6)) = Raise TypeError /\
  exists route,
    snd (Routing.get_route short_hop_get 41.6 (-93.6) 41.9 (-87.6)) = Ok (Some route) /\
    RouteResult.distance_miles route == 1 /\
    RouteResult.duration_hours route == 0.01 /\
    round (18 / 3600) 2 == 0.
Proof.
  split; [reflexivity|].
  eexists. split; [vm_compute; reflexivity|].
  cbn [RouteResult.distance_miles RouteResult.duration_hours].
  repeat split; vm_compute; reflexivity.
Qed.


(** ** [get_route_from_addresses] *)

(** The three ways through [get_route_from_addresses]: the start is not
    geocoded (one call, [ValueError] naming the start, the end address
    never looked up); the end is not geocoded (two calls, [ValueError]
    naming the end, no routing request); both are (three calls in the
    order start, end, route, and the answer of [get_route]). *)
Lemma get_route_from_addresses_cases (start_address end_address : string) :
  let start_query := Routing.GeocodeCall (String.append start_address ", USA") in
  let end_query := Routing.GeocodeCall (String.append end_address ", USA") in
  (geocoded start_address = None /\
   get_route_from_addresses start_address end_address
   = ([start_query],
      Raise (ValueError (String.append "Could not geocode start location: " start_address))))
  \/
  (exists start_coords,
     geocoded start_address = Some start_coords /\
     geocoded end_address = None /\
     get_route_from_addresses start_address end_address
     = ([start_query; end_query],
        Raise (ValueError (String.append "Could not geocode end location: " end_address))))
  \/
  (exists start_coords end_coords,
     geocoded start_address = Some start_coords /\
     geocoded end_address = Some end_coords /\
     get_route_from_addresses start_address end_address
     = ([start_query; end_query;
         Routing.OsrmCall (fst start_coords) (snd start_coords)
                          (fst end_coords) (snd end_coords)],
        snd (get_route (fst start_coords) (snd start_coords)
                       (fst end_coords) (snd end_coords)))).
Proof.
  cbv zeta.
  unfold Routing.get_route_from_addresses, Routing.geocoded, Routing.geocode_address.
  set (gs := _rate_limited_geocode (String.append start_address ", USA")).
  set (ge := _rate_limited_geocode (String.append end_address ", USA")).
  clearbody gs ge. cbn [snd].
  destruct gs as [[start_location|]|]; try (left; split; reflexivity).
  right.
  destruct ge as [[end_location|]|].
  - right. eexists _, _. split; [reflexivity|]. split; reflexivity.
  - left. eexists. split; [reflexivity|]. split; reflexivity.
  - left. eexists. split; [reflexivity|]. split; reflexivity.
Qed.

(** A request makes at most three calls: three exactly when both
    addresses were geocoded, which is exactly when a routing request was
    made, and then the routing request is the third call, after the
    geocoding of the start and of the end address; whenever the method
    returns, it has made the three calls. *)
Theorem at_most_three_api_calls (start_address end_address : string) :
  let calls := fst (get_route_from_addresses start_address end_address) in
  let outcome := snd (get_route_from_addresses start_address end_address) in
  (1 <= length calls <= 3)%nat /\
  (length calls = 3%nat <->
   exists start_coords end_coords,
     geocoded start_address = Some start_coords /\
     geocoded end_address = Some end_coords) /\
  (forall route, outcome = Ok route -> length calls = 3%nat) /\
  (forall a b c d,
     In (Routing.OsrmCall a b c d) calls ->
     calls = [Routing.GeocodeCall (String.append start_address ", USA");
              Routing.GeocodeCall (String.append end_address ", USA");
              Routing.OsrmCall a b c d] /\
     geocoded start_address = Some (a, b) /\ geocoded end_address = Some (c, d) /\
     outcome = snd (get_route a b c d)).
Proof.
  cbv zeta.
  destruct (get_route_from_addresses_cases start_address end_address)
    as [(Hs & ->)|[(sc & Hs & He & ->)|(sc & ec & Hs & He & ->)]]; cbn [fst snd length].
  - split; [lia|]. split; [|split].
    + split; [lia | intros (sc & ec & H & _); congruence].
    + intros route H. discriminate.
    + intros a b c d [H|[]]. discriminate.
  - split; [lia|]. split; [|split].
    + split; [lia | intros (sc' & ec & _ & H); congruence].
    + intros route H. discriminate.
    + intros a b c d [H|[H|[]]]; discriminate.
  - split; [lia|]. split; [|split].
    + split; [eauto | reflexivity].
    + reflexivity.
    + intros a b c d [H|[H|[H|[]]]]; try discriminate.
      inversion H; subst a b c d. split; [reflexivity|].
      destruct sc, ec. cbn [fst snd]. auto.
Qed.

End RoutingFacts.

(** * The entry point and the view *)

Section EntryPoint.

Variable CharField : option string -> Serializers.field_error + string.
Variable _rate_limited_geocode : string -> Routing.call (option Routing.location).
Variable requests_get : Q -> Q -> Q -> Q -> Routing.http_outcome.
Variable geocoded_stations : list FuelStation.t.
Variable find_stations_along_route :
  list (Q * Q) -> list FuelStation.t -> Q -> list on_route.
Variable elapsed : Q.

Local Abbreviation geocoded := (Routing.geocoded _rate_limited_geocode).
Local Abbreviation get_route := (Routing.get_route requests_get).
Local Abbreviation entry :=
  (optimize_fuel_route_v2 _rate_limited_geocode requests_get geocoded_stations
                          find_stations_along_route).
Local Abbreviation calls := (api_calls _rate_limited_geocode requests_get).
Local Abbreviation post :=
  (Views.post CharField _rate_limited_geocode requests_get geocoded_stations
              find_stations_along_route elapsed).
Local Abbreviation corridor route :=
  (find_stations_along_route (RouteResult.coordinates route) geocoded_stations
                             MAX_ROUTE_DISTANCE_MILES).




(** When the start address is not geocoded the request fails on it alone:
    one geocoding call, no look-up of the end address and no routing
    request; when only the end address is not geocoded, two geocoding
    calls and no routing request. *)
Theorem failed_geocoding_stops_early (start end_ : string) :
  (geocoded start = None ->
   calls start end_ = [Routing.GeocodeCall (String.append start ", USA")] /\
   entry start end_
   = Raise (ValueError (String.append "Could not geocode start location: " start))) /\
  (geocoded start <> None -> geocoded end_ = None ->
   calls start end_ = [Routing.GeocodeCall (String.append start ", USA");
                       Routing.GeocodeCall (String.append end_ ", USA")] /\
   entry start end_
   = Raise (ValueError (String.append "Could not geocode end location: " end_))).
Proof.
  unfold api_calls, optimize_fuel_route_v2, optimize_route.
  destruct (get_route_from_addresses_cases _rate_limited_geocode requests_get start end_)
    as [(Hs & ->)|[(sc & Hs & He & ->)|(sc & ec & Hs & He & ->)]]; cbn [fst snd].
  - split; [intros _; split; reflexivity | intros H; congruence].
  - split; [intros H; congruence | intros _ _; split; reflexivity].
  - split; [intros H; congruence | intros _ H; congruence].
Qed.


(** A body whose distance is [null] is answered with 500. *)
Lemma post_null_distance :
  Views.status
    (Views.post example_CharField example_geocode null_distance_get []
                (fun _ _ _ => []) 0
                {| Serializers.start := Some "Des Moines, IA"%string;
                   Serializers.end_ := Some "Chicago, IL"%string |}) = 500%nat.
Proof. vm_compute. reflexivity. Qed.


End EntryPoint.

(** * Request validation *)

(** ** [strip] *)

Lemma lstrip_chars_clean (l : list ascii) : starts_clean (lstrip_chars l).
Proof.
  induction l as [|c l IH]; simpl; [exact I|].
  destruct (isspace c) eqn:Hc; [exact IH | exact Hc].
Qed.

Lemma lstrip_chars_id (l : list ascii) : starts_clean l -> lstrip_chars l = l.
Proof. destruct l as [|c l]; simpl; [reflexivity|]. now intros ->. Qed.

Lemma lstrip_chars_snoc (l : list ascii) (c : ascii) :
  isspace c = false -> lstrip_chars (l ++ [c]) = lstrip_chars l ++ [c].
Proof.
  intros Hc. induction l as [|x l IH]; simpl.
  - now rewrite Hc.
  - destruct (isspace x); [exact IH | reflexivity].
Qed.

Lemma strip_chars_clean (l : list ascii) :
  starts_clean (strip_chars l) /\ starts_clean (rev (strip_chars l)).
Proof.
  unfold strip_chars. split.
  - pose proof (lstrip_chars_clean l) as Hl.
    destruct (lstrip_chars l) as [|c t]; [exact I|]. simpl in Hl.
    cbn [rev]. rewrite (lstrip_chars_snoc _ _ Hl), rev_app_distr. exact Hl.
  - rewrite rev_involutive. apply lstrip_chars_clean.
Qed.

Lemma strip_chars_id (l : list ascii) :
  starts_clean l -> starts_clean (rev l) -> strip_chars l = l.
Proof.
  intros H1 H2. unfold strip_chars.
  rewrite (lstrip_chars_id l H1), (lstrip_chars_id (rev l) H2). apply rev_involutive.
Qed.

Lemma strip_chars_length (l : list ascii) : (length (strip_chars l) <= length l)%nat.
Proof.
  assert (H : forall k, (length (lstrip_chars k) <= length k)%nat).
  { induction k as [|c k IH]; simpl; [lia|]. destruct (isspace c); simpl; lia. }
  unfold strip_chars. rewrite length_rev.
  etransitivity; [apply H|]. rewrite length_rev. apply H.
Qed.

(** [strip] removes all the whitespace at both ends and nothing else
    changes when it is applied again. *)
Lemma strip_idempotent (s : string) : strip (strip s) = strip s.
Proof.
  unfold strip. rewrite list_ascii_of_string_of_list_ascii. f_equal.
  apply strip_chars_id; apply strip_chars_clean.
Qed.

Lemma strip_clean (s : string) :
  starts_clean (list_ascii_of_string (strip s)) /\
  starts_clean (rev (list_ascii_of_string (strip s))).
Proof.
  unfold strip. rewrite list_ascii_of_string_of_list_ascii. apply strip_chars_clean.
Qed.

(** ** The serializer *)

Section SerializerFacts.

Variable CharField : option string -> Serializers.field_error + string.

Lemma validate_start_result (value v : string) :
  Serializers.validate_start value = inr v -> v = strip value /\ v <> EmptyString.
Proof.
  unfold Serializers.validate_start.
  destruct (bool_decide_reflect (strip value = EmptyString)); [discriminate|].
  intros H. inversion H. auto.
Qed.

Lemma validate_end_result (value v : string) :
  Serializers.validate_end value = inr v -> v = strip value /\ v <> EmptyString.
Proof.
  unfold Serializers.validate_end.
  destruct (bool_decide_reflect (strip value = EmptyString)); [discriminate|].
  intros H. inversion H. auto.
Qed.

(** Whatever the field of the framework lets through, the addresses the
    serializer validates are not empty and have no whitespace at either
    end; validating them again gives them back. *)
Theorem validated_addresses_are_stripped (data : Serializers.request_data)
    (start end_ : string) :
  Serializers.is_valid CharField data = inr (start, end_) ->
  (start <> EmptyString /\ strip start = start /\
   starts_clean (list_ascii_of_string start) /\
   starts_clean (rev (list_ascii_of_string start)) /\
   Serializers.validate_start start = inr start) /\
  (end_ <> EmptyString /\ strip end_ = end_ /\
   starts_clean (list_ascii_of_string end_) /\
   starts_clean (rev (list_ascii_of_string end_)) /\
   Serializers.validate_end end_ = inr end_).
Proof.
  unfold Serializers.is_valid, Serializers.run_field.
  destruct (CharField (Serializers.start data)) as [e1|v1].
  { destruct (match CharField (Serializers.end_ data) with
              | inl e => inl e | inr value => Serializers.validate_end value end);
      discriminate. }
  destruct (Serializers.validate_start v1) as [e1|s] eqn:Hs.
  { destruct (match CharField (Serializers.end_ data) with
              | inl e => inl e | inr value => Serializers.validate_end value end);
      discriminate. }
  destruct (CharField (Serializers.end_ data)) as [e2|v2]; [discriminate|].
  destruct (Serializers.validate_end v2) as [e2|e] eqn:He; [discriminate|].
  intros H. inversion H; subst s e.
  apply validate_start_result in Hs. destruct Hs as [-> Hs].
  apply validate_end_result in He. destruct He as [-> He].
  split.
  - split; [exact Hs|]. split; [apply strip_idempotent|].
    split; [apply strip_clean|]. split; [apply strip_clean|].
    unfold Serializers.validate_start. rewrite strip_idempotent.
    now rewrite bool_decide_eq_false_2.
  - split; [exact He|]. split; [apply strip_idempotent|].
    split; [apply strip_clean|]. split; [apply strip_clean|].
    unfold Serializers.validate_end. rewrite strip_idempotent.
    now rewrite bool_decide_eq_false_2.
Qed.

End SerializerFacts.

(** ** Runs of the concrete service *)

Lemma failed_geocoding_stops_early_witness :
  Routing.geocoded example_geocode "InvalidCityXYZ123" = None /\
  api_calls example_geocode example_requests_get "InvalidCityXYZ123" "AnotherFakeCity999"
    = [Routing.GeocodeCall "InvalidCityXYZ123, USA"] /\
  optimize_fuel_route_v2 example_geocode example_requests_get []
    (fixed_corridor three_stations) "InvalidCityXYZ123" "AnotherFakeCity999"
  = Raise (ValueError "Could not geocode start location: InvalidCityXYZ123").
Proof.
  assert (H : Routing.geocoded example_geocode "InvalidCityXYZ123" = None) by reflexivity.
  split; [exact H|].
  exact (proj1 (failed_geocoding_stops_early example_geocode example_requests_get []
                  (fixed_corridor three_stations)
                  "InvalidCityXYZ123" "AnotherFakeCity999") H).
Defined.


Lemma validated_addresses_are_stripped_witness :
  Serializers.is_valid example_CharField
    {| Serializers.start := Some "  New York, NY  "%string;
       Serializers.end_ := Some "  Boston, MA  "%string |}
  = inr ("New York, NY"%string, "Boston, MA"%string) /\
  ("New York, NY"%string <> EmptyString /\
   strip "New York, NY" = "New York, NY"%string /\
   starts_clean (list_ascii_of_string "New York, NY") /\
   starts_clean (rev (list_ascii_of_string "New York, NY")) /\
   Serializers.validate_start "New York, NY" = inr "New York, NY"%string) /\
  ("Boston, MA"%string <> EmptyString /\
   strip "Boston, MA" = "Boston, MA"%string /\
   starts_clean (list_ascii_of_string "Boston, MA") /\
   starts_clean (rev (list_ascii_of_string "Boston, MA")) /\
   Serializers.validate_end "Boston, MA" = inr "Boston, MA"%string).
Proof.
  assert (H : Serializers.is_valid example_CharField
                {| Serializers.start := Some "  New York, NY  "%string;
                   Serializers.end_ := Some "  Boston, MA  "%string |}
              = inr ("New York, NY"%string, "Boston, MA"%string)).
  { vm_compute. reflexivity. }
  split; [exact H|].
  exact (validated_addresses_are_stripped example_CharField _ _ _ H).
Defined.

(** * Sampling points along a route *)

Section SamplingFacts.

Variable haversine : Q -> Q -> Q -> Q -> Q.

Lemma cumulative_miles_cons (acc lon1 lat1 lon2 lat2 : Q) (rest : list (Q * Q)) :
  cumulative_miles haversine acc ((lon1, lat1) :: (lon2, lat2) :: rest)
  = cumulative_miles haversine (float_add acc (haversine lat1 lon1 lat2 lon2))
                     ((lon2, lat2) :: rest).
Proof. reflexivity. Qed.

Lemma cumulative_miles_binary64 (acc : Q) (coords : list (Q * Q)) :
  binary64 acc -> binary64 (cumulative_miles haversine acc coords).
Proof.
  revert acc. induction coords as [|[lon1 lat1] rest IH]; intros acc Hacc; [exact Hacc|].
  destruct rest as [|[lon2 lat2] rest]; [exact Hacc|].
  rewrite cumulative_miles_cons. apply IH, float_add_binary64.
Qed.

Lemma cumulative_miles_le (acc : Q) (coords : list (Q * Q)) :
  distances_nonneg haversine -> binary64 acc ->
  acc <= cumulative_miles haversine acc coords.
Proof.
  intros Hnn. revert acc.
  induction coords as [|[lon1 lat1] rest IH]; intros acc Hacc; [apply Qle_refl|].
  destruct rest as [|[lon2 lat2] rest]; [apply Qle_refl|].
  rewrite cumulative_miles_cons.
  eapply Qle_trans; [|apply IH, float_add_binary64].
  apply b64_add_nonneg; [exact Hacc | apply Hnn].
Qed.

Lemma cumulative_miles_take (acc : Q) (coords : list (Q * Q)) (k : nat) :
  distances_nonneg haversine -> binary64 acc ->
  cumulative_miles haversine acc (take k coords) <= cumulative_miles haversine acc coords.
Proof.
  intros Hnn. revert acc k.
  induction coords as [|[lon1 lat1] rest IH]; intros acc k Hacc.
  - rewrite take_nil. apply Qle_refl.
  - destruct k as [|k]; [now apply cumulative_miles_le|].
    destruct rest as [|[lon2 lat2] rest]; [rewrite take_ge by (cbn; lia); apply Qle_refl|].
    destruct k as [|k].
    + change (cumulative_miles haversine acc (take 1 ((lon1, lat1) :: (lon2, lat2) :: rest)))
        with acc.
      now apply cumulative_miles_le.
    + change (take (S (S k)) ((lon1, lat1) :: (lon2, lat2) :: rest))
        with ((lon1, lat1) :: (lon2, lat2) :: take k rest).
      rewrite !cumulative_miles_cons.
      apply (IH _ (S k)), float_add_binary64.
Qed.

Lemma polyline_miles_take (coords : list (Q * Q)) (k : nat) :
  distances_nonneg haversine ->
  polyline_miles haversine (take k coords) <= polyline_miles haversine coords.
Proof. intros Hnn. apply cumulative_miles_take; [exact Hnn | apply binary64_0]. Qed.

Lemma cumulative_miles_step (acc : Q) (coords : list (Q * Q)) (i : nat) lon1 lat1 lon2 lat2 :
  coords !! i = Some (lon1, lat1) -> coords !! S i = Some (lon2, lat2) ->
  cumulative_miles haversine acc (take (S (S i)) coords)
  = float_add (cumulative_miles haversine acc (take (S i) coords))
              (haversine lat1 lon1 lat2 lon2).
Proof.
  revert acc i.
  induction coords as [|[lo la] rest IH]; intros acc i H1 H2; [discriminate|].
  destruct rest as [|[lo' la'] rest]; [discriminate|].
  destruct i as [|i].
  - cbn in H1, H2. injection H1 as -> ->. injection H2 as -> ->. reflexivity.
  - cbn in H1, H2.
    change (take (S (S (S i))) ((lo, la) :: (lo', la') :: rest))
      with ((lo, la) :: (lo', la') :: take (S i) rest).
    change (take (S (S i)) ((lo, la) :: (lo', la') :: rest))
      with ((lo, la) :: (lo', la') :: take i rest).
    rewrite !cumulative_miles_cons.
    change ((lo', la') :: take (S i) rest) with (take (S (S i)) ((lo', la') :: rest)).
    change ((lo', la') :: take i rest) with (take (S i) ((lo', la') :: rest)).
    now apply IH.
Qed.

Lemma vertex_miles_step (coords : list (Q * Q)) (i : nat) lon1 lat1 lon2 lat2 :
  coords !! i = Some (lon1, lat1) -> coords !! S i = Some (lon2, lat2) ->
  vertex_miles haversine coords (S i)
  = float_add (vertex_miles haversine coords i) (haversine lat1 lon1 lat2 lon2).
Proof. apply cumulative_miles_step. Qed.

Lemma vertex_miles_binary64 (coords : list (Q * Q)) (i : nat) :
  binary64 (vertex_miles haversine coords i).
Proof. apply cumulative_miles_binary64, binary64_0. Qed.

Lemma vertex_miles_last (coords : list (Q * Q)) (i : nat) :
  (i + 1 = length coords)%nat ->
  vertex_miles haversine coords i = polyline_miles haversine coords.
Proof. intros Hi. unfold vertex_miles. rewrite take_ge by lia. reflexivity. Qed.

Lemma snapped_forward_mono (coords : list (Q * Q)) (i i' : nat) (p : RoutePoint.t) :
  (i <= i')%nat -> snapped_forward haversine coords i p ->
  snapped_forward haversine coords i' p.
Proof. intros Hi (j & Hj & H). exists j. split; [lia | exact H]. Qed.

Lemma sample_distance_binary64 (iv : Q) (k : nat) :
  binary64 iv -> binary64 (sample_distance iv k).
Proof. intros Hiv. destruct k; [exact Hiv | apply float_add_binary64]. Qed.

(** The sample distances never decrease. *)
Lemma sample_distance_le (iv : Q) (k k' : nat) :
  0 <= iv -> binary64 iv -> (k <= k')%nat ->
  sample_distance iv k <= sample_distance iv k'.
Proof.
  intros Hiv Hb Hk. induction Hk as [|k' Hk IH]; [apply Qle_refl|].
  eapply Qle_trans; [exact IH|]. cbn [sample_distance].
  apply b64_add_nonneg; [now apply sample_distance_binary64 | exact Hiv].
Qed.

Lemma sample_while_spec (coords : list (Q * Q)) (iv : Q) (i : nat) lon2 lat2 (cum : Q) :
  0 <= iv -> binary64 iv ->
  coords !! S i = Some (lon2, lat2) ->
  cum = vertex_miles haversine coords (S i) ->
  forall fuel points,
    vertex_miles haversine coords i < sample_distance iv (length points) ->
    (forall k, (k < length points)%nat -> sample_distance iv k <= cum) ->
    sampled haversine coords iv (S i) points ->
    cum < sample_distance iv (length points + fuel) ->
    exists points',
      sample_while fuel cum lat2 lon2 iv (points, sample_distance iv (length points))
      = Ok (points', sample_distance iv (length points')) /\
      cum < sample_distance iv (length points') /\
      (forall k, (k < length points')%nat -> sample_distance iv k <= cum) /\
      sampled haversine coords iv (S i) points'.
Proof.
  intros Hiv Hb Hv Hcum.
  induction fuel as [|fuel IH]; intros points Hprev Hlow Hpts Hfuel;
    cbn [sample_while];
    destruct (Qle_bool (sample_distance iv (length points)) cum) eqn:Htest.
  - apply Qle_bool_iff in Htest. rewrite Nat.add_0_r in Hfuel. lra.
  - exists points.
    split; [reflexivity|]. split; [|split; assumption].
    rewrite <- Qltb_true. unfold Qltb. now rewrite Htest.
  - apply Qle_bool_iff in Htest.
    assert (Hlen : length (points ++ [RoutePoint.mk lat2 lon2
                                        (sample_distance iv (length points))])
                   = S (length points)).
    { rewrite length_app. cbn. lia. }
    change (float_add (sample_distance iv (length points)) iv)
      with (sample_distance iv (S (length points))).
    rewrite <- Hlen. apply IH.
    + rewrite Hlen. eapply Qlt_le_trans; [exact Hprev|].
      apply sample_distance_le; [assumption | assumption | lia].
    + rewrite Hlen. intros k Hk.
      destruct (decide (k = length points)) as [->|Hne]; [exact Htest|].
      apply Hlow. lia.
    + intros k p Hk.
      apply lookup_app_Some in Hk as [Hk | [Hge Hk]]; [now apply Hpts|].
      apply list_lookup_singleton_Some in Hk as [Hk0 <-].
      assert (k = length points) as -> by lia. cbn. split; [reflexivity|].
      exists i. cbn. repeat split; [lia | exact Hv | exact Hprev |].
      rewrite <- Hcum. exact Htest.
    + rewrite Hlen. now replace (S (length points) + fuel)%nat
        with (length points + S fuel)%nat by lia.
  - exists points.
    split; [reflexivity|]. split; [|split; assumption].
    rewrite <- Qltb_true. unfold Qltb. now rewrite Htest.
Qed.

Lemma sample_segment_Ok (coords : list (Q * Q)) (iv : Q) (fuel i : nat)
    lon1 lat1 lon2 lat2 points cum next points' next' :
  coords !! i = Some (lon1, lat1) -> coords !! S i = Some (lon2, lat2) ->
  sample_while fuel (float_add cum (haversine lat1 lon1 lat2 lon2)) lat2 lon2 iv
               (points, next)
  = Ok (points', next') ->
  sample_segment haversine fuel coords iv (points, cum, next) i
  = Ok (points', float_add cum (haversine lat1 lon1 lat2 lon2), next').
Proof.
  intros H1 H2 Hrun. unfold sample_segment, getitem.
  rewrite Nat.add_1_r, H1, H2. ok_step. cbv beta iota. ok_step. cbv beta iota.
  rewrite Hrun. reflexivity.
Qed.

Lemma sample_loop_spec (coords : list (Q * Q)) (iv : Q) (fuel : nat) :
  0 <= iv -> binary64 iv -> distances_nonneg haversine ->
  polyline_miles haversine coords < sample_distance iv fuel ->
  forall n i points cum,
    (i + n + 1 = length coords)%nat ->
    cum = vertex_miles haversine coords i ->
    cum < sample_distance iv (length points) ->
    (forall k, (k < length points)%nat -> sample_distance iv k <= cum) ->
    sampled haversine coords iv i points ->
    exists points' cum',
      for_each (sample_segment haversine fuel coords iv)
               (points, cum, sample_distance iv (length points)) (seq i n)
      = Ok (points', cum', sample_distance iv (length points')) /\
      cum' = polyline_miles haversine coords /\
      cum' < sample_distance iv (length points') /\
      (forall k, (k < length points')%nat -> sample_distance iv k <= cum') /\
      sampled haversine coords iv (i + n) points'.
Proof.
  intros Hiv Hb Hnn Hfuel.
  induction n as [|n IH]; intros i points cum Hlen Hcum Hlt Hlow Hpts.
  - exists points, cum. cbn [seq for_each]. rewrite Nat.add_0_r.
    split; [reflexivity|].
    split; [|split; [exact Hlt | split; [exact Hlow | exact Hpts]]].
    rewrite Hcum. apply vertex_miles_last. lia.
  - cbn [seq for_each].
    destruct (lookup_lt_is_Some_2 coords i ltac:(lia)) as [[lon1 lat1] H1].
    destruct (lookup_lt_is_Some_2 coords (S i) ltac:(lia)) as [[lon2 lat2] H2].
    pose proof (vertex_miles_step coords i _ _ _ _ H1 H2) as Hstep.
    pose proof (polyline_miles_take coords (S (S i)) Hnn) as Htot.
    fold (vertex_miles haversine coords (S i)) in Htot.
    assert (Hup : cum <= float_add cum (haversine lat1 lon1 lat2 lon2)).
    { apply b64_add_nonneg; [|apply Hnn]. rewrite Hcum. apply vertex_miles_binary64. }
    assert (Hcum' : float_add cum (haversine lat1 lon1 lat2 lon2)
                    = vertex_miles haversine coords (S i)).
    { now rewrite Hstep, Hcum. }
    destruct (sample_while_spec coords iv i lon2 lat2
                (float_add cum (haversine lat1 lon1 lat2 lon2)) Hiv Hb H2 Hcum'
                fuel points)
      as (points' & Hrun & Hlt' & Hlow' & Hpts').
    + now rewrite <- Hcum.
    + intros k Hk. eapply Qle_trans; [now apply Hlow | exact Hup].
    + intros k p Hk. destruct (Hpts k p Hk) as [Hd Hs]. split; [exact Hd|].
      apply (snapped_forward_mono coords i); [lia | exact Hs].
    + rewrite Hcum'. eapply Qle_lt_trans; [exact Htot|].
      eapply Qlt_le_trans; [exact Hfuel|].
      apply sample_distance_le; [assumption | assumption | lia].
    + rewrite (sample_segment_Ok _ _ _ _ _ _ _ _ _ _ _ _ _ H1 H2 Hrun). ok_step.
      destruct (IH (S i) points' (float_add cum (haversine lat1 lon1 lat2 lon2)))
        as (points'' & cum'' & Hrun' & H); try assumption.
      * lia.
      * exists points'', cum''. rewrite Hrun'.
        replace (i + S n)%nat with (S i + n)%nat by lia. exact (conj eq_refl H).
Qed.

Lemma sample_points_cases {Geometry : Type} (route : RouteResult.t Geometry)
    (iv : Q) (fuel : nat) :
  0 < iv -> binary64 iv -> distances_nonneg haversine ->
  polyline_miles haversine (RouteResult.coordinates route) < sample_distance iv fuel ->
  exists points,
    sample_points_along_route haversine fuel route iv = Ok points /\
    (forall k, (k < length points)%nat ->
               sample_distance iv k
               <= polyline_miles haversine (RouteResult.coordinates route)) /\
    polyline_miles haversine (RouteResult.coordinates route)
      < sample_distance iv (length points) /\
    sampled haversine (RouteResult.coordinates route) iv
            (length (RouteResult.coordinates route) - 1) points.
Proof.
  intros Hiv Hb Hnn Hfuel. unfold sample_points_along_route.
  destruct (RouteResult.coordinates route) as [|c coords] eqn:Hcoords.
  - exists []. split; [reflexivity|].
    split; [intros k Hk; cbn in Hk; lia|]. split; [exact Hiv|].
    intros k p Hk. discriminate.
  - destruct c as [lon lat].
    destruct (sample_loop_spec ((lon, lat) :: coords) iv fuel (Qlt_le_weak _ _ Hiv)
                Hb Hnn Hfuel (length ((lon, lat) :: coords) - 1) 0 [] 0)
      as (points & cum & Hrun & Hcum & Hlt & Hlow & Hpts).
    + cbn. lia.
    + reflexivity.
    + exact Hiv.
    + intros k Hk. cbn in Hk. lia.
    + intros k p Hk. discriminate.
    + exists points.
      change (sample_distance iv (length (@nil RoutePoint.t))) with iv in Hrun.
      rewrite Hrun. ok_step. cbn [fst].
      rewrite <- Hcum.
      split; [reflexivity|]. split; [exact Hlow|]. split; [exact Hlt | exact Hpts].
Qed.

Lemma sample_while_diverges (cum lat2 lon2 iv : Q) (fuel : nat) :
  iv <= 0 -> binary64 cum ->
  forall points next, next <= cum ->
    sample_while fuel cum lat2 lon2 iv (points, next) = Raise LoopBound.
Proof.
  intros Hiv Hb. induction fuel as [|fuel IH]; intros points next Hle; cbn [sample_while];
    apply Qle_bool_iff in Hle as Htest; rewrite Htest; [reflexivity|].
  apply IH. unfold binary64 in Hb. rewrite <- Hb. apply b64_le. lra.
Qed.

(** [sample_points_along_route] with a positive interval, on a polyline
    whose segments have non-negative length, the running distances being
    floats: when the sample distance exceeds the length of the polyline
    within the bound on the iterations, the sampler returns; the [k]-th
    point (from 0) reports the [k]-th sample distance, the interval with
    the interval added [k] times, and the points are those whose sample
    distance is at most the length of the polyline. *)
Theorem sample_points_every_interval {Geometry : Type} (route : RouteResult.t Geometry)
    (interval_miles : Q) (fuel : nat) :
  0 < interval_miles -> binary64 interval_miles -> distances_nonneg haversine ->
  polyline_miles haversine (RouteResult.coordinates route)
    < sample_distance interval_miles fuel ->
  exists points,
    sample_points_along_route haversine fuel route interval_miles = Ok points /\
    (forall k p, points !! k = Some p ->
       RoutePoint.distance_from_start_miles p = sample_distance interval_miles k) /\
    (forall k, (k < length points)%nat ->
       sample_distance interval_miles k
       <= polyline_miles haversine (RouteResult.coordinates route)) /\
    polyline_miles haversine (RouteResult.coordinates route)
      < sample_distance interval_miles (length points).
Proof.
  intros Hiv Hb Hnn Hfuel.
  destruct (sample_points_cases route interval_miles fuel Hiv Hb Hnn Hfuel)
    as (points & Hrun & Hlow & Hhigh & Hpts).
  exists points. split; [exact Hrun|]. split; [|split; assumption].
  intros k p Hk. apply (Hpts k p Hk).
Qed.

(** [sample_points_along_route] does not interpolate: every sampled
    point carries the coordinates of a vertex of the polyline, the first
    one at which the running distance reaches the sample distance, so the
    point can lie up to one segment beyond the distance it reports. *)
Theorem sample_points_on_next_vertex {Geometry : Type} (route : RouteResult.t Geometry)
    (interval_miles : Q) (fuel : nat) :
  0 < interval_miles -> binary64 interval_miles -> distances_nonneg haversine ->
  polyline_miles haversine (RouteResult.coordinates route)
    < sample_distance interval_miles fuel ->
  exists points,
    sample_points_along_route haversine fuel route interval_miles = Ok points /\
    forall p, p ∈ points ->
      exists j,
        RouteResult.coordinates route !! S j
        = Some (RoutePoint.longitude p, RoutePoint.latitude p) /\
        vertex_miles haversine (RouteResult.coordinates route) j
        < RoutePoint.distance_from_start_miles p /\
        RoutePoint.distance_from_start_miles p
        <= vertex_miles haversine (RouteResult.coordinates route) (S j).
Proof.
  intros Hiv Hb Hnn Hfuel.
  destruct (sample_points_cases route interval_miles fuel Hiv Hb Hnn Hfuel)
    as (points & Hrun & _ & _ & Hpts).
  exists points. split; [exact Hrun|].
  intros p Hp. apply list_elem_of_lookup in Hp as [k Hk].
  destruct (Hpts k p Hk) as [_ (j & _ & H)]. exists j. exact H.
Qed.

(** [sample_points_along_route] with an interval of zero or less, on a
    polyline of two or more vertices whose segments have non-negative
    length: the inner [while] never ends, whatever the bound on its
    iterations. *)
Theorem sample_points_needs_positive_interval {Geometry : Type}
    (route : RouteResult.t Geometry) (interval_miles : Q) (fuel : nat) :
  interval_miles <= 0 -> distances_nonneg haversine ->
  (2 <= length (RouteResult.coordinates route))%nat ->
  sample_points_along_route haversine fuel route interval_miles = Raise LoopBound.
Proof.
  intros Hiv Hnn Hlen. unfold sample_points_along_route.
  destruct (RouteResult.coordinates route) as [|[lon1 lat1] [|[lon2 lat2] coords]];
    cbn [length] in Hlen; try lia.
  change (length ((lon1, lat1) :: (lon2, lat2) :: coords) - 1)%nat with (S (length coords)).
  cbn [seq for_each].
  assert (sample_segment haversine fuel ((lon1, lat1) :: (lon2, lat2) :: coords)
            interval_miles ([], 0, interval_miles) 0 = Raise LoopBound) as ->;
    [|reflexivity].
  unfold sample_segment, getitem.
  change (((lon1, lat1) :: (lon2, lat2) :: coords) !! 0%nat) with (Some (lon1, lat1)).
  change (((lon1, lat1) :: (lon2, lat2) :: coords) !! (0 + 1)%nat) with (Some (lon2, lat2)).
  ok_step. cbv beta iota. ok_step. cbv beta iota. try (ok_step; cbv beta iota).
  rewrite sample_while_diverges; [reflexivity | exact Hiv | apply float_add_binary64 |].
  pose proof (Hnn lat1 lon1 lat2 lon2) as Hseg.
  pose proof (b64_nonneg (0 + haversine lat1 lon1 lat2 lon2) ltac:(lra)) as H0.
  unfold float_add. lra.
Qed.

End SamplingFacts.

Lemma example_miles_nonneg : distances_nonneg example_miles.
Proof.
  intros lat1 lon1 lat2 lon2. unfold example_miles.
  generalize (lat2 - lat1) (lon2 - lon1). intros a b.
  assert (0 <= a * a) by (destruct (Qlt_le_dec a 0); nra).
  assert (0 <= b * b) by (destruct (Qlt_le_dec b 0); nra).
  lra.
Qed.

Lemma sample_points_every_interval_witness :
  0 < 400 /\ binary64 400 /\ distances_nonneg example_miles /\
  polyline_miles example_miles (RouteResult.coordinates (example_route 1200))
    < sample_distance 400 10 /\
  exists points,
    sample_points_along_route example_miles 10 (example_route 1200) 400 = Ok points /\
    (forall k p, points !! k = Some p ->
       RoutePoint.distance_from_start_miles p = sample_distance 400 k) /\
    (forall k, (k < length points)%nat ->
       sample_distance 400 k
       <= polyline_miles example_miles (RouteResult.coordinates (example_route 1200))) /\
    polyline_miles example_miles (RouteResult.coordinates (example_route 1200))
      < sample_distance 400 (length points).
Proof.
  pose proof example_miles_nonneg as Hnn.
  assert (H1 : 0 < 400) by reflexivity.
  assert (H2 : binary64 400) by reflexivity.
  assert (H3 : polyline_miles example_miles (RouteResult.coordinates (example_route 1200))
               < sample_distance 400 10) by (vm_compute; reflexivity).
  split; [exact H1|]. split; [exact H2|]. split; [exact Hnn|]. split; [exact H3|].
  exact (sample_points_every_interval example_miles (example_route 1200) 400 10
           H1 H2 Hnn H3).
Defined.

Lemma sample_points_on_next_vertex_witness :
  0 < 400 /\ binary64 400 /\ distances_nonneg example_miles /\
  polyline_miles example_miles (RouteResult.coordinates (example_route 1200))
    < sample_distance 400 10 /\
  exists points,
    sample_points_along_route example_miles 10 (example_route 1200) 400 = Ok points /\
    forall p, p ∈ points ->
      exists j,
        RouteResult.coordinates (example_route 1200) !! S j
        = Some (RoutePoint.longitude p, RoutePoint.latitude p) /\
        vertex_miles example_miles (RouteResult.coordinates (example_route 1200)) j
        < RoutePoint.distance_from_start_miles p /\
        RoutePoint.distance_from_start_miles p
        <= vertex_miles example_miles (RouteResult.coordinates (example_route 1200)) (S j).
Proof.
  pose proof example_miles_nonneg as Hnn.
  assert (H1 : 0 < 400) by reflexivity.
  assert (H2 : binary64 400) by reflexivity.
  assert (H3 : polyline_miles example_miles (RouteResult.coordinates (example_route 1200))
               < sample_distance 400 10) by (vm_compute; reflexivity).
  split; [exact H1|]. split; [exact H2|]. split; [exact Hnn|]. split; [exact H3|].
  exact (sample_points_on_next_vertex example_miles (example_route 1200) 400 10
           H1 H2 Hnn H3).
Defined.

(** Over one mile at the float interval 0.1 the sampler returns ten
    points: the tenth sample distance is 0.9999999999999999.  Nine
    intervals fit in the mile, the float 0.1 being above one tenth. *)
Lemma ten_points_in_a_mile :
  polyline_miles example_miles (RouteResult.coordinates one_mile_route) == 1 /\
  (exists points,
     sample_points_along_route example_miles 20 one_mile_route (b64 0.1) = Ok points /\
     length points = 10%nat) /\
  sample_distance (b64 0.1) 9 < 1 /\
  Qfloor (1 / b64 0.1) = 9%Z.
Proof.
  split; [vm_compute; reflexivity|].
  split; [eexists; split; [vm_compute; reflexivity | reflexivity]|].
  split; vm_compute; reflexivity.
Qed.

Lemma sample_points_needs_positive_interval_witness :
  0 <= 0 /\ distances_nonneg example_miles /\
  (2 <= length (RouteResult.coordinates (example_route 1200)))%nat /\
  sample_points_along_route example_miles 1000 (example_route 1200) 0 = Raise LoopBound.
Proof.
  pose proof example_miles_nonneg as Hnn.
  split; [discriminate|]. split; [exact Hnn|]. split; [cbn; lia|].
  apply (sample_points_needs_positive_interval example_miles (example_route 1200) 0 1000);
    [discriminate | exact Hnn | cbn; lia].
Defined.

(** * The states along a route *)

Lemma range_step_bound (stop step i : nat) :
  (0 < step)%nat -> i ∈ States.range_step stop step -> (i < stop)%nat.
Proof.
  intros Hstep Hi. unfold States.range_step in Hi.
  apply list_elem_of_fmap in Hi as (k & -> & Hk).
  apply elem_of_seq in Hk as [_ Hk]. cbn in Hk.
  pose proof (Nat.Div0.mul_div_le (stop + step - 1) step) as Hdiv.
  nia.
Qed.

Lemma sample_count_bounds (n : nat) :
  let step := Nat.max 1 (n / 20) in
  let count := ((n + step - 1) / step)%nat in
  (count <= 39)%nat /\ (count <= n)%nat /\ (Nat.min n 20 <= count)%nat.
Proof.
  cbv zeta.
  pose proof (Nat.div_mod_eq n 20) as Hn.
  pose proof (Nat.mod_upper_bound n 20 ltac:(lia)) as Hr.
  destruct (Nat.lt_ge_cases n 20) as [Hsmall | Hbig].
  - rewrite (Nat.div_small n 20 Hsmall). change (Nat.max 1 0) with 1%nat.
    rewrite Nat.div_1_r. lia.
  - assert (1 <= n / 20)%nat as Hq by (apply Nat.div_le_lower_bound; lia).
    rewrite Nat.max_r by exact Hq.
    set (q := (n / 20)%nat) in *.
    split; [|split].
    + apply Nat.lt_succ_r. apply Nat.Div0.div_lt_upper_bound. nia.
    + apply Nat.lt_succ_r. apply Nat.Div0.div_lt_upper_bound. nia.
    + rewrite Nat.min_r by lia. apply Nat.div_le_lower_bound; nia.
Qed.

Lemma insert_sorted_elem (x y : string) (l : list string) :
  y ∈ States.insert_sorted x l <-> y = x \/ y ∈ l.
Proof.
  induction l as [|z l IH]; cbn [States.insert_sorted].
  - rewrite list_elem_of_singleton, elem_of_nil. tauto.
  - destruct (String.leb x z); rewrite !elem_of_cons; [tauto|]. rewrite IH. tauto.
Qed.

Lemma sorted_strings_elem (y : string) (l : list string) :
  y ∈ States.sorted_strings l <-> y ∈ l.
Proof.
  induction l as [|x l IH]; cbn [States.sorted_strings foldr]; [reflexivity|].
  rewrite insert_sorted_elem, elem_of_cons.
  fold (States.sorted_strings l). rewrite IH. tauto.
Qed.

(** [a] comes strictly before [b] in code-point order. *)
Lemma leb_neq_ltb (a b : string) :
  String.leb a b = true -> a <> b -> String.ltb a b = true.
Proof.
  unfold String.leb, String.ltb. intros Hle Hne.
  destruct (String.compare a b) eqn:Hc; try discriminate; [|reflexivity].
  apply String.compare_eq_iff in Hc. contradiction.
Qed.

Lemma insert_sorted_ascending (x : string) (l : list string) :
  x ∉ l ->
  Sorted (fun a b => String.ltb a b = true) l ->
  Sorted (fun a b => String.ltb a b = true) (States.insert_sorted x l).
Proof.
  induction l as [|y l IH]; intros Hx Hl; cbn [States.insert_sorted].
  - repeat constructor.
  - apply not_elem_of_cons in Hx as [Hxy Hx].
    destruct (String.leb x y) eqn:Hle.
    + constructor; [exact Hl|]. constructor. now apply leb_neq_ltb.
    + apply Sorted_inv in Hl as [Hl Hhd].
      constructor; [now apply IH|].
      destruct l as [|z l]; cbn [States.insert_sorted].
      * constructor. apply leb_neq_ltb; [|congruence].
        destruct (String.leb_total x y) as [H|H]; [congruence | exact H].
      * destruct (String.leb x z).
        -- constructor. apply leb_neq_ltb; [|congruence].
           destruct (String.leb_total x y) as [H|H]; [congruence | exact H].
        -- constructor. now apply HdRel_inv in Hhd.
Qed.

Lemma sorted_strings_ascending (l : list string) :
  NoDup l -> Sorted (fun a b => String.ltb a b = true) (States.sorted_strings l).
Proof.
  induction 1 as [|x l Hx Hl IH]; cbn [States.sorted_strings foldr]; [constructor|].
  apply insert_sorted_ascending; [|exact IH].
  fold (States.sorted_strings l). now rewrite sorted_strings_elem.
Qed.

Lemma set_add_NoDup (x : string) (l : list string) :
  NoDup l -> NoDup (States.set_add x l).
Proof.
  intros Hl. unfold States.set_add. destruct (decide (x ∈ l)); [exact Hl|].
  now constructor.
Qed.

Lemma set_add_elem (x y : string) (l : list string) :
  y ∈ States.set_add x l <-> y = x \/ y ∈ l.
Proof.
  unfold States.set_add. destruct (decide (x ∈ l)); [|apply elem_of_cons].
  split; [tauto | intros [-> | H]; assumption].
Qed.

Section StatesFacts.

Variable reverse : Q -> Q -> Routing.call (option States.location).
Variable upper : string -> string.
Variable lower : string -> string.

(** One pass of the loop: one reverse-geocoding call, at the vertex
    visited, and at most one new abbreviation. *)
Lemma visit_Ok (coords : list (Q * Q)) (calls : list States.reverse_call)
    (found : list string) (i : nat) :
  (i < length coords)%nat ->
  exists lon lat found',
    coords !! i = Some (lon, lat) /\
    States.visit reverse upper lower coords (calls, found) i
    = Ok (calls ++ [States.ReverseCall lat lon], found') /\
    (NoDup found -> NoDup found') /\
    (forall s, s ∈ found' ->
       s ∈ found \/ (s <> EmptyString /\ States.reported reverse upper lower coords s)).
Proof.
  intros Hi. destruct (lookup_lt_is_Some_2 coords i Hi) as [[lon lat] Hp].
  exists lon, lat. unfold States.visit, getitem. rewrite Hp. ok_step. cbv beta iota zeta.
  destruct (reverse lat lon) as [[location|]|] eqn:Hrev;
    try (exists found; split; [reflexivity|]; split; [reflexivity|]; split; [tauto|]; tauto).
  destruct (States.raw_address location) as [address|] eqn:Haddr;
    try (exists found; split; [reflexivity|]; split; [reflexivity|]; split; [tauto|]; tauto).
  destruct (bool_decide (States.state_of address = EmptyString));
    try (exists found; split; [reflexivity|]; split; [reflexivity|]; split; [tauto|]; tauto).
  destruct (States._state_to_abbrev upper lower (States.state_of address)) as [abbrev|] eqn:Hab;
    try (exists found; split; [reflexivity|]; split; [reflexivity|]; split; [tauto|]; tauto).
  destruct (bool_decide (abbrev = EmptyString)) eqn:Hempty;
    try (exists found; split; [reflexivity|]; split; [reflexivity|]; split; [tauto|]; tauto).
  exists (States.set_add abbrev found).
  split; [reflexivity|]. split; [reflexivity|]. split; [apply set_add_NoDup|].
  intros s Hs. apply set_add_elem in Hs as [-> | Hs]; [right | now left].
  split; [now apply bool_decide_eq_false in Hempty|].
  exists lon, lat, location, address.
  split; [exact (list_elem_of_lookup_2 _ _ _ Hp)|]. repeat split; assumption.
Qed.

Lemma visit_loop (coords : list (Q * Q)) (idxs : list nat) :
  (forall i, i ∈ idxs -> (i < length coords)%nat) ->
  forall calls found,
    NoDup found ->
    exists calls' found',
      for_each (States.visit reverse upper lower coords) (calls, found) idxs
      = Ok (calls ++ calls', found') /\
      Forall2 (fun c i => exists lon lat,
                 coords !! i = Some (lon, lat) /\ c = States.ReverseCall lat lon)
              calls' idxs /\
      NoDup found' /\
      (forall s, s ∈ found' ->
         s ∈ found \/ (s <> EmptyString /\ States.reported reverse upper lower coords s)).
Proof.
  induction idxs as [|i idxs IH]; intros Hidx calls found Hnd; cbn [for_each].
  - exists [], found. rewrite app_nil_r. split; [reflexivity|].
    split; [constructor|]. split; [exact Hnd | tauto].
  - destruct (visit_Ok coords calls found i ltac:(apply Hidx; left))
      as (lon & lat & found1 & Hp & Hrun & Hnd1 & Hin1).
    rewrite Hrun. ok_step.
    destruct (IH ltac:(intros j Hj; apply Hidx; now right)
                 (calls ++ [States.ReverseCall lat lon]) found1 (Hnd1 Hnd))
      as (calls' & found' & Hrun' & Hcalls & Hnd' & Hin').
    exists (States.ReverseCall lat lon :: calls'), found'.
    rewrite Hrun', <- app_assoc. split; [reflexivity|].
    split; [constructor; [exists lon, lat; tauto | exact Hcalls]|].
    split; [exact Hnd'|].
    intros s Hs. destruct (Hin' s Hs) as [H|H]; [apply Hin1, H | now right].
Qed.

Lemma get_states_along_route_cases {Geometry : Type} (route : RouteResult.t Geometry) :
  exists calls found,
    States.get_states_along_route reverse upper lower route = Ok (calls, found) /\
    Forall2 (fun c i => exists lon lat,
               RouteResult.coordinates route !! i = Some (lon, lat) /\
               c = States.ReverseCall lat lon)
            calls
            (States.range_step (length (RouteResult.coordinates route))
               (Nat.max 1 (length (RouteResult.coordinates route) / 20))) /\
    Sorted (fun a b => String.ltb a b = true) found /\
    (forall s, s ∈ found ->
       s <> EmptyString /\
       States.reported reverse upper lower (RouteResult.coordinates route) s).
Proof.
  unfold States.get_states_along_route. cbv zeta.
  destruct (visit_loop (RouteResult.coordinates route)
              (States.range_step (length (RouteResult.coordinates route))
                 (Nat.max 1 (length (RouteResult.coordinates route) / 20)))
              ltac:(intros i; apply range_step_bound; lia) [] [] (NoDup_nil_2))
    as (calls & found & Hrun & Hcalls & Hnd & Hin).
  exists calls, (States.sorted_strings found). rewrite Hrun. ok_step. cbn [fst snd app].
  split; [reflexivity|]. split; [exact Hcalls|].
  split; [now apply sorted_strings_ascending|].
  intros s Hs. apply (proj1 (sorted_strings_elem s found)) in Hs.
  destruct (Hin s Hs) as [H|H]; [|exact H]. now apply elem_of_nil in H.
Qed.

(** [get_states_along_route] always returns, whatever the reverse
    geocoder answers or throws.  On a polyline of [n] vertices it makes at
    most 39 and at most [n] reverse-geocoding calls, at least 20 of them
    when [n >= 20] (all [n] below that), each for a vertex of the
    polyline. *)
Theorem states_along_route_calls {Geometry : Type} (route : RouteResult.t Geometry) :
  exists calls found,
    States.get_states_along_route reverse upper lower route = Ok (calls, found) /\
    (length calls <= 39)%nat /\
    (length calls <= length (RouteResult.coordinates route))%nat /\
    (Nat.min (length (RouteResult.coordinates route)) 20 <= length calls)%nat /\
    forall lat lon, States.ReverseCall lat lon ∈ calls ->
      (lon, lat) ∈ RouteResult.coordinates route.
Proof.
  destruct (get_states_along_route_cases route) as (calls & found & Hrun & Hcalls & _).
  exists calls, found. split; [exact Hrun|].
  pose proof (Forall2_length _ _ _ Hcalls) as Hlen.
  unfold States.range_step in Hlen. rewrite length_map, length_seq in Hlen.
  pose proof (sample_count_bounds (length (RouteResult.coordinates route))) as Hb.
  cbv zeta in Hb. rewrite <- Hlen in Hb.
  destruct Hb as (H39 & Hn & H20).
  split; [exact H39|]. split; [exact Hn|]. split; [exact H20|].
  intros lat lon Hc. apply list_elem_of_lookup in Hc as [k Hk].
  destruct (Forall2_lookup_l _ _ _ _ _ Hcalls Hk) as (i & _ & lon' & lat' & Hp & Heq).
  injection Heq as -> ->. exact (list_elem_of_lookup_2 _ _ _ Hp).
Qed.

(** The list [get_states_along_route] returns is strictly ascending
    in code-point order, hence without repetitions, and each of its
    elements is a non-empty string that [_state_to_abbrev] made from the
    state name the reverse geocoder reported at a vertex of the polyline. *)
Theorem states_along_route_sorted {Geometry : Type} (route : RouteResult.t Geometry) :
  exists calls found,
    States.get_states_along_route reverse upper lower route = Ok (calls, found) /\
    Sorted (fun a b => String.ltb a b = true) found /\
    forall s, s ∈ found ->
      s <> EmptyString /\
      exists lon lat location address,
        (lon, lat) ∈ RouteResult.coordinates route /\
        reverse lat lon = Routing.Returns (Some location) /\
        States.raw_address location = Some address /\
        States._state_to_abbrev upper lower (States.state_of address) = Some s.
Proof.
  destruct (get_states_along_route_cases route) as (calls & found & Hrun & _ & Hs & Hin).
  exists calls, found. split; [exact Hrun|]. split; [exact Hs|]. exact Hin.
Qed.

End StatesFacts.

(** * Pre-geocoding the stations *)

Section LoadFacts.

Import LoadFuelStations.

Lemma calls_made_app (a b : list event) :
  calls_made (a ++ b) = (calls_made a + calls_made b)%nat.
Proof. unfold calls_made. now rewrite List.filter_app, length_app. Qed.

Lemma total_sleep_app (a b : list event) :
  total_sleep (a ++ b) == total_sleep a + total_sleep b.
Proof.
  induction a as [|[x|q] a IH]; cbn [total_sleep app]; [ring | rewrite IH; ring | exact IH].
Qed.

Lemma spaced_sleep (t : list event) (x : Q) : spaced t -> spaced (t ++ [Sleep x]).
Proof.
  intros Ht k query Hk.
  apply lookup_app_Some in Hk as [Hk | [_ Hk]].
  - rewrite lookup_app_l; [now apply (Ht k query)|].
    apply lookup_lt_Some in Hk. lia.
  - apply list_lookup_singleton_Some in Hk as [_ Hk]. discriminate.
Qed.

Lemma spaced_call (t : list event) (query : string) :
  spaced t -> (t = [] \/ exists t', t = t' ++ [Sleep 1]) -> spaced (t ++ [Geocode query]).
Proof.
  intros Ht Hlast k q Hk.
  apply lookup_app_Some in Hk as [Hk | [Hlen Hk]].
  - rewrite lookup_app_l; [now apply (Ht k q)|].
    apply lookup_lt_Some in Hk. lia.
  - apply list_lookup_singleton_Some in Hk as [Hk0 _].
    destruct Hlast as [-> | [t' ->]]; [cbn in Hk0; lia|].
    rewrite length_app in Hlen, Hk0. cbn [length] in Hlen, Hk0.
    rewrite lookup_app_l by (rewrite length_app; cbn; lia).
    rewrite lookup_app_r by lia.
    replace (k - length t')%nat with 0%nat by lia. reflexivity.
Qed.

Lemma keys_dict_set (key : string) (coords : Q * Q) (d : list (string * (Q * Q))) :
  forall k, k ∈ keys (dict_set key coords d) -> k = key \/ k ∈ keys d.
Proof.
  unfold keys. induction d as [|[k' w] d IH]; intros k; cbn [dict_set].
  - cbn. rewrite list_elem_of_singleton. tauto.
  - destruct (bool_decide (k' = key)); cbn [map fst]; rewrite !elem_of_cons; [tauto|].
    intros [H|H]; [tauto|]. destruct (IH k H); tauto.
Qed.

Lemma dict_set_fresh (key : string) (coords : Q * Q) (d : list (string * (Q * Q))) :
  key ∉ keys d -> dict_set key coords d = d ++ [(key, coords)].
Proof.
  unfold keys. induction d as [|[k' w] d IH]; intros Hk; cbn [dict_set]; [reflexivity|].
  cbn [map fst] in Hk. apply not_elem_of_cons in Hk as [Hne Hk].
  rewrite bool_decide_eq_false_2 by congruence. now rewrite IH.
Qed.

Variable geocode : nat -> string -> answer.
Variable upper : string -> string.

(** What the passes over one location leave behind. *)
Lemma attempts_spec (idx : nat) (key query : string) :
  forall remaining attempt s,
    (attempt + remaining = 3)%nat -> (1 <= remaining)%nat ->
    ((idx <= 1)%nat -> attempt = 0%nat -> trace s = []) ->
    spaced (trace s) ->
    exists new,
      trace (attempts geocode idx key query attempt remaining s) = trace s ++ new /\
      spaced (trace s ++ new) /\
      (1 <= calls_made new <= remaining)%nat /\
      total_sleep new <= sleep_budget attempt /\
      ((exists coords,
          coords_cache (attempts geocode idx key query attempt remaining s)
          = dict_set key coords (coords_cache s) /\
          failed_locations (attempts geocode idx key query attempt remaining s)
          = failed_locations s) \/
       (coords_cache (attempts geocode idx key query attempt remaining s) = coords_cache s /\
        failed_locations (attempts geocode idx key query attempt remaining s)
        = failed_locations s ++ [query])).
Proof.
  induction remaining as [|remaining IH]; intros attempt s Hsum Hpos Hfirst Hsp; [lia|].
  cbn [attempts]. cbv zeta.
  set (s1 := if (1 <? idx)%nat || (0 <? attempt)%nat then log (Sleep 1) s else s).
  assert (exists pre, trace s1 = trace s ++ pre /\
            (trace s1 = [] \/ exists t', trace s1 = t' ++ [Sleep 1]) /\
            spaced (trace s1) /\ calls_made pre = 0%nat /\ total_sleep pre <= 1 /\
            coords_cache s1 = coords_cache s /\ failed_locations s1 = failed_locations s)
    as (pre & Hpre & Hlast & Hsp1 & Hc1 & Hsl1 & Hcache1 & Hfail1).
  { subst s1. destruct ((1 <? idx)%nat || (0 <? attempt)%nat) eqn:Hb.
    - exists [Sleep 1]. cbn [log trace coords_cache failed_locations].
      split; [reflexivity|]. split; [right; now exists (trace s)|].
      split; [now apply spaced_sleep|]. split; [reflexivity|].
      split; [cbn; lra|]. split; reflexivity.
    - apply orb_false_iff in Hb as [Hidx Hatt].
      apply Nat.ltb_ge in Hidx, Hatt.
      exists []. rewrite app_nil_r. split; [reflexivity|].
      split; [left; apply Hfirst; lia|]. split; [exact Hsp|].
      split; [reflexivity|]. split; [cbn; lra|]. split; reflexivity. }
  clearbody s1.
  set (result := geocode (calls_made (trace s1)) query). clearbody result.
  set (s2 := log (Geocode query) s1).
  assert (trace s2 = trace s ++ (pre ++ [Geocode query])) as Ht2.
  { subst s2. cbn [log trace]. rewrite Hpre. now rewrite <- app_assoc. }
  assert (spaced (trace s2)) as Hsp2.
  { subst s2. cbn [log trace]. now apply spaced_call. }
  assert (coords_cache s2 = coords_cache s /\ failed_locations s2 = failed_locations s)
    as [Hcache2 Hfail2] by (subst s2; cbn [log coords_cache failed_locations]; tauto).
  assert (calls_made (pre ++ [Geocode query]) = 1%nat) as Hc2.
  { rewrite calls_made_app, Hc1. reflexivity. }
  assert (total_sleep (pre ++ [Geocode query]) <= 1) as Hsl2.
  { rewrite total_sleep_app. cbn [total_sleep]. lra. }
  assert (1 <= sleep_budget attempt) as Hbudget.
  { assert (attempt = 0 \/ attempt = 1 \/ attempt = 2)%nat as [->|[->| ->]] by lia;
      cbn; lra. }
  clearbody s2.
  assert (forall s3 more,
            trace s3 = trace s2 ++ more -> spaced (trace s3) ->
            calls_made more = 0%nat ->
            total_sleep more + sleep_budget (S attempt) + 1 <= sleep_budget attempt ->
            coords_cache s3 = coords_cache s ->
            failed_locations s3 = failed_locations s ->
            (1 <= remaining)%nat ->
            exists new,
              trace (attempts geocode idx key query (S attempt) remaining s3)
              = trace s ++ new /\
              spaced (trace s ++ new) /\
              (1 <= calls_made new <= S remaining)%nat /\
              total_sleep new <= sleep_budget attempt /\
              ((exists coords,
                  coords_cache (attempts geocode idx key query (S attempt) remaining s3)
                  = dict_set key coords (coords_cache s) /\
                  failed_locations (attempts geocode idx key query (S attempt) remaining s3)
                  = failed_locations s) \/
               (coords_cache (attempts geocode idx key query (S attempt) remaining s3)
                = coords_cache s /\
                failed_locations (attempts geocode idx key query (S attempt) remaining s3)
                = failed_locations s ++ [query]))) as Hnext.
  { intros s3 more Ht3 Hsp3 Hc3 Hsl3 Hcache3 Hfail3 Hrem.
    destruct (IH (S attempt) s3 ltac:(lia) Hrem ltac:(intros _ H; discriminate H) Hsp3)
      as (new & Htr & Hspn & Hcn & Hsln & Hout).
    exists ((pre ++ [Geocode query]) ++ more ++ new).
    rewrite Htr, Ht3, Ht2, <- !app_assoc.
    split; [reflexivity|].
    split; [rewrite Ht3, Ht2, <- !app_assoc in Hspn; exact Hspn|].
    split; [rewrite !calls_made_app; rewrite calls_made_app in Hc2; lia|].
    split.
    - rewrite !total_sleep_app. rewrite total_sleep_app in Hsl2. lra.
    - rewrite Hcache3, Hfail3 in Hout. exact Hout. }
  assert (forall s3,
            remaining = 0%nat ->
            trace s3 = trace s2 -> coords_cache s3 = coords_cache s ->
            failed_locations s3 = failed_locations s ++ [query] ->
            exists new,
              trace (attempts geocode idx key query (S attempt) remaining s3)
              = trace s ++ new /\
              spaced (trace s ++ new) /\
              (1 <= calls_made new <= S remaining)%nat /\
              total_sleep new <= sleep_budget attempt /\
              ((exists coords,
                  coords_cache (attempts geocode idx key query (S attempt) remaining s3)
                  = dict_set key coords (coords_cache s) /\
                  failed_locations (attempts geocode idx key query (S attempt) remaining s3)
                  = failed_locations s) \/
               (coords_cache (attempts geocode idx key query (S attempt) remaining s3)
                = coords_cache s /\
                failed_locations (attempts geocode idx key query (S attempt) remaining s3)
                = failed_locations s ++ [query]))) as Hlastpass.
  { intros s3 -> Ht3 Hcache3 Hfail3. cbn [attempts].
    exists (pre ++ [Geocode query]). rewrite Ht3, Ht2.
    split; [reflexivity|]. split; [now rewrite <- Ht2|].
    split; [lia|]. split; [lra|]. right. tauto. }
  destruct result as [latitude longitude| | |].
  - exists (pre ++ [Geocode query]). cbn [cache trace coords_cache failed_locations].
    rewrite Ht2. split; [reflexivity|]. split; [now rewrite <- Ht2|].
    split; [lia|]. split; [lra|].
    left. exists (latitude, longitude). rewrite Hcache2, Hfail2. tauto.
  - destruct remaining as [|remaining'].
    + assert (attempt = 2%nat) as -> by lia. cbn [Nat.eqb max_attempts Nat.sub].
      apply Hlastpass; cbn [fail trace coords_cache failed_locations];
        [reflexivity | reflexivity | exact Hcache2 | now rewrite Hfail2].
    + assert ((attempt =? max_attempts - 1)%nat = false) as ->
          by (apply Nat.eqb_neq; cbn; lia).
      apply (Hnext s2 []); [now rewrite app_nil_r | exact Hsp2 | reflexivity |
                            | exact Hcache2 | exact Hfail2 | lia].
      assert (attempt = 0 \/ attempt = 1)%nat as [->| ->] by lia; cbn; lra.
  - destruct remaining as [|remaining'].
    + assert (attempt = 2%nat) as -> by lia. cbn [Nat.ltb Nat.leb max_attempts Nat.sub].
      apply Hlastpass; cbn [fail trace coords_cache failed_locations];
        [reflexivity | reflexivity | exact Hcache2 | now rewrite Hfail2].
    + assert ((attempt <? max_attempts - 1)%nat = true) as ->
          by (apply Nat.ltb_lt; cbn; lia).
      apply (Hnext (log (Sleep (inject_Z (2 ^ Z.of_nat attempt))) s2)
                   [Sleep (inject_Z (2 ^ Z.of_nat attempt))]);
        cbn [log trace coords_cache failed_locations];
        [reflexivity | now apply spaced_sleep | reflexivity | | exact Hcache2
         | exact Hfail2 | lia].
      assert (attempt = 0 \/ attempt = 1)%nat as [->| ->] by lia;
        apply Qle_bool_iff; reflexivity.
  - exists (pre ++ [Geocode query]). cbn [fail trace coords_cache failed_locations].
    rewrite Ht2. split; [reflexivity|]. split; [now rewrite <- Ht2|].
    split; [lia|]. split; [lra|].
    right. rewrite Hcache2, Hfail2. tauto.
Qed.

(** What one location leaves behind. *)
Lemma geocode_location_spec (idx : nat) (location : string * string) (s : state) :
  (1 <= idx)%nat -> ((idx <= 1)%nat -> trace s = []) -> spaced (trace s) ->
  exists new,
    trace (geocode_location geocode upper idx location s) = trace s ++ new /\
    spaced (trace s ++ new) /\
    (length (asked upper [location]) <= calls_made new)%nat /\
    (calls_made new <= 3 * length (asked upper [location]))%nat /\
    total_sleep new <= 6 * inject_Z (Z.of_nat (length (asked upper [location]))) /\
    ((exists coords,
        is_canadian upper location = false /\
        coords_cache (geocode_location geocode upper idx location s)
        = dict_set (cache_key location) coords (coords_cache s) /\
        failed_locations (geocode_location geocode upper idx location s)
        = failed_locations s) \/
     (exists label,
        coords_cache (geocode_location geocode upper idx location s) = coords_cache s /\
        failed_locations (geocode_location geocode upper idx location s)
        = failed_locations s ++ [label])).
Proof.
  intros Hidx Hfirst Hsp. unfold geocode_location, asked. cbn [List.filter].
  destruct (is_canadian upper location) eqn:Hca; cbn [negb length].
  - exists []. rewrite app_nil_r. cbn [fail trace coords_cache failed_locations].
    split; [reflexivity|]. split; [exact Hsp|]. split; [cbn; lia|].
    split; [cbn; lia|]. split; [apply Qle_bool_iff; reflexivity|].
    right. eexists. split; reflexivity.
  - destruct (attempts_spec idx (cache_key location) (query_of location) 3 0 s
                ltac:(reflexivity) ltac:(lia) ltac:(intros H _; now apply Hfirst) Hsp)
      as (new & Htr & Hspn & Hcalls & Hsleep & Hout).
    exists new. unfold max_attempts.
    split; [exact Htr|]. split; [exact Hspn|]. split; [lia|]. split; [lia|].
    split; [exact Hsleep|].
    destruct Hout as [(coords & H1 & H2) | (H1 & H2)].
    + left. exists coords. tauto.
    + right. exists (query_of location). tauto.
Qed.

Lemma asked_cons (location : string * string) (rest : list (string * string)) :
  asked upper (location :: rest) = asked upper [location] ++ asked upper rest.
Proof. unfold asked. cbn [List.filter]. now destruct (negb (is_canadian upper location)). Qed.

(** What the loop over the locations leaves behind. *)
Lemma geocode_locations_spec (unique_locations : list (string * string)) :
  forall idx s,
    (1 <= idx)%nat -> ((idx <= 1)%nat -> trace s = []) -> spaced (trace s) ->
    exists new,
      trace (geocode_locations geocode upper idx unique_locations s) = trace s ++ new /\
      spaced (trace s ++ new) /\
      (length (asked upper unique_locations) <= calls_made new
       <= 3 * length (asked upper unique_locations))%nat /\
      total_sleep new <= 6 * inject_Z (Z.of_nat (length (asked upper unique_locations))) /\
      (forall k, k ∈ keys (coords_cache (geocode_locations geocode upper idx unique_locations s)) ->
         k ∈ keys (coords_cache s) \/ k ∈ map cache_key (asked upper unique_locations)) /\
      (NoDup (map cache_key unique_locations) ->
       (forall l, l ∈ unique_locations -> cache_key l ∉ keys (coords_cache s)) ->
       (length (coords_cache (geocode_locations geocode upper idx unique_locations s))
        + length (failed_locations (geocode_locations geocode upper idx unique_locations s))
        = length (coords_cache s) + length (failed_locations s)
          + length unique_locations)%nat).
Proof.
  induction unique_locations as [|location rest IH]; intros idx s Hidx Hfirst Hsp;
    cbn [geocode_locations].
  - exists []. rewrite app_nil_r. split; [reflexivity|]. split; [exact Hsp|].
    split; [cbn; lia|]. split; [apply Qle_bool_iff; reflexivity|].
    split; [tauto|]. intros _ _. cbn. lia.
  - destruct (geocode_location_spec idx location s Hidx Hfirst Hsp)
      as (new1 & Htr1 & Hsp1 & Hc1 & Hc1' & Hsl1 & Hout1).
    set (s1 := geocode_location geocode upper idx location s) in *.
    destruct (IH (S idx) s1 ltac:(lia) ltac:(lia) ltac:(now rewrite Htr1))
      as (new & Htr & Hspn & Hc & Hsl & Hkeys & Hacc).
    exists (new1 ++ new). rewrite Htr, Htr1, <- app_assoc.
    split; [reflexivity|].
    split; [rewrite Htr1, <- app_assoc in Hspn; exact Hspn|].
    rewrite asked_cons, length_app, calls_made_app, total_sleep_app.
    split; [lia|].
    split; [rewrite Nat2Z.inj_add, inject_Z_plus; lra|].
    assert (forall k, k ∈ keys (coords_cache s1) ->
              k ∈ keys (coords_cache s) \/
              (is_canadian upper location = false /\ k = cache_key location)) as Hk1.
    { intros k Hk. destruct Hout1 as [(coords & Hca & H1 & _) | (label & H1 & _)];
        rewrite H1 in Hk; [|now left].
      apply keys_dict_set in Hk as [-> | Hk]; [now right | now left]. }
    split.
    + intros k Hk. destruct (Hkeys k Hk) as [H|H].
      * destruct (Hk1 k H) as [H'|[Hca ->]]; [now left|]. right.
        unfold asked. cbn [List.filter]. rewrite Hca. cbn [negb app map].
        apply elem_of_cons. now left.
      * right. rewrite map_app. apply elem_of_app. now right.
    + intros Hnd Hfresh. cbn [map] in Hnd. apply NoDup_cons in Hnd as [Hnew Hnd].
      rewrite Hacc; [|exact Hnd|].
      * assert (length (coords_cache s1) + length (failed_locations s1)
                = S (length (coords_cache s) + length (failed_locations s)))%nat as Hone.
        { destruct Hout1 as [(coords & _ & H1 & H2) | (label & H1 & H2)];
            rewrite H1, H2.
          - rewrite dict_set_fresh by (apply Hfresh; now left).
            rewrite length_app. cbn. lia.
          - rewrite length_app. cbn. lia. }
        cbn [length]. lia.
      * intros l Hl Hin. destruct (Hk1 _ Hin) as [H|[_ H]].
        -- apply (Hfresh l); [now right | exact H].
        -- apply Hnew. rewrite <- H. apply list_elem_of_fmap. now exists l.
Qed.

Lemma split_chars_length (sep : ascii) (l : list ascii) :
  length (split_chars sep l) = S (length (List.filter (fun c => Ascii.eqb c sep) l)).
Proof.
  induction l as [|c rest IH]; cbn [split_chars List.filter]; [reflexivity|].
  destruct (Ascii.eqb c sep); cbn [length]; [now rewrite IH|].
  destruct (split_chars sep rest) as [|part parts]; [discriminate|exact IH].
Qed.

Lemma split_length (sep : ascii) (key : string) :
  length (split sep key) = S (occurrences sep key).
Proof. unfold split, occurrences. rewrite length_map. apply split_chars_length. Qed.

Lemma occurrences_append (sep : ascii) (a b : string) :
  occurrences sep (String.append a b) = (occurrences sep a + occurrences sep b)%nat.
Proof.
  unfold occurrences. induction a as [|c a IH]; [reflexivity|].
  cbn [String.append list_ascii_of_string List.filter].
  destruct (Ascii.eqb c sep); cbn [length]; now rewrite IH.
Qed.

Lemma occurrences_cache_key (location : string * string) :
  occurrences "," (cache_key location)
  = S (occurrences "," (fst location) + occurrences "," (snd location)).
Proof.
  unfold cache_key. rewrite !occurrences_append.
  change (occurrences "," ",") with 1%nat. lia.
Qed.

Variable DB : Type.
Variable update : DB -> string -> string -> Q * Q -> DB * nat.

Lemma update_stations_Ok (coords_cache : list (string * (Q * Q))) :
  Forall (fun entry => occurrences "," (fst entry) = 1%nat) coords_cache ->
  forall db, exists r, update_stations DB update db coords_cache = Ok r.
Proof.
  intros Hall db. unfold update_stations.
  generalize 0%nat. revert db.
  induction coords_cache as [|[key coords] rest IH]; intros db n; cbn [for_each].
  - now eexists.
  - apply Forall_cons in Hall as [Hkey Hall]. cbn [fst] in Hkey.
    pose proof (split_length "," key) as Hlen. rewrite Hkey in Hlen.
    destruct (split "," key) as [|city [|state [|]]]; try discriminate.
    destruct (update db city state coords) as [db' count]. ok_step. apply (IH Hall).
Qed.

Lemma update_stations_Raise (coords_cache : list (string * (Q * Q))) :
  Forall (fun entry => (1 <= occurrences "," (fst entry))%nat) coords_cache ->
  Exists (fun entry => occurrences "," (fst entry) <> 1%nat) coords_cache ->
  forall db,
    update_stations DB update db coords_cache
    = Raise (ValueError "too many values to unpack (expected 2)").
Proof.
  intros Hall Hbad db. unfold update_stations.
  generalize 0%nat. revert db.
  induction coords_cache as [|[key coords] rest IH]; intros db n; cbn [for_each].
  - now apply Exists_nil in Hbad.
  - apply Forall_cons in Hall as [Hkey Hall]. cbn [fst] in Hkey.
    pose proof (split_length "," key) as Hlen.
    destruct (split "," key) as [|city [|state [|extra more]]]; cbn [length] in Hlen;
      try lia; try reflexivity.
    apply Exists_cons in Hbad as [Hbad | Hbad]; [cbn [fst] in Hbad; lia|].
    destruct (update db city state coords) as [db' count]. ok_step. apply (IH Hall Hbad).
Qed.

(** The geocoding loop of [geocode_stations] keeps the rate limit of
    one request per second whatever the geocoder answers: every call to
    the geocoder, other than a call that is the first thing the loop does,
    comes directly after a [time.sleep(1.0)]. *)
Theorem geocoder_calls_are_spaced (unique_locations : list (string * string)) :
  LoadFuelStations.spaced
    (LoadFuelStations.trace
       (LoadFuelStations.geocode_all geocode upper unique_locations)).
Proof.
  unfold geocode_all.
  destruct (geocode_locations_spec unique_locations 1 (mk_state [] [] [])
              ltac:(lia) ltac:(reflexivity) ltac:(intros k q H; discriminate H))
    as (new & Htr & Hsp & _).
  rewrite Htr. exact Hsp.
Qed.

(** The geocoding loop calls the geocoder at least once and at most
    three times for each location outside Canada, never for a Canadian
    one, and sleeps at most six seconds per location outside Canada: one
    second before each call, and one then two seconds of back-off (never
    four). *)
Theorem geocoder_calls_and_sleep_bound (unique_locations : list (string * string)) :
  (length (LoadFuelStations.asked upper unique_locations)
   <= LoadFuelStations.calls_made
        (LoadFuelStations.trace
           (LoadFuelStations.geocode_all geocode upper unique_locations))
   <= 3 * length (LoadFuelStations.asked upper unique_locations))%nat /\
  LoadFuelStations.total_sleep
    (LoadFuelStations.trace (LoadFuelStations.geocode_all geocode upper unique_locations))
  <= 6 * inject_Z (Z.of_nat (length (LoadFuelStations.asked upper unique_locations))).
Proof.
  unfold geocode_all.
  destruct (geocode_locations_spec unique_locations 1 (mk_state [] [] [])
              ltac:(lia) ltac:(reflexivity) ltac:(intros k q H; discriminate H))
    as (new & Htr & _ & Hcalls & Hsleep & _).
  rewrite Htr. cbn [trace app]. split; [exact Hcalls | exact Hsleep].
Qed.

(** When the cache keys ["{city},{state}"] of the locations are
    pairwise different, every location ends up exactly once in
    [coords_cache] or in [failed_locations], and every cached key is the
    key of a location outside Canada. *)
Theorem every_location_cached_or_failed (unique_locations : list (string * string)) :
  NoDup (map LoadFuelStations.cache_key unique_locations) ->
  (length (LoadFuelStations.coords_cache
             (LoadFuelStations.geocode_all geocode upper unique_locations))
   + length (LoadFuelStations.failed_locations
               (LoadFuelStations.geocode_all geocode upper unique_locations))
   = length unique_locations)%nat /\
  forall key,
    key ∈ LoadFuelStations.keys
            (LoadFuelStations.coords_cache
               (LoadFuelStations.geocode_all geocode upper unique_locations)) ->
    key ∈ map LoadFuelStations.cache_key (LoadFuelStations.asked upper unique_locations).
Proof.
  intros Hnd. unfold geocode_all.
  destruct (geocode_locations_spec unique_locations 1 (mk_state [] [] [])
              ltac:(lia) ltac:(reflexivity) ltac:(intros k q H; discriminate H))
    as (new & _ & _ & _ & _ & Hkeys & Hacc).
  split.
  - rewrite Hacc; [reflexivity | exact Hnd |].
    intros l _ H. now apply elem_of_nil in H.
  - intros key Hkey. destruct (Hkeys key Hkey) as [H|H]; [|exact H].
    now apply elem_of_nil in H.
Qed.

(** A comma in the city or the state of a location that was geocoded
    makes [geocode_stations] fail: [cache_key.split(',')] then has more
    than two parts, the unpacking raises [ValueError], and the transaction
    rolls back the updates of the other locations as well. *)
Theorem comma_in_location_aborts_update (db : DB)
    (unique_locations : list (string * string)) (location : string * string) :
  LoadFuelStations.cache_key location
  ∈ LoadFuelStations.keys
      (LoadFuelStations.coords_cache
         (LoadFuelStations.geocode_all geocode upper unique_locations)) ->
  (0 < LoadFuelStations.occurrences "," (fst location)
       + LoadFuelStations.occurrences "," (snd location))%nat ->
  LoadFuelStations.geocode_stations geocode upper DB update db unique_locations
  = Raise (ValueError "too many values to unpack (expected 2)").
Proof.
  intros Hkey Hcomma. unfold geocode_stations.
  destruct unique_locations as [|l rest] eqn:Hlocs; [now apply elem_of_nil in Hkey|].
  rewrite <- Hlocs in *. replace (length unique_locations =? 0)%nat with false
    by (rewrite Hlocs; reflexivity).
  cbv zeta. rewrite update_stations_Raise; [reflexivity | |].
  - apply List.Forall_forall. intros [key coords] Hin. cbn [fst].
    assert (key ∈ keys (coords_cache (geocode_all geocode upper unique_locations))) as Hk.
    { unfold keys. apply list_elem_of_fmap. exists (key, coords).
      split; [reflexivity | now apply list_elem_of_In]. }
    unfold geocode_all in Hk.
    destruct (geocode_locations_spec unique_locations 1 (mk_state [] [] [])
                ltac:(lia) ltac:(reflexivity) ltac:(intros k q H; discriminate H))
      as (new & _ & _ & _ & _ & Hkeys & _).
    destruct (Hkeys key Hk) as [H|H]; [now apply elem_of_nil in H|].
    apply list_elem_of_fmap in H as (l' & -> & _).
    rewrite occurrences_cache_key. lia.
  - unfold keys in Hkey. apply list_elem_of_fmap in Hkey as ([key coords] & Heq & Hin).
    cbn [fst] in Heq. subst key.
    apply List.Exists_exists. exists (cache_key location, coords).
    split; [now apply list_elem_of_In|]. cbn [fst].
    rewrite occurrences_cache_key. lia.
Qed.

(** When no city and no state holds a comma, the update step of
    [geocode_stations] never fails on the keys of the cache: the command
    returns, with the state the geocoding loop left. *)
Theorem update_completes_without_commas (db : DB)
    (unique_locations : list (string * string)) :
  Forall (fun location =>
            LoadFuelStations.occurrences "," (fst location) = 0%nat /\
            LoadFuelStations.occurrences "," (snd location) = 0%nat)
         unique_locations ->
  exists s db' updated_count,
    LoadFuelStations.geocode_stations geocode upper DB update db unique_locations
    = Ok (s, db', updated_count) /\
    LoadFuelStations.trace s
    = LoadFuelStations.trace (LoadFuelStations.geocode_all geocode upper unique_locations).
Proof.
  intros Hclean. unfold geocode_stations.
  destruct (length unique_locations =? 0)%nat eqn:Hlen.
  - apply Nat.eqb_eq, length_zero_iff_nil in Hlen. subst.
    now exists (mk_state [] [] []), db, 0%nat.
  - cbv zeta.
    destruct (update_stations_Ok
                (coords_cache (geocode_all geocode upper unique_locations))) with (db := db)
      as [[db' n] Hrun].
    + apply List.Forall_forall. intros [key coords] Hin. cbn [fst].
      assert (key ∈ keys (coords_cache (geocode_all geocode upper unique_locations))) as Hk.
      { unfold keys. apply list_elem_of_fmap. exists (key, coords).
        split; [reflexivity | now apply list_elem_of_In]. }
      unfold geocode_all in Hk.
      destruct (geocode_locations_spec unique_locations 1 (mk_state [] [] [])
                  ltac:(lia) ltac:(reflexivity) ltac:(intros k q H; discriminate H))
        as (new & _ & _ & _ & _ & Hkeys & _).
      destruct (Hkeys key Hk) as [H|H]; [now apply elem_of_nil in H|].
      apply list_elem_of_fmap in H as (l' & -> & Hl').
      rewrite occurrences_cache_key.
      assert (l' ∈ unique_locations) as Hl.
      { unfold asked in Hl'. apply list_elem_of_In, List.filter_In in Hl' as [Hl' _].
        now apply list_elem_of_In. }
      rewrite List.Forall_forall in Hclean.
      destruct (Hclean l' ltac:(now apply list_elem_of_In)) as [-> ->]. reflexivity.
    + rewrite Hrun. ok_step. cbn [fst snd]. now eexists _, _, _.
Qed.

End LoadFacts.

Lemma every_location_cached_or_failed_witness :
  NoDup (map LoadFuelStations.cache_key example_locations) /\
  (length (LoadFuelStations.coords_cache
             (LoadFuelStations.geocode_all example_geocoder example_upper example_locations))
   + length (LoadFuelStations.failed_locations
               (LoadFuelStations.geocode_all example_geocoder example_upper
                  example_locations))
   = length example_locations)%nat /\
  forall key,
    key ∈ LoadFuelStations.keys
            (LoadFuelStations.coords_cache
               (LoadFuelStations.geocode_all example_geocoder example_upper
                  example_locations)) ->
    key ∈ map LoadFuelStations.cache_key
            (LoadFuelStations.asked example_upper example_locations).
Proof.
  assert (NoDup (map LoadFuelStations.cache_key example_locations)) as Hnd.
  { apply (bool_decide_unpack _). vm_compute. exact I. }
  split; [exact Hnd|].
  apply (every_location_cached_or_failed example_geocoder example_upper example_locations Hnd).
Defined.

Lemma comma_in_location_aborts_update_witness :
  LoadFuelStations.cache_key ("Washington, D.C.", "DC")%string
  ∈ LoadFuelStations.keys
      (LoadFuelStations.coords_cache
         (LoadFuelStations.geocode_all example_geocoder example_upper
            (example_locations ++ [("Washington, D.C.", "DC")%string]))) /\
  (0 < LoadFuelStations.occurrences "," "Washington, D.C."
       + LoadFuelStations.occurrences "," "DC")%nat /\
  LoadFuelStations.geocode_stations example_geocoder example_upper unit example_update tt
    (example_locations ++ [("Washington, D.C.", "DC")%string])
  = Raise (ValueError "too many values to unpack (expected 2)").
Proof.
  assert (LoadFuelStations.cache_key ("Washington, D.C.", "DC")%string
          ∈ LoadFuelStations.keys
              (LoadFuelStations.coords_cache
                 (LoadFuelStations.geocode_all example_geocoder example_upper
                    (example_locations ++ [("Washington, D.C.", "DC")%string])))) as Hkey.
  { apply (bool_decide_unpack _). vm_compute. exact I. }
  split; [exact Hkey|]. split; [cbn; lia|].
  apply (comma_in_location_aborts_update example_geocoder example_upper unit example_update tt
           (example_locations ++ [("Washington, D.C.", "DC")%string])
           ("Washington, D.C.", "DC")%string Hkey).
  cbn. lia.
Defined.

Lemma update_completes_without_commas_witness :
  Forall (fun location =>
            LoadFuelStations.occurrences "," (fst location) = 0%nat /\
            LoadFuelStations.occurrences "," (snd location) = 0%nat)
         example_locations /\
  exists s db' updated_count,
    LoadFuelStations.geocode_stations example_geocoder example_upper unit example_update tt
      example_locations
    = Ok (s, db', updated_count) /\
    LoadFuelStations.trace s
    = LoadFuelStations.trace
        (LoadFuelStations.geocode_all example_geocoder example_upper example_locations).
Proof.
  assert (Forall (fun location =>
                    LoadFuelStations.occurrences "," (fst location) = 0%nat /\
                    LoadFuelStations.occurrences "," (snd location) = 0%nat)
                 example_locations) as Hclean.
  { repeat constructor. }
  split; [exact Hclean|].
  apply (update_completes_without_commas example_geocoder example_upper unit example_update tt
           example_locations Hclean).
Defined.
